(** * cacheSimulator: a fully associative LRU cache (src/cache.c)

    Shallow embedding of [cache.c] and the properties of its lookup
    operation [cache_get].

    Conventions of the embedding (LP64, as the 64-bit mask in
    [address_decomposer] assumes):
    - [unsigned long] is a [Z] in [0, 2^64), [unsigned int] a [Z] in
      [0, 2^32), [unsigned char] a [byte] (or a [Z] when used as a flag);
      every arithmetic operation that can wrap is written with [wrap32] or
      [wrap64];
    - the line array carved out of the fast memory is a [list cache_line];
      a pointer to a line is its index in that list; [numOfLines] is the
      length of the array (cache.h, which declares [c_info], is not part of
      the sources, so the arena size is not modelled);
    - a function whose C behaviour is undefined on some input returns [None]
      there;
    - [memget], declared in cache.h and defined elsewhere, is a parameter. *)

From stdpp Require Import list numbers.
From Stdlib.Strings Require Import Byte.

Local Open Scope Z_scope.

(** ** Machine integers *)

Definition wrap32 (z : Z) : Z := z mod 2 ^ 32.
Definition wrap64 (z : Z) : Z := z mod 2 ^ 64.

Definition byte_to_Z (b : byte) : Z := Z.of_N (Byte.to_N b).

(** ** Data model *)

(** [struct cache_line]: [time] and [tag] are [unsigned int], [valid] is an
    [unsigned char], [cacheBlock] is [unsigned char [64]]. *)
Record cache_line := mk_cache_line {
  time : Z;
  valid : Z;
  tag : Z;
  cacheBlock : list byte
}.

(** [struct cache_base] with its single [cache_set]: the set's only field is
    the line array, so the set is that array. *)
Record cache_base := mk_cache_base {
  initialized : Z;
  cacheSetArray : list cache_line
}.

Definition with_time (t : Z) (l : cache_line) : cache_line :=
  {| time := t; valid := valid l; tag := tag l; cacheBlock := cacheBlock l |}.

Definition with_cacheBlock (b : list byte) (l : cache_line) : cache_line :=
  {| time := time l; valid := valid l; tag := tag l; cacheBlock := b |}.

(** [sizeof(((cache_line* )0)->cacheBlock)] *)
Definition sizeOfBlock : Z := 64.

Definition numOfLines (set : list cache_line) : Z := Z.of_nat (length set).

(** ** address_decomposer (cache.c 47-60) *)

Definition address_decomposer (address : Z) : Z * Z :=
  let offsetBit := Z.log2 sizeOfBlock in
  let offsetMask := wrap64 (Z.lnot (wrap64 (Z.shiftl 0xffffffffffffffff offsetBit))) in
  (Z.land address offsetMask, Z.shiftr address offsetBit).

(** ** cache_get_byElem (cache.c 70-77)

    [block] is the byte sequence that starts at the pointer passed in; a read
    past its end yields [x00] (it never happens: every call stays inside the
    64 bytes of a block). *)

Definition cache_get_byElem (valueTemp block : list byte)
    (numOfElem startLocation : nat) : list byte :=
  foldl (fun vt i => <[(i + startLocation)%nat := default x00 (block !! i)]> vt)
        valueTemp (seq 0 numOfElem).

(** ** reverse_endian (cache.c 85-94) *)

Definition reverse_endian (valueTemp : list byte) : Z :=
  foldl (fun value i =>
           Z.lor (wrap64 (Z.shiftl value 8))
                 (byte_to_Z (default x00 (valueTemp !! (8 - i - 1)%nat))))
        0 (seq 0 8).

(** ** The ageing loop shared by findEvict (117-121) and setLRU (142-146)

    [for (i = 0; i < numOfLines; i++) if (set[i].time < line->time) set[i].time++;]
    where [line] points into the same array, so [line->time] is read again
    at every iteration. *)

Definition age_step (line : nat) (set : list cache_line) (i : nat)
    : list cache_line :=
  match set !! i, set !! line with
  | Some li, Some l =>
      if time li <? time l
      then <[i := with_time (wrap32 (time li + 1)) li]> set
      else set
  | _, _ => set
  end.

Definition age_loop (line : nat) (set : list cache_line) : list cache_line :=
  foldl (age_step line) set (seq 0 (length set)).

(** ** findEvict (cache.c 105-128)

    The first loop keeps the last line whose time is [numOfLines - 1]; when
    there is none, [evictedLine] is read uninitialised. *)

Definition find_evicted (set : list cache_line) : option nat :=
  foldl (fun evictedLine i =>
           match set !! i with
           | Some l =>
               if time l =? wrap32 (numOfLines set - 1) then Some i
               else evictedLine
           | None => evictedLine
           end)
        None (seq 0 (length set)).

Definition install (newTag : Z) (l : cache_line) : cache_line :=
  {| time := 0; valid := 1; tag := wrap32 newTag; cacheBlock := cacheBlock l |}.

Definition findEvict (set : list cache_line) (newTag : Z)
    : option (nat * list cache_line) :=
  match find_evicted set with
  | None => None
  | Some evictedLine =>
      Some (evictedLine, alter (install newTag) evictedLine (age_loop evictedLine set))
  end.

(** ** setLRU (cache.c 139-149) *)

Definition setLRU (set : list cache_line) (line : nat) : list cache_line :=
  alter (with_time 0) line (age_loop line set).

(** ** init (cache.c 157-185)

    The block bytes of the arena are left as they are. *)

Definition init (cacheBase : cache_base) : cache_base :=
  {| initialized := 1;
     cacheSetArray :=
       imap (fun j l => {| time := wrap32 (Z.of_nat j); valid := 0; tag := 0;
                           cacheBlock := cacheBlock l |})
            (cacheSetArray cacheBase) |}.

(** The hit test of the three lookup loops: [line->valid && line->tag == tag],
    the 32-bit field compared with the 64-bit tag of the address. *)
Definition hits (t : Z) (line : cache_line) : Prop :=
  valid line ≠ 0 ∧ tag line = t.

#[global] Instance hits_dec t line : Decision (hits t line).
Proof. unfold hits. apply _. Defined.

(** ** The backing memory and cache_get (cache.c 195-372) *)

(** What a run of [cache_get] works on: the fast memory holding the cache,
    the state of the backing memory, and the block addresses passed to
    [memget] so far (oldest first). *)
Record machine (World : Type) := mk_machine {
  F_memory : cache_base;
  backing : World;
  memget_calls : list Z
}.
Arguments mk_machine {World}.
Arguments F_memory {World}.
Arguments backing {World}.
Arguments memget_calls {World}.

Definition lines {World} (m : machine World) : list cache_line :=
  cacheSetArray (F_memory m).

(** The machine after the line array has been overwritten by [set]. *)
Definition with_lines {World} (set : list cache_line) (m : machine World)
    : machine World :=
  {| F_memory := {| initialized := initialized (F_memory m);
                    cacheSetArray := set |};
     backing := backing m;
     memget_calls := memget_calls m |}.

(** The machine after [init()] has run on its fast memory. *)
Definition boot {World} (m : machine World) : machine World :=
  {| F_memory := init (F_memory m);
     backing := backing m;
     memget_calls := memget_calls m |}.

Section CacheGet.
Context {World : Type}.

(** [memget address buffer size w]: whether the read succeeded, the
    contents of [buffer] afterwards (unspecified when it failed), and the
    next state of the backing memory. *)
Variable memget : Z → list byte → Z → World → bool * list byte * World.

(** A lookup loop that finds a line (231-245, 286-303, 306-323): the
    first line that hits is touched and [numOfElem] of its bytes, from
    index [from], are copied to [valueTemp] at [startLocation]. [None]
    when no line hits. *)
Definition probe (t : Z) (from numOfElem startLocation : nat)
    (set : list cache_line) (valueTemp : list byte)
    : option (list cache_line * list byte) :=
  '(i, line) ← list_find (hits t) set;
  Some (setLRU set i,
        cache_get_byElem valueTemp (drop from (cacheBlock line))
                         numOfElem startLocation).

(** A miss (250-266, 329-344, 350-365): evict, read the block into the
    evicted line, and copy from it when the read succeeded. [None] when
    [findEvict] is undefined. *)
Definition fetch (t blockAddress : Z) (from numOfElem startLocation : nat)
    (valueTemp : list byte) (m : machine World)
    : option (bool * list byte * machine World) :=
  '(e, set) ← findEvict (lines m) t;
  evictedLine ← set !! e;
  let '(ok, buffer, w) :=
    memget blockAddress (cacheBlock evictedLine) sizeOfBlock (backing m) in
  Some (ok,
        if ok
        then cache_get_byElem valueTemp (drop from buffer) numOfElem startLocation
        else valueTemp,
        {| F_memory :=
             {| initialized := initialized (F_memory m);
                cacheSetArray := <[e := with_cacheBlock buffer evictedLine]> set |};
           backing := w;
           memget_calls := memget_calls m ++ [blockAddress] |}).

(** [cache_get address m = Some (r, v, m')]: the call returns [r], [*value]
    is [v] when it was written ([None]: left untouched), and the machine
    is [m'] afterwards. *)
Definition cache_get (address : Z) (m : machine World)
    : option (Z * option Z * machine World) :=
  let valueTemp := replicate 8 x00 in
  let m := if initialized (F_memory m) =? 0 then boot m else m in
  let '(offset, t) := address_decomposer address in
  if offset + 8 <=? sizeOfBlock then
    match probe t (Z.to_nat offset) 8 0 (lines m) valueTemp with
    | Some (set, valueTemp) =>
        Some (1, Some (reverse_endian valueTemp), with_lines set m)
    | None =>
        '(ok, valueTemp, m) ←
          fetch t (wrap64 (address - offset)) (Z.to_nat offset) 8 0 valueTemp m;
        if ok : bool then Some (1, Some (reverse_endian valueTemp), m)
        else Some (0, None, m)
    end
  else
    let newAddress := wrap64 (address + (sizeOfBlock - offset)) in
    let '(newOffset, newTag) := address_decomposer newAddress in
    let n1 := Z.to_nat (sizeOfBlock - offset) in
    let n2 := Z.to_nat (8 - (sizeOfBlock - offset)) in
    let '(m, valueTemp, isHitLine1) :=
      match probe t (Z.to_nat offset) n1 0 (lines m) valueTemp with
      | Some (set, valueTemp) => (with_lines set m, valueTemp, 1)
      | None => (m, valueTemp, 0)
      end in
    let '(m, valueTemp, isHitLine2) :=
      match probe newTag 0 n2 n1 (lines m) valueTemp with
      | Some (set, valueTemp) => (with_lines set m, valueTemp, 1)
      | None => (m, valueTemp, 0)
      end in
    '(ok1, valueTemp, m) ←
      (if isHitLine1 =? 0
       then fetch t (wrap64 (address - offset)) (Z.to_nat offset) n1 0 valueTemp m
       else Some (true, valueTemp, m));
    if negb ok1 then Some (0, None, m)
    else
      '(ok2, valueTemp, m) ←
        (if isHitLine2 =? 0
         then fetch newTag (wrap64 (newAddress - newOffset)) 0 n2 n1 valueTemp m
         else Some (true, valueTemp, m));
      if negb ok2 then Some (0, None, m)
      else Some (0, Some (reverse_endian valueTemp), m).

End CacheGet.

(** The machines [cache_get] can meet: the fast memory has been initialised
    (its line count is an [unsigned int]) and any number of calls have
    returned since, whatever their result. *)
Inductive reachable {World}
    (memget : Z → list byte → Z → World → bool * list byte * World)
    : machine World → Prop :=
  | reachable_boot (m : machine World) :
      numOfLines (lines m) < 2 ^ 32 →
      reachable memget (boot m)
  | reachable_get (m m' : machine World) (address r : Z) (v : option Z) :
      reachable memget m →
      cache_get memget address m = Some (r, v, m') →
      reachable memget m'.

(** ** A test harness: a fake backing memory

    Block [a] of the fake memory holds the bytes [a/64 + 11*(a/2^38) + 3*i]
    (mod 256) for [i] in [0, 64); reads of the addresses listed in [failing] fail and
    scribble [xff] over the buffer. The state of the fake memory counts the
    reads served. *)

Definition byte_of_Z (z : Z) : byte :=
  default x00 (Byte.of_N (Z.to_N (z mod 256))).

Definition fake_block (blockAddress : Z) : list byte :=
  (fun i => byte_of_Z (blockAddress / 64 + 11 * (blockAddress / 2 ^ 38) + 3 * i))
    <$> seqZ 0 64.

Definition fake_memget (failing : list Z)
    (address : Z) (buffer : list byte) (size : Z) (served : nat)
    : bool * list byte * nat :=
  if bool_decide (address ∈ failing)
  then (false, replicate (length buffer) xff, served)
  else (true, fake_block address, S served).

(** An arena of [n] lines that has never been used: all bytes zero. *)
Definition blank_line : cache_line :=
  {| time := 0; valid := 0; tag := 0; cacheBlock := replicate 64 x00 |}.

Definition blank_machine (n : nat) : machine nat :=
  {| F_memory := {| initialized := 0; cacheSetArray := replicate n blank_line |};
     backing := 0%nat;
     memget_calls := [] |}.

(** Runs [cache_get] on each address in turn and keeps the last machine. *)
Fixpoint run_gets {World} (memget : Z → list byte → Z → World → bool * list byte * World)
    (addresses : list Z) (m : machine World) : option (machine World) :=
  match addresses with
  | [] => Some m
  | a :: rest =>
      '(_, _, m') ← cache_get memget a m;
      run_gets memget rest m'
  end.

(** What a test looks at: the result, the value, and per line the time, valid
    flag and tag. *)
Definition observe {World} (r : option (Z * option Z * machine World))
    : option (Z * option Z * list (Z * Z * Z) * list Z) :=
  '(ret, v, m) ← r;
  Some (ret, v, (fun l => (time l, valid l, tag l)) <$> lines m, memget_calls m).

(** ** Notions used by the statements *)

(** [n] bytes of [block] from index [from], read the way [cache_get_byElem]
    reads them. *)
Definition bytes_from (block : list byte) (from n : nat) : list byte :=
  (fun i => default x00 (block !! (from + i)%nat)) <$> seq 0 n.

(** The first [n] bytes of [block], read the same way. *)
Definition bytes_of (block : list byte) (n : nat) : list byte :=
  (fun i => default x00 (block !! i)) <$> seq 0 n.

(** What the loop does to one line when the touched line's time is [t]. *)
Definition aged (t : Z) (l : cache_line) : cache_line :=
  if time l <? t then with_time (wrap32 (time l + 1)) l else l.

(** [r] is the last index below [k] whose line has time [target]. *)
Definition last_with_time (set : list cache_line) (target : Z) (k : nat)
    (r : option nat) : Prop :=
  match r with
  | Some e =>
      (e < k)%nat
      ∧ (∃ l, set !! e = Some l ∧ time l = target)
      ∧ ∀ j l, (e < j < k)%nat → set !! j = Some l → time l ≠ target
  | None => ∀ j l, (j < k)%nat → set !! j = Some l → time l ≠ target
  end.

(** The times of the lines are a permutation of [0 .. numOfLines-1]. *)
Definition lru_permutation (set : list cache_line) : Prop :=
  Permutation (time <$> set) (Z.of_nat <$> seq 0 (length set)).

(** The same, as the proofs use it: no two lines share a time and every time
    is below [numOfLines]. *)
Definition times_ok (set : list cache_line) : Prop :=
  NoDup (time <$> set)
  ∧ ∀ i l, set !! i = Some l → 0 ≤ time l < numOfLines set.

(** The time of line [i] after line [e], whose time was [te], has been
    touched or evicted. *)
Definition touched_time (e : nat) (te : Z) (i : nat) (ti : Z) : Z :=
  if decide (i = e) then 0
  else if ti <? te then wrap32 (ti + 1) else ti.

(** Stored tags are 32-bit values. *)
Definition tags_ok (set : list cache_line) : Prop :=
  ∀ i l, set !! i = Some l → 0 ≤ tag l < 2 ^ 32.

(** Everything in a line but its time. *)
Definition content (l : cache_line) : Z * Z * list byte :=
  (valid l, tag l, cacheBlock l).

(** [m'] has as many lines as [m], the same flag, and the invariants of
    [m]. *)
Definition keeps_shape {World} (m m' : machine World) : Prop :=
  length (lines m') = length (lines m)
  ∧ initialized (F_memory m') = initialized (F_memory m)
  ∧ (numOfLines (lines m) ≤ 2 ^ 32 → times_ok (lines m) → times_ok (lines m'))
  ∧ (tags_ok (lines m) → tags_ok (lines m')).

(** A machine [cache_get] can work on: initialised, with at least one line,
    the times a permutation of [0 .. numOfLines-1], and 32-bit tags. *)
Definition cache_ok {World} (m : machine World) : Prop :=
  initialized (F_memory m) ≠ 0
  ∧ 0 < numOfLines (lines m) < 2 ^ 32
  ∧ lru_permutation (lines m)
  ∧ tags_ok (lines m).

(** The line array after a miss on tag [t] evicted line [e], which held
    [le], and [memget] left [buffer] in its block. *)
Definition refilled (set1 : list cache_line) (e : nat) (t : Z)
    (le : cache_line) (buffer : list byte) : list cache_line :=
  <[e := with_cacheBlock buffer (install t le)]> set1.

(** The line a non-crossing request for tag [t] works on: the first line
    that hits, or else the victim of [findEvict]. *)
Definition resolved_line (t : Z) (set : list cache_line) : option nat :=
  match list_find (hits t) set with
  | Some (i, _) => Some i
  | None => find_evicted set
  end.

(** Line [l] holds the block of tag [t]: it is valid and its 32-bit tag is
    that of [t]. *)
Definition holds (t : Z) (l : cache_line) : Prop :=
  valid l ≠ 0 ∧ tag l = wrap32 t.

(** The block of tag [t], at [blockAddress], can be obtained as [block]:
    the first line that hits holds it, or no line hits and [memget] delivers
    it. *)
Definition obtainable {World}
    (memget : Z → list byte → Z → World → bool * list byte * World)
    (t blockAddress : Z) (block : list byte) (set : list cache_line) : Prop :=
  match list_find (hits t) set with
  | Some (_, line) => cacheBlock line = block
  | None => ∀ old w, (memget blockAddress old sizeOfBlock w).1 = (true, block)
  end.

(** The first half of a crossing request for tag [t], on its own: the line
    it resolves to and the line array afterwards. On a hit the line is
    touched; on a miss the victim is evicted and its block filled with
    [block], which [memget] delivered. *)
Definition first_half_lines (t : Z) (block : list byte) (set : list cache_line)
    : option (nat * list cache_line) :=
  match list_find (hits t) set with
  | Some (i, _) => Some (i, setLRU set i)
  | None =>
      '(e, set1) ← findEvict set t;
      le ← set !! e;
      Some (e, refilled set1 e t le block)
  end.

(** ** Notions used by the further properties *)

(** The number a list of bytes stands for, least significant byte first. *)
Definition little_endian (bs : list byte) : Z :=
  foldr (λ b acc, byte_to_Z b + 256 * acc) 0 bs.

(** One hit: the first line holding [t] is touched. *)
Definition touches {World} (t : Z) (m m' : machine World) : Prop :=
  ∃ i line,
    list_find (hits t) (lines m) = Some (i, line)
    ∧ m' = with_lines (setLRU (lines m) i) m.

(** One miss: the victim is re-tagged with [t] and [memget] is called for
    [blockAddress]; [ok] is its result. *)
Definition fills {World}
    (memget : Z → list byte → Z → World → bool * list byte * World)
    (t blockAddress : Z) (ok : bool) (m m' : machine World) : Prop :=
  ∃ e set1 le buffer w,
    findEvict (lines m) t = Some (e, set1)
    ∧ lines m !! e = Some le
    ∧ memget blockAddress (cacheBlock le) sizeOfBlock (backing m) = (ok, buffer, w)
    ∧ m' = {| F_memory :=
                {| initialized := initialized (F_memory m);
                   cacheSetArray := refilled set1 e t le buffer |};
              backing := w;
              memget_calls := memget_calls m ++ [blockAddress] |}.

(** What a non-crossing call does: a hit and 1, or a miss, one fill and its
    result. *)
Definition plain_trace {World}
    (memget : Z → list byte → Z → World → bool * list byte * World)
    (t blockAddress : Z) (m : machine World) (r : Z) (v : option Z)
    (m' : machine World) : Prop :=
  (touches t m m' ∧ r = 1 ∧ v ≠ None)
  ∨ (list_find (hits t) (lines m) = None
     ∧ ∃ ok, fills memget t blockAddress ok m m'
             ∧ r = (if ok then 1 else 0) ∧ (v = None ↔ ok = false)).

(** What a crossing call does, in the order of the source: both lookups
    (flags [h1], [h2]), then the fill of the first half if it missed, then,
    unless that read failed, the fill of the second half if it missed. *)
Definition crossing_trace {World}
    (memget : Z → list byte → Z → World → bool * list byte * World)
    (t newTag blockAddress1 blockAddress2 : Z) (m : machine World)
    (v : option Z) (m' : machine World) : Prop :=
  ∃ (h1 h2 ok1 ok2 : bool) (ma mb mc : machine World),
    (if h1 then touches t m ma
     else list_find (hits t) (lines m) = None ∧ ma = m)
    ∧ (if h2 then touches newTag ma mb
       else list_find (hits newTag) (lines ma) = None ∧ mb = ma)
    ∧ (if h1 then ok1 = true ∧ mc = mb
       else fills memget t blockAddress1 ok1 mb mc)
    ∧ (if ok1
       then (if h2 then ok2 = true ∧ m' = mc
             else fills memget newTag blockAddress2 ok2 mc m')
            ∧ (v = None ↔ ok2 = false)
       else m' = mc ∧ v = None).

(** The number of blocks a request works on: one, or two when its eight
    bytes cross a block boundary. *)
Definition block_accesses (address : Z) : Z :=
  if (address_decomposer address).1 + 8 <=? sizeOfBlock then 1 else 2.

(** No two valid lines carry the same tag. *)
Definition tags_distinct (set : list cache_line) : Prop :=
  ∀ i j li lj, set !! i = Some li → set !! j = Some lj →
    valid li ≠ 0 → valid lj ≠ 0 → tag li = tag lj → i = j.

(** Every valid line holds the block that the memory [mem] has at the
    address of its tag. *)
Definition coherent (mem : Z → list byte) (set : list cache_line) : Prop :=
  ∀ i l, set !! i = Some l → valid l ≠ 0 →
    cacheBlock l = mem (sizeOfBlock * tag l).

(** [memget] always succeeds and delivers the block that [mem] has at the
    address. *)
Definition reliable {World}
    (memget : Z → list byte → Z → World → bool * list byte * World)
    (mem : Z → list byte) : Prop :=
  ∀ blockAddress old w,
    (memget blockAddress old sizeOfBlock w).1 = (true, mem blockAddress).

(** * Properties *)

(** ** The model on small inputs *)

Example reverse_endian_example :
  reverse_endian [x01; x02; x03; x04; x05; x06; x07; x08] = 0x0807060504030201.
Proof. reflexivity. Qed.

Example address_decomposer_example : address_decomposer 508 = (60, 7).
Proof. reflexivity. Qed.

(** A cold cache of two lines: a first request misses and fills the line
    whose time is 1, the same request then hits. *)
Example miss_then_hit_example :
  observe (cache_get (fake_memget []) 8 (blank_machine 2))
  = Some (1, Some 0x2D2A2724211E1B18, [(1, 0, 0); (0, 1, 0)], [0])
  ∧ observe (m ← run_gets (fake_memget []) [8] (blank_machine 2);
             cache_get (fake_memget []) 8 m)
    = Some (1, Some 0x2D2A2724211E1B18, [(1, 0, 0); (0, 1, 0)], [0]).
Proof. split; vm_compute; reflexivity. Qed.

(** Address 60 needs the bytes 60..63 of block 0 and 0..3 of block 64: both
    lines are filled, the word is assembled, and the call returns 0. *)
Example crossing_example :
  bytes_from (fake_block 0) 60 4 ++ bytes_from (fake_block 64) 0 4
  = [xb4; xb7; xba; xbd; x01; x04; x07; x0a]
  ∧ observe (cache_get (fake_memget []) 60 (blank_machine 2))
    = Some (0, Some 0x0A070401BDBAB7B4, [(0, 1, 1); (1, 1, 0)], [0; 64]).
Proof. split; vm_compute; reflexivity. Qed.

(** Tags 0, 1, 2 in turn on two lines: the third request evicts the line of
    tag 0. *)
Example eviction_example :
  observe (m ← run_gets (fake_memget []) [0; 64] (blank_machine 2);
           cache_get (fake_memget []) 128 m)
  = Some (1, Some 0x1714110E0B080502, [(1, 1, 1); (0, 1, 2)], [0; 64; 128]).
Proof. vm_compute. reflexivity. Qed.

(** ** Address decomposition *)

Lemma address_decomposer_eq (address : Z) :
  address_decomposer address = (address mod 64, address / 64).
Proof.
  unfold address_decomposer.
  replace (Z.log2 sizeOfBlock) with 6 by reflexivity.
  replace (wrap64 (Z.lnot (wrap64 (Z.shiftl 0xffffffffffffffff 6))))
    with (Z.ones 6) by reflexivity.
  rewrite Z.land_ones by lia.
  rewrite Z.shiftr_div_pow2 by lia.
  reflexivity.
Qed.

(** C8: [address_decomposer] is a total function; with the 64-byte block it
    returns [offset = address & 63 = address mod 64] and
    [tag = address >> 6 = address / 64], hence [tag * 64 + offset = address]
    and [0 <= offset < 64]. *)
Theorem address_decomposer_correct (address : Z) :
  ∃ offset t,
    address_decomposer address = (offset, t)
    ∧ offset = Z.land address 63 ∧ offset = address mod 64
    ∧ t = Z.shiftr address 6 ∧ t = address / 64
    ∧ t * 64 + offset = address
    ∧ 0 ≤ offset < 64.
Proof.
  exists (address mod 64), (address / 64).
  split; [apply address_decomposer_eq|].
  split; [change 63 with (Z.ones 6); rewrite Z.land_ones by lia; reflexivity|].
  split; [reflexivity|].
  split; [rewrite Z.shiftr_div_pow2 by lia; reflexivity|].
  split; [reflexivity|].
  pose proof (Z.div_mod address 64 ltac:(lia)).
  pose proof (Z.mod_pos_bound address 64 ltac:(lia)).
  lia.
Qed.

(** ** The ageing loop *)

Lemma aged_self l : aged (time l) l = l.
Proof. unfold aged. rewrite Z.ltb_irrefl. reflexivity. Qed.

Lemma age_steps_length (line : nat) (idxs : list nat) (set : list cache_line) :
  length (foldl (age_step line) set idxs) = length set.
Proof.
  revert set. induction idxs as [|j idxs IH]; intros set; [reflexivity|].
  simpl. rewrite IH. unfold age_step.
  destruct (set !! j); [|reflexivity].
  destruct (set !! line); [|reflexivity].
  destruct (_ <? _); [apply length_insert | reflexivity].
Qed.

Lemma age_loop_prefix (line : nat) (set : list cache_line) (le : cache_line) (k : nat) :
  set !! line = Some le →
  (k ≤ length set)%nat →
  ∀ i, foldl (age_step line) set (seq 0 k) !! i
       = if decide (i < k)%nat then aged (time le) <$> set !! i else set !! i.
Proof.
  intros Hle. induction k as [|k IH]; intros Hk i.
  - simpl. destruct (decide (i < 0)%nat); [lia | reflexivity].
  - rewrite seq_S, foldl_snoc. simpl.
    set (s := foldl (age_step line) set (seq 0 k)) in *.
    assert (IH' := IH ltac:(lia)). clear IH.
    assert (Hsk : s !! k = set !! k).
    { rewrite IH'. destruct (decide (k < k)%nat); [lia | reflexivity]. }
    assert (Hsl : s !! line = Some le).
    { rewrite IH', Hle. destruct (decide (line < k)%nat); [|reflexivity].
      simpl. rewrite aged_self. reflexivity. }
    assert (Hlen : length s = length set) by apply age_steps_length.
    destruct (lookup_lt_is_Some_2 set k ltac:(lia)) as [lk Hlk].
    unfold age_step. rewrite Hsk, Hlk, Hsl.
    destruct (decide (i = k)) as [->|Hik].
    + destruct (decide (k < S k)%nat); [|lia].
      rewrite Hlk. simpl. unfold aged.
      destruct (time lk <? time le).
      * rewrite list_lookup_insert_eq by lia. reflexivity.
      * rewrite Hsk. exact Hlk.
    + assert (Hi : (if time lk <? time le
                    then <[k:=with_time (wrap32 (time lk + 1)) lk]> s else s) !! i
                   = s !! i).
      { destruct (_ <? _); [|reflexivity].
        apply list_lookup_insert_ne. congruence. }
      rewrite Hi, IH'.
      destruct (decide (i < k)%nat), (decide (i < S k)%nat); try lia; reflexivity.
Qed.

Lemma age_loop_skip line set : set !! line = None → age_loop line set = set.
Proof.
  intros Hnone. unfold age_loop. generalize (seq 0 (length set)).
  intros idxs. induction idxs as [|j idxs IH]; [reflexivity|].
  simpl. unfold age_step at 2. rewrite Hnone.
  destruct (set !! j); exact IH.
Qed.

Lemma age_loop_fmap (line : nat) (set : list cache_line) (le : cache_line) :
  set !! line = Some le →
  age_loop line set = aged (time le) <$> set.
Proof.
  intros Hle. apply list_eq. intros i. unfold age_loop.
  rewrite (age_loop_prefix line set le (length set) Hle) by lia.
  rewrite list_lookup_fmap.
  destruct (decide (i < length set)%nat) as [|Hge]; [reflexivity|].
  rewrite lookup_ge_None_2 by lia. reflexivity.
Qed.

Lemma setLRU_lookup set line le i :
  set !! line = Some le →
  setLRU set line !! i
  = (if decide (i = line) then with_time 0 else aged (time le)) <$> set !! i.
Proof.
  intros Hle. unfold setLRU. rewrite (age_loop_fmap _ _ _ Hle).
  destruct (decide (i = line)) as [->|Hne].
  - rewrite list_lookup_alter_eq, list_lookup_fmap, Hle. simpl.
    rewrite aged_self. reflexivity.
  - rewrite list_lookup_alter_ne by congruence.
    apply list_lookup_fmap.
Qed.

Lemma setLRU_length set line : length (setLRU set line) = length set.
Proof.
  unfold setLRU, age_loop. rewrite length_alter. apply age_steps_length.
Qed.

(** ** The victim search of findEvict *)

Lemma find_evicted_prefix (set : list cache_line) (target : Z) (k : nat) :
  (k ≤ length set)%nat →
  last_with_time set target k
    (foldl (fun evictedLine i =>
              match set !! i with
              | Some l => if time l =? target then Some i else evictedLine
              | None => evictedLine
              end) None (seq 0 k)).
Proof.
  induction k as [|k IH]; intros Hk.
  - simpl. intros j l Hj. lia.
  - rewrite seq_S, foldl_snoc. simpl.
    specialize (IH ltac:(lia)).
    destruct (lookup_lt_is_Some_2 set k ltac:(lia)) as [lk Hlk].
    rewrite Hlk. destruct (Z.eqb_spec (time lk) target) as [Heq|Hne].
    + simpl. split; [lia|]. split; [eauto|]. intros j l Hj. lia.
    + destruct (foldl _ _ _) as [e|]; simpl in *.
      * destruct IH as (He & Hl & Hlast). split; [lia|]. split; [exact Hl|].
        intros j l Hj Hjl. destruct (decide (j = k)) as [->|].
        -- congruence.
        -- apply (Hlast j l); [lia | exact Hjl].
      * intros j l Hj Hjl. destruct (decide (j = k)) as [->|].
        -- congruence.
        -- apply (IH j l); [lia | exact Hjl].
Qed.

Lemma find_evicted_Some (set : list cache_line) (e : nat) :
  find_evicted set = Some e →
  (∃ l, set !! e = Some l ∧ time l = wrap32 (numOfLines set - 1))
  ∧ ∀ j l, (e < j)%nat → set !! j = Some l →
           time l ≠ wrap32 (numOfLines set - 1).
Proof.
  intros He.
  pose proof (find_evicted_prefix set (wrap32 (numOfLines set - 1))
                (length set) ltac:(lia)) as H.
  unfold find_evicted in He. rewrite He in H. simpl in H.
  destruct H as (Hlt & Hl & Hlast). split; [exact Hl|].
  intros j l Hj Hjl. apply (Hlast j l); [|exact Hjl].
  split; [lia|]. apply lookup_lt_Some in Hjl. lia.
Qed.

Lemma find_evicted_None (set : list cache_line) :
  find_evicted set = None →
  ∀ j l, set !! j = Some l → time l ≠ wrap32 (numOfLines set - 1).
Proof.
  intros He.
  pose proof (find_evicted_prefix set (wrap32 (numOfLines set - 1))
                (length set) ltac:(lia)) as H.
  unfold find_evicted in He. rewrite He in H. simpl in H.
  intros j l Hjl. apply (H j l); [|exact Hjl].
  apply lookup_lt_Some in Hjl. lia.
Qed.

Lemma findEvict_Some set newTag e set' :
  findEvict set newTag = Some (e, set') →
  find_evicted set = Some e
  ∧ ∃ le, set !! e = Some le
    ∧ time le = wrap32 (numOfLines set - 1)
    ∧ length set' = length set
    ∧ ∀ i, set' !! i
           = (if decide (i = e) then install newTag else aged (time le))
               <$> set !! i.
Proof.
  unfold findEvict. destruct (find_evicted set) as [e0|] eqn:He; [|discriminate].
  intros [= <- <-]. split; [reflexivity|].
  destruct (find_evicted_Some _ _ He) as [(le & Hle & Ht) _].
  exists le. split; [exact Hle|]. split; [exact Ht|].
  split.
  { rewrite length_alter. apply age_steps_length. }
  intros i. rewrite (age_loop_fmap _ _ _ Hle).
  destruct (decide (i = e0)) as [->|Hne].
  - rewrite list_lookup_alter_eq, list_lookup_fmap, Hle. simpl.
    rewrite aged_self. reflexivity.
  - rewrite list_lookup_alter_ne by congruence. apply list_lookup_fmap.
Qed.

(** ** The recency invariant *)

Lemma times_ok_permutation (set : list cache_line) :
  times_ok set ↔ lru_permutation set.
Proof.
  unfold times_ok, lru_permutation, numOfLines. split.
  - intros [Hnd Hb].
    apply submseteq_length_Permutation.
    + apply NoDup_submseteq; [exact Hnd|].
      intros x Hx. apply list_elem_of_fmap in Hx as (l & -> & Hl).
      apply list_elem_of_lookup in Hl as [i Hi].
      specialize (Hb i l Hi).
      apply list_elem_of_fmap. exists (Z.to_nat (time l)).
      split; [lia|]. apply elem_of_seq. lia.
    + rewrite !length_fmap, length_seq. lia.
  - intros Hp. split.
    + rewrite Hp. apply NoDup_fmap; [apply _|]. apply NoDup_seq.
    + intros i l Hi.
      assert (Hin : time l ∈ time <$> set).
      { apply list_elem_of_fmap. exists l. split; [reflexivity|].
        apply list_elem_of_lookup. eauto. }
      rewrite Hp in Hin.
      apply list_elem_of_fmap in Hin as (k & -> & Hk).
      apply elem_of_seq in Hk. lia.
Qed.

Lemma times_ok_inj set i j li lj :
  times_ok set → set !! i = Some li → set !! j = Some lj →
  time li = time lj → i = j.
Proof.
  intros [Hnd _] Hi Hj Heq.
  apply (proj1 (NoDup_alt _) Hnd i j (time li)).
  - rewrite list_lookup_fmap, Hi. reflexivity.
  - rewrite list_lookup_fmap, Hj, Heq. reflexivity.
Qed.

Lemma touch_times_ok (set set' : list cache_line) (e : nat) (le : cache_line) :
  times_ok set →
  numOfLines set ≤ 2 ^ 32 →
  set !! e = Some le →
  length set' = length set →
  (∀ i l, set !! i = Some l →
          ∃ l', set' !! i = Some l'
                ∧ time l' = touched_time e (time le) i (time l)) →
  times_ok set'.
Proof.
  intros Hok Hn He Hlen Hstep.
  assert (Hb := proj2 Hok). unfold numOfLines in *.
  assert (Hte := Hb _ _ He).
  assert (Hnew : ∀ i l', set' !! i = Some l' →
            ∃ l, set !! i = Some l
                 ∧ time l' = touched_time e (time le) i (time l)).
  { intros i l' Hi.
    destruct (lookup_lt_is_Some_2 set i) as [l Hl].
    { apply lookup_lt_Some in Hi. lia. }
    destruct (Hstep i l Hl) as (l'' & Hl'' & Ht).
    exists l. split; [exact Hl|]. congruence. }
  split.
  - apply NoDup_alt. intros i j x Hi Hj.
    rewrite list_lookup_fmap in Hi, Hj.
    destruct (set' !! i) as [li'|] eqn:Hi'; [|discriminate].
    destruct (set' !! j) as [lj'|] eqn:Hj'; [|discriminate].
    simpl in Hi, Hj. injection Hi as Hi. injection Hj as Hj.
    destruct (Hnew _ _ Hi') as (li & Hli & Hti).
    destruct (Hnew _ _ Hj') as (lj & Hlj & Htj).
    assert (Hbi := Hb _ _ Hli). assert (Hbj := Hb _ _ Hlj).
    pose proof (times_ok_inj set i j li lj Hok Hli Hlj) as Hij.
    pose proof (times_ok_inj set i e li le Hok Hli He) as Hie.
    pose proof (times_ok_inj set j e lj le Hok Hlj He) as Hje.
    rewrite Hti in Hi. rewrite Htj in Hj. subst x.
    unfold touched_time, wrap32 in Hj.
    destruct (decide (i = e)), (decide (j = e)); [congruence| | |];
      repeat match goal with
             | H : context [?a <? ?b] |- _ => destruct (Z.ltb_spec a b)
             end;
      try (rewrite Z.mod_small in Hj by lia);
      try (rewrite Z.mod_small in Hj by lia);
      lia.
  - intros i l' Hi.
    destruct (Hnew _ _ Hi) as (l & Hl & Ht).
    assert (Hbi := Hb _ _ Hl).
    unfold numOfLines. rewrite Ht, Hlen. unfold touched_time, wrap32.
    destruct (decide (i = e)); [lia|].
    destruct (Z.ltb_spec (time l) (time le)); [|lia].
    rewrite Z.mod_small by lia. lia.
Qed.

Lemma time_aged t l :
  time (aged t l) = if time l <? t then wrap32 (time l + 1) else time l.
Proof. unfold aged. destruct (_ <? _); reflexivity. Qed.

Lemma setLRU_times_ok set line le :
  times_ok set → numOfLines set ≤ 2 ^ 32 → set !! line = Some le →
  times_ok (setLRU set line).
Proof.
  intros Hok Hn Hle.
  apply (touch_times_ok set _ line le Hok Hn Hle (setLRU_length _ _)).
  intros i l Hl. rewrite (setLRU_lookup _ _ _ _ Hle), Hl. simpl.
  eexists. split; [reflexivity|]. unfold touched_time.
  destruct (decide (i = line)); [reflexivity | apply time_aged].
Qed.

Lemma findEvict_times_ok set newTag e set' :
  times_ok set → numOfLines set ≤ 2 ^ 32 →
  findEvict set newTag = Some (e, set') →
  times_ok set'.
Proof.
  intros Hok Hn Hev.
  destruct (findEvict_Some _ _ _ _ Hev) as (_ & le & Hle & _ & Hlen & Hlk).
  apply (touch_times_ok set _ e le Hok Hn Hle Hlen).
  intros i l Hl. rewrite Hlk, Hl. simpl.
  eexists. split; [reflexivity|]. unfold touched_time.
  destruct (decide (i = e)); [reflexivity | apply time_aged].
Qed.

Lemma fill_times_ok set e l buffer :
  times_ok set → set !! e = Some l →
  times_ok (<[e := with_cacheBlock buffer l]> set).
Proof.
  intros Hok Hl. unfold times_ok, numOfLines in *.
  replace (time <$> <[e:=with_cacheBlock buffer l]> set) with (time <$> set).
  - rewrite length_insert. split; [apply Hok|].
    intros i l' Hi. destruct (decide (i = e)) as [->|Hne].
    + rewrite list_lookup_insert_eq in Hi by (eapply lookup_lt_Some; eauto).
      injection Hi as <-. simpl. apply (proj2 Hok e l Hl).
    + rewrite list_lookup_insert_ne in Hi by congruence.
      apply (proj2 Hok i l' Hi).
  - rewrite list_fmap_insert. simpl. symmetry. apply list_insert_id.
    rewrite list_lookup_fmap, Hl. reflexivity.
Qed.

Lemma init_times_ok cacheBase :
  numOfLines (cacheSetArray cacheBase) ≤ 2 ^ 32 →
  times_ok (cacheSetArray (init cacheBase)).
Proof.
  intros Hn. simpl. set (arena := cacheSetArray cacheBase) in *.
  unfold numOfLines in *.
  assert (Ht : ∀ i l, imap (fun j l => {| time := wrap32 (Z.of_nat j); valid := 0;
                                          tag := 0; cacheBlock := cacheBlock l |})
                           arena !! i = Some l →
                      time l = Z.of_nat i ∧ (i < length arena)%nat).
  { intros i l Hi. rewrite list_lookup_imap in Hi.
    destruct (arena !! i) as [l0|] eqn:Hl0; [|discriminate].
    apply lookup_lt_Some in Hl0. injection Hi as <-. simpl.
    split; [|lia]. unfold wrap32. apply Z.mod_small. lia. }
  split.
  - apply NoDup_alt. intros i j x Hi Hj.
    rewrite list_lookup_fmap in Hi, Hj.
    destruct (imap _ arena !! i) as [li|] eqn:Hli; [|discriminate].
    destruct (imap _ arena !! j) as [lj|] eqn:Hlj; [|discriminate].
    apply Ht in Hli, Hlj. simpl in Hi, Hj. injection Hi as Hi. injection Hj as Hj.
    lia.
  - intros i l Hi. unfold numOfLines. rewrite length_imap. apply Ht in Hi. lia.
Qed.

Lemma find_evicted_total set :
  times_ok set → 0 < numOfLines set ≤ 2 ^ 32 →
  ∃ e, find_evicted set = Some e.
Proof.
  intros Hok Hn. destruct (find_evicted set) as [e|] eqn:He; [eauto|].
  exfalso. pose proof (find_evicted_None _ He) as Hnone.
  apply times_ok_permutation in Hok. unfold lru_permutation, numOfLines in *.
  assert (Hin : Z.of_nat (length set - 1) ∈ time <$> set).
  { rewrite Hok. apply list_elem_of_fmap. eexists. split; [reflexivity|].
    apply elem_of_seq. lia. }
  apply list_elem_of_fmap in Hin as (l & Hl & Hin).
  apply list_elem_of_lookup in Hin as [i Hi].
  apply (Hnone i l Hi). unfold wrap32. rewrite Z.mod_small by lia. lia.
Qed.

Lemma findEvict_total set newTag :
  times_ok set → 0 < numOfLines set ≤ 2 ^ 32 →
  ∃ e set', findEvict set newTag = Some (e, set').
Proof.
  intros Hok Hn. destruct (find_evicted_total set Hok Hn) as [e He].
  unfold findEvict. rewrite He. eauto.
Qed.

(** ** Stored tags are 32-bit values *)

Lemma wrap32_range z : 0 ≤ wrap32 z < 2 ^ 32.
Proof. unfold wrap32. apply Z.mod_pos_bound. lia. Qed.

Lemma tag_aged t l : tag (aged t l) = tag l.
Proof. unfold aged. destruct (_ <? _); reflexivity. Qed.

Lemma setLRU_tags_ok set line : tags_ok set → tags_ok (setLRU set line).
Proof.
  intros Hok i l' Hi.
  destruct (set !! line) as [le|] eqn:Hle.
  - rewrite (setLRU_lookup _ _ _ _ Hle) in Hi.
    destruct (set !! i) as [l|] eqn:Hl; [|discriminate].
    simpl in Hi. injection Hi as <-.
    destruct (decide (i = line)); [|rewrite tag_aged]; apply (Hok i l Hl).
  - unfold setLRU in Hi. revert Hi.
    destruct (decide (i = line)) as [->|Hne].
    + rewrite list_lookup_alter_eq. unfold age_loop.
      intros Hi. apply fmap_Some in Hi as (x & Hx & _).
      apply lookup_lt_Some in Hx. rewrite age_steps_length in Hx.
      apply lookup_ge_None in Hle. lia.
    + rewrite list_lookup_alter_ne by congruence.
      rewrite (age_loop_skip _ _ Hle). apply Hok.
Qed.

Lemma findEvict_tags_ok set newTag e set' :
  tags_ok set → findEvict set newTag = Some (e, set') → tags_ok set'.
Proof.
  intros Hok Hev i l' Hi.
  destruct (findEvict_Some _ _ _ _ Hev) as (_ & le & Hle & _ & _ & Hlk).
  rewrite Hlk in Hi.
  destruct (set !! i) as [l|] eqn:Hl; [|discriminate].
  simpl in Hi. injection Hi as <-.
  destruct (decide (i = e)).
  - simpl. apply wrap32_range.
  - rewrite tag_aged. apply (Hok i l Hl).
Qed.

Lemma fill_tags_ok set e l buffer :
  tags_ok set → set !! e = Some l →
  tags_ok (<[e := with_cacheBlock buffer l]> set).
Proof.
  intros Hok Hl i l' Hi. destruct (decide (i = e)) as [->|Hne].
  - rewrite list_lookup_insert_eq in Hi by (eapply lookup_lt_Some; eauto).
    injection Hi as <-. simpl. apply (Hok e l Hl).
  - rewrite list_lookup_insert_ne in Hi by congruence. apply (Hok i l' Hi).
Qed.

Lemma init_tags_ok cacheBase : tags_ok (cacheSetArray (init cacheBase)).
Proof.
  intros i l Hi. simpl in Hi. rewrite list_lookup_imap in Hi.
  destruct (cacheSetArray cacheBase !! i); [|discriminate].
  injection Hi as <-. simpl. lia.
Qed.

(** ** Steps of cache_get *)

Section Steps.
Context {World : Type}.
Variable memget : Z → list byte → Z → World → bool * list byte * World.

Lemma cache_get_boot address (m : machine World) :
  initialized (F_memory m) = 0 →
  cache_get memget address m = cache_get memget address (boot m).
Proof. intros H. unfold cache_get. rewrite H. reflexivity. Qed.

Lemma probe_Some t from n start set vt set' vt' :
  probe t from n start set vt = Some (set', vt') →
  ∃ i line,
    list_find (hits t) set = Some (i, line)
    ∧ set !! i = Some line
    ∧ set' = setLRU set i
    ∧ vt' = cache_get_byElem vt (drop from (cacheBlock line)) n start.
Proof.
  unfold probe. destruct (list_find (hits t) set) as [[i line]|] eqn:Hf;
    [|discriminate].
  simpl. intros [= <- <-]. exists i, line.
  apply list_find_Some in Hf as Hf'. destruct Hf' as (Hl & _).
  auto.
Qed.

Lemma probe_None t from n start set vt :
  probe t from n start set vt = None ↔ list_find (hits t) set = None.
Proof.
  unfold probe. destruct (list_find (hits t) set) as [[i line]|]; simpl;
    split; congruence.
Qed.

Lemma fetch_Some t blockAddress from n start vt (m : machine World) ok vt' m' :
  fetch memget t blockAddress from n start vt m = Some (ok, vt', m') →
  ∃ e set1 l1 buffer w,
    findEvict (lines m) t = Some (e, set1)
    ∧ set1 !! e = Some l1
    ∧ memget blockAddress (cacheBlock l1) sizeOfBlock (backing m)
      = (ok, buffer, w)
    ∧ vt' = (if ok then cache_get_byElem vt (drop from buffer) n start else vt)
    ∧ m' = {| F_memory :=
                {| initialized := initialized (F_memory m);
                   cacheSetArray := <[e := with_cacheBlock buffer l1]> set1 |};
              backing := w;
              memget_calls := memget_calls m ++ [blockAddress] |}.
Proof.
  unfold fetch. destruct (findEvict (lines m) t) as [[e set1]|] eqn:Hev;
    [|discriminate].
  simpl. destruct (set1 !! e) as [l1|] eqn:Hl1; [|discriminate].
  simpl. destruct (memget _ _ _ _) as [[ok0 buffer] w] eqn:Hmem.
  intros [= <- <- <-]. exists e, set1, l1, buffer, w. auto.
Qed.

Lemma fetch_total t blockAddress from n start vt (m : machine World) :
  times_ok (lines m) → 0 < numOfLines (lines m) ≤ 2 ^ 32 →
  ∃ ok vt' m', fetch memget t blockAddress from n start vt m = Some (ok, vt', m').
Proof.
  intros Hok Hn.
  destruct (findEvict_total (lines m) t Hok Hn) as (e & set1 & Hev).
  destruct (findEvict_Some _ _ _ _ Hev) as (_ & le & Hle & _ & _ & Hlk).
  unfold fetch. rewrite Hev. simpl.
  rewrite Hlk, Hle. simpl. destruct (decide (e = e)); [|congruence].
  destruct (memget _ _ _ _) as [[ok buffer] w]. eauto.
Qed.

Lemma keeps_shape_refl (m : machine World) : keeps_shape m m.
Proof. unfold keeps_shape. auto. Qed.

Lemma keeps_shape_trans (m1 m2 m3 : machine World) :
  keeps_shape m1 m2 → keeps_shape m2 m3 → keeps_shape m1 m3.
Proof.
  unfold keeps_shape, numOfLines. intros (L1 & I1 & T1 & G1) (L2 & I2 & T2 & G2).
  split; [congruence|]. split; [congruence|]. split; [|auto].
  intros Hn Hok. apply T2; [lia | apply T1; assumption].
Qed.

Lemma probe_keeps_shape t from n start (m : machine World) vt set' vt' :
  probe t from n start (lines m) vt = Some (set', vt') →
  keeps_shape m (with_lines set' m).
Proof.
  intros Hp. apply probe_Some in Hp as (i & line & _ & Hl & -> & _).
  unfold keeps_shape. simpl. split; [apply setLRU_length|].
  split; [reflexivity|]. unfold lines at 1 3. simpl. split.
  - intros Hn Hok. eapply setLRU_times_ok; eauto.
  - apply setLRU_tags_ok.
Qed.

Lemma fetch_keeps_shape t blockAddress from n start vt (m : machine World) ok vt' m' :
  fetch memget t blockAddress from n start vt m = Some (ok, vt', m') →
  keeps_shape m m'.
Proof.
  intros Hf.
  apply fetch_Some in Hf as (e & set1 & l1 & buffer & w & Hev & Hl1 & _ & _ & ->).
  destruct (findEvict_Some _ _ _ _ Hev) as (_ & le & Hle & _ & Hlen & _).
  unfold keeps_shape, lines at 1 3. simpl.
  split; [rewrite length_insert; exact Hlen|].
  split; [reflexivity|]. split.
  - intros Hn Hok. apply fill_times_ok; [|exact Hl1].
    eapply findEvict_times_ok; eauto.
  - intros Hok. apply fill_tags_ok; [|exact Hl1].
    eapply findEvict_tags_ok; eauto.
Qed.
End Steps.

Section Invariant.
Context {World : Type}.
Variable memget : Z → list byte → Z → World → bool * list byte * World.

Lemma cache_get_initialized (m : machine World) :
  initialized (F_memory m) ≠ 0 →
  (if initialized (F_memory m) =? 0 then boot m else m) = m.
Proof. intros H. destruct (Z.eqb_spec (initialized (F_memory m)) 0); congruence. Qed.

Lemma cache_get_keeps_shape address (m : machine World) r v m' :
  initialized (F_memory m) ≠ 0 →
  cache_get memget address m = Some (r, v, m') →
  keeps_shape m m'.
Proof.
  intros Hinit. unfold cache_get.
  rewrite (cache_get_initialized m Hinit).
  destruct (address_decomposer address) as [offset t].
  destruct (offset + 8 <=? sizeOfBlock).
  - destruct (probe _ _ _ _ _ _) as [[set vt]|] eqn:Hp.
    + intros [= <- <- <-]. eapply probe_keeps_shape; eauto.
    + destruct (fetch _ _ _ _ _ _ _ _) as [[[ok vt] m1]|] eqn:Hf; [|discriminate].
      simpl. apply fetch_keeps_shape in Hf.
      destruct ok; intros [= <- <- <-]; exact Hf.
  - destruct (address_decomposer _) as [newOffset newTag].
    destruct (probe t _ _ _ _ _) as [[set1 vt1]|] eqn:Hp1.
    + apply probe_keeps_shape in Hp1.
      destruct (probe newTag _ _ _ _ _) as [[set2 vt2]|] eqn:Hp2.
      * apply probe_keeps_shape in Hp2. simpl.
        intros [= <- <- <-]. eapply keeps_shape_trans; eauto.
      * simpl.
        destruct (fetch _ newTag _ _ _ _ _ _) as [[[ok vt] m2]|] eqn:Hf2;
          [|discriminate].
        apply fetch_keeps_shape in Hf2. simpl.
        destruct ok; intros [= <- <- <-]; eapply keeps_shape_trans; eauto.
    + destruct (probe newTag _ _ _ _ _) as [[set2 vt2]|] eqn:Hp2.
      * apply probe_keeps_shape in Hp2. simpl.
        destruct (fetch _ t _ _ _ _ _ _) as [[[ok vt] m2]|] eqn:Hf1;
          [|discriminate].
        apply fetch_keeps_shape in Hf1. simpl.
        destruct ok; intros [= <- <- <-]; eapply keeps_shape_trans; eauto.
      * simpl.
        destruct (fetch _ t _ _ _ _ _ _) as [[[ok vt] m1]|] eqn:Hf1;
          [|discriminate].
        apply fetch_keeps_shape in Hf1. simpl.
        destruct ok; simpl.
        -- destruct (fetch _ newTag _ _ _ _ _ _) as [[[ok2 vt2] m2]|] eqn:Hf2;
             [|discriminate].
           apply fetch_keeps_shape in Hf2. simpl.
           destruct ok2; intros [= <- <- <-]; eapply keeps_shape_trans; eauto.
        -- intros [= <- <- <-]. exact Hf1.
Qed.

Lemma boot_times_ok (m : machine World) :
  numOfLines (lines m) ≤ 2 ^ 32 →
  times_ok (lines (boot m))
  ∧ length (lines (boot m)) = length (lines m)
  ∧ initialized (F_memory (boot m)) = 1.
Proof.
  intros Hn. split; [apply init_times_ok; exact Hn|].
  split; [|reflexivity]. unfold lines, boot. simpl. apply length_imap.
Qed.

Lemma reachable_times_ok (m : machine World) :
  reachable memget m →
  times_ok (lines m)
  ∧ numOfLines (lines m) < 2 ^ 32
  ∧ initialized (F_memory m) ≠ 0
  ∧ tags_ok (lines m).
Proof.
  induction 1 as [m Hn | m m' address r v Hreach IH Hget].
  - destruct (boot_times_ok m ltac:(lia)) as (Hok & Hlen & Hinit).
    split; [exact Hok|]. unfold numOfLines in *. rewrite Hlen, Hinit.
    split; [lia|]. split; [lia|]. apply init_tags_ok.
  - destruct IH as (Hok & Hn & Hinit & Htags).
    destruct (cache_get_keeps_shape _ _ _ _ _ Hinit Hget) as (Hlen & Hi & Ht & Hg).
    split; [apply Ht; [lia | exact Hok]|].
    unfold numOfLines in *. rewrite Hlen, Hi.
    split; [lia|]. split; [exact Hinit | auto].
Qed.

(** C3: initialisation makes the times of the lines a permutation of
    [0 .. numOfLines-1]; [setLRU] and [findEvict] keep them one; hence they
    are one in every reachable machine (initialisation, then any number of
    [cache_get] calls, failed backing reads included). *)
Theorem lru_permutation_invariant :
  (∀ m : machine World,
     numOfLines (lines m) < 2 ^ 32 → lru_permutation (lines (boot m)))
  ∧ (∀ set line,
       numOfLines set < 2 ^ 32 → lru_permutation set →
       lru_permutation (setLRU set line))
  ∧ (∀ set newTag e set',
       numOfLines set < 2 ^ 32 → lru_permutation set →
       findEvict set newTag = Some (e, set') →
       lru_permutation set')
  ∧ (∀ m : machine World,
       reachable memget m →
       Permutation (time <$> lines m)
                   (Z.of_nat <$> seq 0 (Z.to_nat (numOfLines (lines m))))).
Proof.
  split; [|split; [|split]].
  - intros m Hn. apply times_ok_permutation.
    apply (boot_times_ok m). lia.
  - intros set line Hn Hperm. apply times_ok_permutation in Hperm.
    apply times_ok_permutation.
    destruct (set !! line) as [le|] eqn:Hle.
    + apply (setLRU_times_ok set line le Hperm); [lia | exact Hle].
    + unfold setLRU. rewrite (age_loop_skip _ _ Hle).
      replace (alter (with_time 0) line set) with set; [exact Hperm|].
      apply list_eq. intros i. destruct (decide (i = line)) as [->|Hne].
      * rewrite list_lookup_alter_eq, Hle. reflexivity.
      * symmetry. apply list_lookup_alter_ne. congruence.
  - intros set newTag e set' Hn Hperm Hev. apply times_ok_permutation in Hperm.
    apply times_ok_permutation.
    apply (findEvict_times_ok set newTag e set' Hperm); [lia | exact Hev].
  - intros m Hreach. destruct (reachable_times_ok m Hreach) as (Hok & _).
    apply times_ok_permutation in Hok. unfold lru_permutation in Hok.
    unfold numOfLines. rewrite Nat2Z.id. exact Hok.
Qed.
End Invariant.

(** ** What a touch leaves alone *)

Lemma content_aged t l : content (aged t l) = content l.
Proof. unfold aged. destruct (_ <? _); reflexivity. Qed.

Lemma setLRU_None line set : set !! line = None → setLRU set line = set.
Proof.
  intros Hnone. unfold setLRU. rewrite (age_loop_skip _ _ Hnone).
  apply list_eq. intros i. destruct (decide (i = line)) as [->|Hne].
  - rewrite list_lookup_alter_eq, Hnone. reflexivity.
  - apply list_lookup_alter_ne. congruence.
Qed.

Lemma setLRU_content set line : content <$> setLRU set line = content <$> set.
Proof.
  destruct (set !! line) as [le|] eqn:Hle.
  - apply list_eq. intros i.
    rewrite !list_lookup_fmap, (setLRU_lookup _ _ _ _ Hle).
    destruct (set !! i) as [l|]; [|reflexivity]. simpl.
    destruct (decide (i = line)); [reflexivity|].
    rewrite content_aged. reflexivity.
  - rewrite (setLRU_None _ _ Hle). reflexivity.
Qed.

Lemma hits_content t l l' : content l = content l' → hits t l → hits t l'.
Proof. unfold content, hits. intros [= -> -> _]. auto. Qed.

Lemma list_find_hits_content t set set' i l :
  content <$> set = content <$> set' →
  list_find (hits t) set = Some (i, l) →
  ∃ l', list_find (hits t) set' = Some (i, l') ∧ content l' = content l.
Proof.
  intros Hc Hf. apply list_find_Some in Hf as (Hl & Hh & Hfirst).
  assert (Hat : ∀ j x, set !! j = Some x →
                  ∃ x', set' !! j = Some x' ∧ content x' = content x).
  { intros j x Hj.
    assert (H : (content <$> set') !! j = Some (content x)).
    { rewrite <- Hc, list_lookup_fmap, Hj. reflexivity. }
    rewrite list_lookup_fmap in H.
    destruct (set' !! j) as [x'|]; [|discriminate].
    simpl in H. exists x'. split; [reflexivity | congruence]. }
  assert (Hback : ∀ j x', set' !! j = Some x' →
                  ∃ x, set !! j = Some x ∧ content x' = content x).
  { intros j x' Hj.
    assert (H : (content <$> set) !! j = Some (content x')).
    { rewrite Hc, list_lookup_fmap, Hj. reflexivity. }
    rewrite list_lookup_fmap in H.
    destruct (set !! j) as [x|]; [|discriminate].
    simpl in H. exists x. split; [reflexivity | congruence]. }
  destruct (Hat i l Hl) as (l' & Hl' & Hcl).
  exists l'. split; [|exact Hcl].
  apply list_find_Some. split; [exact Hl'|].
  split; [eapply hits_content; [symmetry; exact Hcl | exact Hh]|].
  intros j y Hj Hlt Hy.
  destruct (Hback j y Hj) as (x & Hx & Hcx).
  apply (Hfirst j x Hx Hlt). eapply hits_content; eauto.
Qed.

Lemma list_find_hits_content_None t set set' :
  content <$> set = content <$> set' →
  list_find (hits t) set = None →
  list_find (hits t) set' = None.
Proof.
  intros Hc Hf.
  destruct (list_find (hits t) set') as [[i l']|] eqn:Hf'; [|reflexivity].
  destruct (list_find_hits_content t set' set i l' (eq_sym Hc) Hf') as (l & Hl & _).
  congruence.
Qed.

(** ** Assembling the word *)

Lemma bytes_from_drop block from n :
  bytes_from block from n = bytes_of (drop from block) n.
Proof.
  unfold bytes_from, bytes_of. apply list_fmap_ext. intros _ i _.
  rewrite lookup_drop. reflexivity.
Qed.

Lemma bytes_from_take_drop block from n :
  (from + n ≤ length block)%nat →
  bytes_from block from n = take n (drop from block).
Proof.
  intros Hlen. apply list_eq. intros i. unfold bytes_from.
  rewrite list_lookup_fmap.
  destruct (decide (i < n)%nat) as [Hi|Hi].
  - rewrite lookup_seq_lt by lia. simpl.
    rewrite lookup_take_lt, lookup_drop by lia.
    destruct (lookup_lt_is_Some_2 block (from + i) ltac:(lia)) as [b ->].
    reflexivity.
  - rewrite lookup_seq_ge, lookup_take_ge by lia. reflexivity.
Qed.

Lemma cache_get_byElem_whole block :
  cache_get_byElem (replicate 8 x00) block 8 0 = bytes_of block 8.
Proof. reflexivity. Qed.

Lemma cache_get_byElem_halves block1 block2 (n1 : nat) :
  (n1 ≤ 8)%nat →
  cache_get_byElem (cache_get_byElem (replicate 8 x00) block1 n1 0)
                   block2 (8 - n1) n1
  = bytes_of block1 n1 ++ bytes_of block2 (8 - n1).
Proof.
  intros Hn. do 9 (destruct n1 as [|n1]; [reflexivity|]). lia.
Qed.

Lemma cache_get_byElem_halves_swapped block1 block2 (n1 : nat) :
  (n1 ≤ 8)%nat →
  cache_get_byElem (cache_get_byElem (replicate 8 x00) block2 (8 - n1) n1)
                   block1 n1 0
  = bytes_of block1 n1 ++ bytes_of block2 (8 - n1).
Proof.
  intros Hn. do 9 (destruct n1 as [|n1]; [reflexivity|]). lia.
Qed.

(** ** The paths of a non-crossing cache_get *)

Section Paths.
Context {World : Type}.
Variable memget : Z → list byte → Z → World → bool * list byte * World.

Lemma cache_get_hit address (m : machine World) offset t i line :
  initialized (F_memory m) ≠ 0 →
  address_decomposer address = (offset, t) →
  offset + 8 ≤ sizeOfBlock →
  list_find (hits t) (lines m) = Some (i, line) →
  cache_get memget address m
  = Some (1,
          Some (reverse_endian (bytes_from (cacheBlock line) (Z.to_nat offset) 8)),
          with_lines (setLRU (lines m) i) m).
Proof.
  intros Hinit Hdec Hoff Hfind. unfold cache_get.
  rewrite (cache_get_initialized m Hinit), Hdec.
  destruct (Z.leb_spec (offset + 8) sizeOfBlock); [|lia].
  unfold probe. rewrite Hfind. simpl.
  rewrite cache_get_byElem_whole, bytes_from_drop. reflexivity.
Qed.

Lemma cache_get_miss address (m : machine World) offset t e set1 le ok buffer w :
  initialized (F_memory m) ≠ 0 →
  address_decomposer address = (offset, t) →
  offset + 8 ≤ sizeOfBlock →
  list_find (hits t) (lines m) = None →
  findEvict (lines m) t = Some (e, set1) →
  lines m !! e = Some le →
  memget (wrap64 (address - offset)) (cacheBlock le) sizeOfBlock (backing m)
  = (ok, buffer, w) →
  cache_get memget address m
  = Some (if ok then 1 else 0,
          if ok
          then Some (reverse_endian (bytes_from buffer (Z.to_nat offset) 8))
          else None,
          {| F_memory :=
               {| initialized := initialized (F_memory m);
                  cacheSetArray :=
                    <[e := with_cacheBlock buffer (install t le)]> set1 |};
             backing := w;
             memget_calls := memget_calls m ++ [wrap64 (address - offset)] |}).
Proof.
  intros Hinit Hdec Hoff Hfind Hev Hle Hmem. unfold cache_get.
  rewrite (cache_get_initialized m Hinit), Hdec.
  destruct (Z.leb_spec (offset + 8) sizeOfBlock); [|lia].
  unfold probe. rewrite Hfind. simpl.
  unfold fetch. rewrite Hev. simpl.
  destruct (findEvict_Some _ _ _ _ Hev) as (_ & le' & Hle' & _ & _ & Hlk).
  rewrite Hlk, Hle. simpl. destruct (decide (e = e)); [|congruence].
  simpl. rewrite Hmem. destruct ok; simpl.
  - rewrite cache_get_byElem_whole, bytes_from_drop. reflexivity.
  - reflexivity.
Qed.
End Paths.

(** ** setLRU *)

(** C7: after [setLRU] the touched line has time 0; every other line whose
    time was below the touched line's old time has it incremented by 1, the
    lines with a greater time keep theirs, and (times being distinct, as the
    invariant has them) the order of the times of the other lines is
    unchanged. Valid flags, tags and blocks are left alone. *)
Theorem setLRU_touch (set : list cache_line) (line : nat) (le : cache_line) :
  set !! line = Some le →
  Forall (λ l, 0 ≤ time l < 2 ^ 32) set →
  (time <$> setLRU set line) !! line = Some 0
  ∧ content <$> setLRU set line = content <$> set
  ∧ (∀ i l, i ≠ line → set !! i = Some l →
       ∃ l', setLRU set line !! i = Some l'
         ∧ (time l < time le → time l' = time l + 1)
         ∧ (time le ≤ time l → time l' = time l))
  ∧ (NoDup (time <$> set) →
     ∀ i j li lj li' lj',
       i ≠ line → j ≠ line →
       set !! i = Some li → set !! j = Some lj →
       setLRU set line !! i = Some li' → setLRU set line !! j = Some lj' →
       (time li < time lj ↔ time li' < time lj')).
Proof.
  intros Hle Hrange.
  assert (Hb : ∀ i l, set !! i = Some l → 0 ≤ time l < 2 ^ 32).
  { intros i l Hl. eapply (proj1 (Forall_lookup _ _) Hrange); eauto. }
  assert (Hother : ∀ i l, i ≠ line → set !! i = Some l →
            ∃ l', setLRU set line !! i = Some l'
              ∧ (time l < time le → time l' = time l + 1)
              ∧ (time le ≤ time l → time l' = time l)).
  { intros i l Hne Hl. rewrite (setLRU_lookup _ _ _ _ Hle), Hl.
    destruct (decide (i = line)); [congruence|]. simpl.
    eexists. split; [reflexivity|]. rewrite time_aged.
    pose proof (Hb _ _ Hl). pose proof (Hb _ _ Hle).
    destruct (Z.ltb_spec (time l) (time le)); split; intros; try lia.
    unfold wrap32. apply Z.mod_small. lia. }
  split.
  { rewrite list_lookup_fmap, (setLRU_lookup _ _ _ _ Hle), Hle.
    destruct (decide (line = line)); [reflexivity | congruence]. }
  split; [apply setLRU_content|].
  split; [exact Hother|].
  intros Hnd i j li lj li' lj' Hi Hj Hli Hlj Hli' Hlj'.
  destruct (Hother i li Hi Hli) as (xi & Hxi & Hi1 & Hi2).
  destruct (Hother j lj Hj Hlj) as (xj & Hxj & Hj1 & Hj2).
  assert (xi = li') by congruence. assert (xj = lj') by congruence. subst xi xj.
  assert (Hjl : time lj = time le → j = line).
  { intros Heq. apply (proj1 (NoDup_alt _) Hnd j line (time lj)).
    - rewrite list_lookup_fmap, Hlj. reflexivity.
    - rewrite list_lookup_fmap, Hle, Heq. reflexivity. }
  assert (Hil : time li = time le → i = line).
  { intros Heq. apply (proj1 (NoDup_alt _) Hnd i line (time li)).
    - rewrite list_lookup_fmap, Hli. reflexivity.
    - rewrite list_lookup_fmap, Hle, Heq. reflexivity. }
  destruct (Z.lt_ge_cases (time li) (time le)), (Z.lt_ge_cases (time lj) (time le));
    lia.
Qed.

(** ** A hit only touches *)

Section Hit.
Context {World : Type}.
Variable memget : Z → list byte → Z → World → bool * list byte * World.

(** C9: a non-crossing request that finds a valid line with its tag in an
    initialised cache returns 1, leaves the valid flag, tag and block of
    every line as they were, and does not call [memget]. *)
Theorem cache_get_hit_frame address (m : machine World) offset t i line :
  initialized (F_memory m) ≠ 0 →
  address_decomposer address = (offset, t) →
  offset + 8 ≤ 64 →
  lines m !! i = Some line → valid line = 1 → tag line = t →
  ∃ v m',
    cache_get memget address m = Some (1, Some v, m')
    ∧ content <$> lines m' = content <$> lines m
    ∧ memget_calls m' = memget_calls m
    ∧ backing m' = backing m
    ∧ initialized (F_memory m') = initialized (F_memory m).
Proof.
  intros Hinit Hdec Hoff Hline Hvalid Htag.
  destruct (list_find (hits t) (lines m)) as [[j lj]|] eqn:Hfind.
  - rewrite (cache_get_hit memget address m offset t j lj Hinit Hdec Hoff Hfind).
    eexists _, _. split; [reflexivity|].
    split; [apply setLRU_content|]. auto.
  - exfalso. apply list_find_None in Hfind.
    apply (proj1 (Forall_lookup _ _) Hfind i line Hline).
    unfold hits. split; [lia | exact Htag].
Qed.
End Hit.

(** ** After a miss *)

Lemma findEvict_content_other set t e set1 i :
  findEvict set t = Some (e, set1) → i ≠ e →
  content <$> set1 !! i = content <$> set !! i.
Proof.
  intros Hev Hne.
  destruct (findEvict_Some _ _ _ _ Hev) as (_ & le & _ & _ & _ & Hlk).
  rewrite Hlk. destruct (decide (i = e)); [congruence|].
  destruct (set !! i); [|reflexivity]. simpl. rewrite content_aged. reflexivity.
Qed.

Lemma refilled_lookup set t e set1 le buffer i :
  findEvict set t = Some (e, set1) → set !! e = Some le →
  refilled set1 e t le buffer !! i
  = if decide (i = e) then Some (with_cacheBlock buffer (install t le))
    else aged (time le) <$> set !! i.
Proof.
  intros Hev Hle. unfold refilled.
  destruct (findEvict_Some _ _ _ _ Hev) as (_ & le' & Hle' & _ & Hlen & Hlk).
  assert (le' = le) by congruence. subst le'.
  destruct (decide (i = e)) as [->|Hne].
  - apply list_lookup_insert_eq. rewrite Hlen. eapply lookup_lt_Some; eauto.
  - rewrite list_lookup_insert_ne by congruence. rewrite Hlk.
    destruct (decide (i = e)); [congruence | reflexivity].
Qed.

(** The line a miss installs is the first to hit its stored tag when no line
    before it does; none did when the stored tag is the requested one. *)
Lemma refilled_find set t t' e set1 le buffer :
  findEvict set t = Some (e, set1) → set !! e = Some le →
  t' = wrap32 t →
  (∀ i l, (i < e)%nat → set !! i = Some l → ¬ hits t' l) →
  list_find (hits t') (refilled set1 e t le buffer)
  = Some (e, with_cacheBlock buffer (install t le)).
Proof.
  intros Hev Hle -> Hbefore. apply list_find_Some.
  split; [rewrite (refilled_lookup _ _ _ _ _ _ _ Hev Hle);
          destruct (decide (e = e)); [reflexivity | congruence]|].
  split; [unfold hits; simpl; split; [lia | reflexivity]|].
  intros j y Hj Hlt Hy.
  rewrite (refilled_lookup _ _ _ _ _ _ _ Hev Hle) in Hj.
  destruct (decide (j = e)); [lia|].
  destruct (set !! j) as [x|] eqn:Hx; [|discriminate].
  simpl in Hj. injection Hj as <-.
  apply (Hbefore j x Hlt Hx). eapply hits_content; [|exact Hy].
  apply content_aged.
Qed.

Lemma miss_then_hit set t e set1 le buffer :
  list_find (hits t) set = None → wrap32 t = t →
  findEvict set t = Some (e, set1) → set !! e = Some le →
  list_find (hits t) (refilled set1 e t le buffer)
  = Some (e, with_cacheBlock buffer (install t le)).
Proof.
  intros Hnone Ht Hev Hle.
  apply (refilled_find set t t e set1 le buffer Hev Hle (eq_sym Ht)).
  intros i l _ Hl.
  apply list_find_None in Hnone.
  exact (proj1 (Forall_lookup _ _) Hnone i l Hl).
Qed.

Lemma refilled_times_ok set t e set1 le buffer :
  times_ok set → numOfLines set ≤ 2 ^ 32 →
  findEvict set t = Some (e, set1) → set !! e = Some le →
  times_ok (refilled set1 e t le buffer).
Proof.
  intros Hok Hn Hev Hle. unfold refilled.
  apply fill_times_ok; [eapply findEvict_times_ok; eauto|].
  destruct (findEvict_Some _ _ _ _ Hev) as (_ & le' & Hle' & _ & _ & Hlk).
  rewrite Hlk, Hle. destruct (decide (e = e)); [reflexivity | congruence].
Qed.

Section Miss.
Context {World : Type}.
Variable memget : Z → list byte → Z → World → bool * list byte * World.

Lemma cache_ok_times_ok (m : machine World) :
  cache_ok m →
  initialized (F_memory m) ≠ 0
  ∧ times_ok (lines m)
  ∧ 0 < numOfLines (lines m) ≤ 2 ^ 32.
Proof.
  intros (Hinit & Hn & Hperm & _). split; [exact Hinit|].
  split; [apply times_ok_permutation; exact Hperm | lia].
Qed.

Lemma cache_ok_victim (m : machine World) t :
  cache_ok m →
  ∃ e set1 le,
    findEvict (lines m) t = Some (e, set1)
    ∧ lines m !! e = Some le
    ∧ time le = numOfLines (lines m) - 1.
Proof.
  intros Hok. destruct (cache_ok_times_ok m Hok) as (_ & Htimes & Hn).
  destruct (findEvict_total (lines m) t Htimes Hn) as (e & set1 & Hev).
  destruct (findEvict_Some _ _ _ _ Hev) as (_ & le & Hle & Ht & _).
  exists e, set1, le. split; [exact Hev|]. split; [exact Hle|].
  rewrite Ht. unfold wrap32. apply Z.mod_small. lia.
Qed.

(** C5, amended: when [memget] fails on a non-crossing miss, [cache_get]
    returns 0 and the evicted line keeps what was written before the read:
    valid 1, time 0, and as tag the requested tag reduced modulo 2^32; the
    times are still a permutation. When the requested tag is below 2^32, a
    following non-crossing request for that tag hits that line, is served
    the bytes left in its block, and does not call [memget]. *)
Theorem failed_fill_keeps_line address (m : machine World) offset t :
  cache_ok m →
  address_decomposer address = (offset, t) →
  offset + 8 ≤ 64 →
  list_find (hits t) (lines m) = None →
  (∀ old, (memget (wrap64 (address - offset)) old sizeOfBlock (backing m)).1.1
          = false) →
  ∃ e l' m',
    cache_get memget address m = Some (0, None, m')
    ∧ find_evicted (lines m) = Some e
    ∧ lines m' !! e = Some l'
    ∧ tag l' = wrap32 t ∧ valid l' = 1 ∧ time l' = 0
    ∧ lru_permutation (lines m')
    ∧ memget_calls m' = memget_calls m ++ [wrap64 (address - offset)]
    ∧ (0 ≤ t < 2 ^ 32 →
       ∀ address2 offset2,
         address_decomposer address2 = (offset2, t) →
         offset2 + 8 ≤ 64 →
         ∃ m'',
           cache_get memget address2 m'
           = Some (1,
                   Some (reverse_endian
                           (bytes_from (cacheBlock l') (Z.to_nat offset2) 8)),
                   m'')
           ∧ memget_calls m'' = memget_calls m'
           ∧ content <$> lines m'' = content <$> lines m').
Proof.
  intros Hok Hdec Hoff Hnone Hfail.
  destruct (cache_ok_times_ok m Hok) as (Hinit & Htimes & Hn).
  destruct (cache_ok_victim m t Hok) as (e & set1 & le & Hev & Hle & Hte).
  destruct (memget (wrap64 (address - offset)) (cacheBlock le) sizeOfBlock
              (backing m)) as [[ok buffer] w] eqn:Hmem.
  assert (ok = false) as ->.
  { specialize (Hfail (cacheBlock le)). rewrite Hmem in Hfail. exact Hfail. }
  pose proof (cache_get_miss memget address m offset t e set1 le false buffer w
                Hinit Hdec Hoff Hnone Hev Hle Hmem) as Hget.
  simpl in Hget. fold (refilled set1 e t le buffer) in Hget.
  set (m' := {| F_memory := {| initialized := initialized (F_memory m);
                               cacheSetArray := refilled set1 e t le buffer |};
                backing := w;
                memget_calls := memget_calls m ++ [wrap64 (address - offset)] |})
    in Hget.
  assert (Hlines : lines m' = refilled set1 e t le buffer) by reflexivity.
  assert (Hl' : lines m' !! e = Some (with_cacheBlock buffer (install t le))).
  { rewrite Hlines, (refilled_lookup _ _ _ _ _ _ _ Hev Hle).
    destruct (decide (e = e)); [reflexivity | congruence]. }
  exists e, (with_cacheBlock buffer (install t le)), m'.
  split; [exact Hget|].
  split; [apply (findEvict_Some _ _ _ _ Hev)|].
  split; [exact Hl'|].
  split; [reflexivity|]. split; [reflexivity|]. split; [reflexivity|].
  split; [rewrite Hlines; apply times_ok_permutation;
          eapply refilled_times_ok; eauto; lia|].
  split; [reflexivity|].
  intros Ht address2 offset2 Hdec2 Hoff2.
  assert (Hwrap : wrap32 t = t) by (unfold wrap32; apply Z.mod_small; lia).
  pose proof (miss_then_hit (lines m) t e set1 le buffer Hnone Hwrap Hev Hle)
    as Hfind.
  rewrite <- Hlines in Hfind.
  eexists. split.
  - apply (cache_get_hit memget address2 m' offset2 t e _ Hinit Hdec2 Hoff2 Hfind).
  - split; [reflexivity|].
    unfold with_lines, lines at 1. simpl. apply setLRU_content.
Qed.
End Miss.

(** ** A cold cache *)

Section Cold.
Context {World : Type}.
Variable memget : Z → list byte → Z → World → bool * list byte * World.

Lemma boot_no_hit (m : machine World) t :
  list_find (hits t) (lines (boot m)) = None.
Proof.
  apply list_find_None, Forall_lookup. intros i l Hi.
  unfold lines, boot in Hi. simpl in Hi. rewrite list_lookup_imap in Hi.
  destruct (cacheSetArray (F_memory m) !! i); [|discriminate].
  injection Hi as <-. unfold hits. simpl. intros [H _]. congruence.
Qed.

Lemma boot_cache_ok (m : machine World) :
  0 < numOfLines (lines m) < 2 ^ 32 → cache_ok (boot m).
Proof.
  intros Hn. destruct (boot_times_ok m ltac:(lia)) as (Hok & Hlen & Hinit).
  split; [rewrite Hinit; lia|]. unfold numOfLines in *. rewrite Hlen.
  split; [lia|]. split; [apply times_ok_permutation; exact Hok|].
  apply init_tags_ok.
Qed.

(** C2, amended: for a non-crossing address whose tag is below 2^32, on a
    cold cache (a fast memory [arena] of at least one line, not yet
    initialised or just initialised) and a backing memory that delivers
    [buffer] for the block of the address, the first [cache_get] returns 1
    with the word of [buffer] at the offset through one [memget] call, and a
    repeated [cache_get] returns 1 with the same word and no [memget]
    call. *)
Theorem round_trip address (arena m0 : machine World) offset t buffer :
  (m0 = arena ∧ initialized (F_memory arena) = 0) ∨ m0 = boot arena →
  0 < numOfLines (lines arena) < 2 ^ 32 →
  address_decomposer address = (offset, t) →
  offset + 8 ≤ 64 →
  0 ≤ t < 2 ^ 32 →
  (∀ old, (memget (wrap64 (address - offset)) old sizeOfBlock (backing m0)).1
          = (true, buffer)) →
  ∃ m1 m2,
    cache_get memget address m0
    = Some (1, Some (reverse_endian (bytes_from buffer (Z.to_nat offset) 8)), m1)
    ∧ memget_calls m1 = memget_calls m0 ++ [wrap64 (address - offset)]
    ∧ cache_get memget address m1
      = Some (1, Some (reverse_endian (bytes_from buffer (Z.to_nat offset) 8)), m2)
    ∧ memget_calls m2 = memget_calls m1.
Proof.
  intros Hcold Hn Hdec Hoff Ht Hmem.
  assert (Hboot : cache_get memget address m0
                  = cache_get memget address (boot arena)
                  ∧ backing m0 = backing (boot arena)
                  ∧ memget_calls m0 = memget_calls (boot arena)).
  { destruct Hcold as [[-> Hfresh] | ->].
    - split; [apply cache_get_boot; exact Hfresh|]. split; reflexivity.
    - split; [reflexivity|]. split; reflexivity. }
  destruct Hboot as (-> & Hback & ->). rewrite Hback in Hmem. clear Hcold Hback.
  pose proof (boot_cache_ok arena Hn) as Hok.
  pose proof (boot_no_hit arena t) as Hnone.
  destruct (cache_ok_times_ok _ Hok) as (Hinit & Htimes & Hn').
  destruct (cache_ok_victim (boot arena) t Hok) as (e & set1 & le & Hev & Hle & _).
  destruct (memget (wrap64 (address - offset)) (cacheBlock le) sizeOfBlock
              (backing (boot arena))) as [[ok buf] w] eqn:Hm.
  assert (ok = true ∧ buf = buffer) as [-> ->].
  { specialize (Hmem (cacheBlock le)). rewrite Hm in Hmem. simpl in Hmem.
    split; congruence. }
  pose proof (cache_get_miss memget address (boot arena) offset t e set1 le true
                buffer w Hinit Hdec Hoff Hnone Hev Hle Hm) as Hget.
  simpl in Hget. fold (refilled set1 e t le buffer) in Hget.
  set (m1 := {| F_memory := {| initialized := 1;
                               cacheSetArray := refilled set1 e t le buffer |};
                backing := w;
                memget_calls := memget_calls arena ++ [wrap64 (address - offset)] |})
    in Hget.
  assert (Hwrap : wrap32 t = t) by (unfold wrap32; apply Z.mod_small; lia).
  pose proof (miss_then_hit _ t e set1 le buffer Hnone Hwrap Hev Hle) as Hfind.
  exists m1. eexists. split; [exact Hget|]. split; [reflexivity|].
  split.
  - apply (cache_get_hit memget address m1 offset t e
             (with_cacheBlock buffer (install t le)));
      [simpl; lia | exact Hdec | exact Hoff | exact Hfind].
  - reflexivity.
Qed.
End Cold.

(** ** What a non-crossing request does to the lines *)

Section Resolve.
Context {World : Type}.
Variable memget : Z → list byte → Z → World → bool * list byte * World.

Lemma cache_get_cache_ok address (m : machine World) r v m' :
  cache_ok m → cache_get memget address m = Some (r, v, m') → cache_ok m'.
Proof.
  intros Hok Hget. destruct (cache_ok_times_ok m Hok) as (Hinit & Htimes & Hn).
  destruct (cache_get_keeps_shape memget _ _ _ _ _ Hinit Hget)
    as (Hlen & Hi & Ht & Hg).
  destruct Hok as (_ & Hn' & _ & Htags).
  split; [rewrite Hi; exact Hinit|]. unfold numOfLines in *. rewrite Hlen.
  split; [lia|]. split; [|auto].
  apply times_ok_permutation. apply Ht; [lia | exact Htimes].
Qed.

Lemma reachable_cache_ok (m : machine World) :
  reachable memget m → 0 < numOfLines (lines m) → cache_ok m.
Proof.
  intros Hreach Hn.
  destruct (reachable_times_ok memget m Hreach) as (Hok & Hlt & Hinit & Htags).
  split; [exact Hinit|]. split; [lia|].
  split; [apply times_ok_permutation; exact Hok | exact Htags].
Qed.

Lemma run_gets_reachable addresses (m m' : machine World) :
  reachable memget m → run_gets memget addresses m = Some m' →
  reachable memget m'.
Proof.
  revert m. induction addresses as [|a rest IH]; intros m Hreach Hrun.
  - simpl in Hrun. congruence.
  - simpl in Hrun.
    destruct (cache_get memget a m) as [[[r v] m1]|] eqn:Hget; [|discriminate].
    simpl in Hrun. apply (IH m1); [|exact Hrun].
    eapply reachable_get; eauto.
Qed.

(** A non-crossing request on a sound machine returns; the line it resolves
    to ends valid with time 0 and the requested tag (reduced modulo 2^32
    when it was installed), the others keep valid flag and tag and age as
    [touched_time] says. *)
Lemma noncrossing_step address (m : machine World) offset t :
  cache_ok m →
  address_decomposer address = (offset, t) →
  offset + 8 ≤ sizeOfBlock →
  ∃ i le r v m',
    resolved_line t (lines m) = Some i
    ∧ lines m !! i = Some le
    ∧ cache_get memget address m = Some (r, v, m')
    ∧ (∀ j l, lines m !! j = Some l →
         ∃ l', lines m' !! j = Some l'
           ∧ time l' = touched_time i (time le) j (time l)
           ∧ (j ≠ i → valid l' = valid l ∧ tag l' = tag l))
    ∧ (∃ l', lines m' !! i = Some l' ∧ holds t l' ∧ time l' = 0).
Proof.
  intros Hok Hdec Hoff.
  destruct (cache_ok_times_ok m Hok) as (Hinit & Htimes & Hn).
  assert (Htags : tags_ok (lines m)) by apply Hok.
  unfold resolved_line.
  destruct (list_find (hits t) (lines m)) as [[i le]|] eqn:Hfind.
  - pose proof (cache_get_hit memget address m offset t i le Hinit Hdec Hoff Hfind)
      as Hget.
    apply list_find_Some in Hfind as (Hle & [Hv Htag] & _).
    exists i, le. eexists _, _, _. split; [reflexivity|].
    split; [exact Hle|]. split; [exact Hget|].
    unfold with_lines, lines at 2 3. simpl. split.
    + intros j l Hl. rewrite (setLRU_lookup _ _ _ _ Hle), Hl. simpl.
      eexists. split; [reflexivity|]. unfold touched_time.
      destruct (decide (j = i)) as [->|Hne].
      * split; [reflexivity | congruence].
      * split; [apply time_aged|]. intros _. unfold aged.
        destruct (_ <? _); auto.
    + rewrite (setLRU_lookup _ _ _ _ Hle), Hle.
      destruct (decide (i = i)); [|congruence]. simpl.
      eexists. split; [reflexivity|]. split; [|reflexivity].
      split; [exact Hv|]. simpl. rewrite <- Htag. symmetry.
      unfold wrap32. apply Z.mod_small. apply (Htags i le Hle).
  - destruct (cache_ok_victim m t Hok) as (e & set1 & le & Hev & Hle & Hte).
    destruct (memget (wrap64 (address - offset)) (cacheBlock le) sizeOfBlock
                (backing m)) as [[ok buffer] w] eqn:Hmem.
    pose proof (cache_get_miss memget address m offset t e set1 le ok buffer w
                  Hinit Hdec Hoff Hfind Hev Hle Hmem) as Hget.
    fold (refilled set1 e t le buffer) in Hget.
    exists e, le. eexists _, _, _.
    split; [apply (findEvict_Some _ _ _ _ Hev)|].
    split; [exact Hle|]. split; [exact Hget|].
    unfold lines at 2 3. simpl. split.
    + intros j l Hl. rewrite (refilled_lookup _ _ _ _ _ _ _ Hev Hle).
      unfold touched_time. destruct (decide (j = e)) as [->|Hne].
      * eexists. split; [reflexivity|]. split; [reflexivity | congruence].
      * rewrite Hl. simpl. eexists. split; [reflexivity|].
        split; [apply time_aged|]. intros _. unfold aged.
        destruct (_ <? _); auto.
    + rewrite (refilled_lookup _ _ _ _ _ _ _ Hev Hle).
      destruct (decide (e = e)); [|congruence].
      eexists. split; [reflexivity|]. split; [|reflexivity].
      split; [simpl; lia | reflexivity].
Qed.
End Resolve.

(** ** The eviction victim *)


Section Eviction.
Context {World : Type}.
Variable memget : Z → list byte → Z → World → bool * list byte * World.

Lemma cache_get_numOfLines address (m : machine World) r v m' :
  cache_ok m → cache_get memget address m = Some (r, v, m') →
  numOfLines (lines m') = numOfLines (lines m).
Proof.
  intros Hok Hget.
  destruct (cache_get_keeps_shape memget _ _ _ _ _ (proj1 Hok) Hget) as (Hlen & _).
  unfold numOfLines. rewrite Hlen. reflexivity.
Qed.

End Eviction.

(** ** Tags of 2^32 and more *)

Lemma no_hit_high (set : list cache_line) t :
  tags_ok set → 2 ^ 32 ≤ t → list_find (hits t) set = None.
Proof.
  intros Htags Ht. apply list_find_None, Forall_lookup.
  intros i l Hl [_ Hg]. pose proof (Htags i l Hl). lia.
Qed.

Section Truncation.
Context {World : Type}.
Variable memget : Z → list byte → Z → World → bool * list byte * World.

(** C10, amended: a line stores its tag modulo 2^32 and the lookup compares
    that field with the whole tag of the address. For a non-crossing address
    whose tag [t] is 2^32 or more, no line ever hits: the first [cache_get]
    installs a line with tag [t mod 2^32], and a repeated [cache_get] of the
    address misses again and calls [memget] again. A non-crossing request
    for an address whose tag is [t mod 2^32] hits the first valid line, in
    index order, that stores [t mod 2^32] and is served the bytes of that
    line's block; it is the installed line when no valid line before it
    stored [t mod 2^32]. *)
Theorem truncated_tag address (m : machine World) offset t :
  cache_ok m →
  address_decomposer address = (offset, t) →
  offset + 8 ≤ 64 →
  2 ^ 32 ≤ t →
  list_find (hits t) (lines m) = None
  ∧ ∃ e r v m1 l1,
      cache_get memget address m = Some (r, v, m1)
      ∧ find_evicted (lines m) = Some e
      ∧ lines m1 !! e = Some l1
      ∧ valid l1 = 1 ∧ tag l1 = t mod 2 ^ 32
      ∧ list_find (hits t) (lines m1) = None
      ∧ (∃ r' v' m2,
           cache_get memget address m1 = Some (r', v', m2)
           ∧ memget_calls m2 = memget_calls m1 ++ [wrap64 (address - offset)])
      ∧ (∀ address2 offset2,
           address_decomposer address2 = (offset2, t mod 2 ^ 32) →
           offset2 + 8 ≤ 64 →
           ∃ j lj m2,
             list_find (hits (t mod 2 ^ 32)) (lines m1) = Some (j, lj)
             ∧ (j ≤ e)%nat
             ∧ cache_get memget address2 m1
               = Some (1,
                       Some (reverse_endian
                               (bytes_from (cacheBlock lj) (Z.to_nat offset2) 8)),
                       m2)
             ∧ memget_calls m2 = memget_calls m1
             ∧ ((∀ i li, (i < e)%nat → lines m !! i = Some li →
                         ¬ hits (t mod 2 ^ 32) li) →
                j = e ∧ lj = l1)).
Proof.
  intros Hok Hdec Hoff Ht. change (t mod 2 ^ 32) with (wrap32 t).
  destruct (cache_ok_times_ok m Hok) as (Hinit & Htimes & Hn).
  assert (Hnone : list_find (hits t) (lines m) = None)
    by (apply no_hit_high; [apply Hok | exact Ht]).
  split; [exact Hnone|].
  destruct (cache_ok_victim m t Hok) as (e & set1 & le & Hev & Hle & _).
  destruct (memget (wrap64 (address - offset)) (cacheBlock le) sizeOfBlock
              (backing m)) as [[ok buffer] w] eqn:Hmem.
  pose proof (cache_get_miss memget address m offset t e set1 le ok buffer w
                Hinit Hdec Hoff Hnone Hev Hle Hmem) as Hget.
  fold (refilled set1 e t le buffer) in Hget.
  set (m1 := {| F_memory := {| initialized := initialized (F_memory m);
                               cacheSetArray := refilled set1 e t le buffer |};
                backing := w;
                memget_calls := memget_calls m ++ [wrap64 (address - offset)] |})
    in Hget.
  assert (Hlines : lines m1 = refilled set1 e t le buffer) by reflexivity.
  set (l1 := with_cacheBlock buffer (install t le)).
  assert (Hl1 : lines m1 !! e = Some l1).
  { rewrite Hlines, (refilled_lookup _ _ _ _ _ _ _ Hev Hle).
    destruct (decide (e = e)); [reflexivity | congruence]. }
  pose proof (cache_get_cache_ok memget _ _ _ _ _ Hok Hget) as Hok1.
  destruct (cache_ok_times_ok m1 Hok1) as (Hinit1 & _ & _).
  assert (Hnone1 : list_find (hits t) (lines m1) = None)
    by (apply no_hit_high; [apply Hok1 | exact Ht]).
  exists e. eexists _, _, m1, l1. split; [exact Hget|].
  split; [apply (findEvict_Some _ _ _ _ Hev)|].
  split; [exact Hl1|]. split; [reflexivity|]. split; [reflexivity|].
  split; [exact Hnone1|]. split.
  - destruct (cache_ok_victim m1 t Hok1) as (e' & set1' & le' & Hev' & Hle' & _).
    destruct (memget (wrap64 (address - offset)) (cacheBlock le') sizeOfBlock
                (backing m1)) as [[ok' buffer'] w'] eqn:Hmem'.
    pose proof (cache_get_miss memget address m1 offset t e' set1' le' ok'
                  buffer' w' Hinit1 Hdec Hoff Hnone1 Hev' Hle' Hmem') as Hget'.
    eexists _, _, _. split; [exact Hget'|]. reflexivity.
  - intros address2 offset2 Hdec2 Hoff2.
    assert (Hh : hits (wrap32 t) l1) by (split; [simpl; lia | reflexivity]).
    destruct (list_find (hits (wrap32 t)) (lines m1)) as [[j lj]|] eqn:Hfind.
    + exists j, lj. eexists. split; [reflexivity|].
      pose proof Hfind as Hfind'.
      apply list_find_Some in Hfind' as (Hlj & _ & Hfirst).
      split.
      { destruct (decide (j ≤ e)%nat) as [|Hgt]; [assumption|].
        exfalso. apply (Hfirst e l1 Hl1); [lia | exact Hh]. }
      split; [apply (cache_get_hit memget address2 m1 offset2 (wrap32 t) j lj
                       Hinit1 Hdec2 Hoff2 Hfind)|].
      split; [reflexivity|].
      intros Hbefore.
      pose proof (refilled_find (lines m) t (wrap32 t) e set1 le buffer Hev Hle
                    eq_refl Hbefore) as Hfe.
      rewrite <- Hlines in Hfe. rewrite Hfe in Hfind.
      injection Hfind as <- <-. split; reflexivity.
    + exfalso. apply list_find_None in Hfind.
      exact (proj1 (Forall_lookup _ _) Hfind e l1 Hl1 Hh).
Qed.
End Truncation.

(** ** Crossing requests *)

Section Crossing.
Context {World : Type}.
Variable memget : Z → list byte → Z → World → bool * list byte * World.

Lemma keeps_shape_cache_ok (m m' : machine World) :
  cache_ok m → keeps_shape m m' → cache_ok m'.
Proof.
  intros Hok (Hlen & Hi & Ht & Hg).
  destruct (cache_ok_times_ok m Hok) as (Hinit & Htimes & Hn).
  destruct Hok as (_ & Hn' & _ & Htags).
  split; [rewrite Hi; exact Hinit|]. unfold numOfLines in *. rewrite Hlen.
  split; [lia|]. split; [|auto].
  apply times_ok_permutation. apply Ht; [lia | exact Htimes].
Qed.

Lemma crossing_offset address offset t :
  address_decomposer address = (offset, t) → 64 < offset + 8 →
  57 ≤ offset ≤ 63.
Proof.
  rewrite address_decomposer_eq. intros [= <- <-] H.
  pose proof (Z.mod_pos_bound address 64 ltac:(lia)). lia.
Qed.

Lemma fetch_success t blockAddress from n start vt (m : machine World) block :
  cache_ok m →
  (∀ old w, (memget blockAddress old sizeOfBlock w).1 = (true, block)) →
  ∃ m',
    fetch memget t blockAddress from n start vt m
    = Some (true, cache_get_byElem vt (drop from block) n start, m')
    ∧ keeps_shape m m'
    ∧ memget_calls m' = memget_calls m ++ [blockAddress].
Proof.
  intros Hok Hmem. destruct (cache_ok_times_ok m Hok) as (_ & Htimes & Hn).
  destruct (fetch_total memget t blockAddress from n start vt m Htimes Hn)
    as (ok & vt' & m' & Hf).
  pose proof (fetch_keeps_shape memget _ _ _ _ _ _ _ _ _ _ Hf) as Hshape.
  pose proof Hf as Hf'.
  apply fetch_Some in Hf' as (e & set1 & l1 & buffer & w & _ & _ & Hm & -> & ->).
  specialize (Hmem (cacheBlock l1) (backing m)). rewrite Hm in Hmem.
  simpl in Hmem. injection Hmem as -> ->.
  eexists. split; [exact Hf|]. split; [exact Hshape | reflexivity].
Qed.

Lemma fetch_eq t blockAddress from n start vt (m : machine World) :
  cache_ok m →
  ∃ e set1 le,
    findEvict (lines m) t = Some (e, set1)
    ∧ lines m !! e = Some le
    ∧ time le = numOfLines (lines m) - 1
    ∧ ∀ ok buffer w,
        memget blockAddress (cacheBlock le) sizeOfBlock (backing m)
        = (ok, buffer, w) →
        fetch memget t blockAddress from n start vt m
        = Some (ok,
                if ok then cache_get_byElem vt (drop from buffer) n start else vt,
                {| F_memory :=
                     {| initialized := initialized (F_memory m);
                        cacheSetArray := refilled set1 e t le buffer |};
                   backing := w;
                   memget_calls := memget_calls m ++ [blockAddress] |}).
Proof.
  intros Hok.
  destruct (cache_ok_victim m t Hok) as (e & set1 & le & Hev & Hle & Hte).
  exists e, set1, le. split; [exact Hev|]. split; [exact Hle|].
  split; [exact Hte|]. intros ok buffer w Hmem.
  unfold fetch. rewrite Hev. simpl.
  destruct (findEvict_Some _ _ _ _ Hev) as (_ & le' & Hle' & _ & _ & Hlk).
  rewrite Hlk, Hle. simpl. destruct (decide (e = e)); [|congruence].
  simpl. rewrite Hmem. reflexivity.
Qed.

(** C1: a crossing request both of whose blocks can be obtained (each by a
    hit or by a successful [memget]) writes to [*value] the reverse-endian
    decoding of the bytes [offset .. 63] of the first block followed by the
    bytes [0 .. offset-57] of the next block, and returns 0. *)
Theorem crossing_word address (m : machine World) offset t newOffset newTag
    block1 block2 :
  cache_ok m →
  address_decomposer address = (offset, t) →
  64 < offset + 8 →
  address_decomposer (wrap64 (address + (64 - offset))) = (newOffset, newTag) →
  obtainable memget t (wrap64 (address - offset)) block1 (lines m) →
  obtainable memget newTag
             (wrap64 (wrap64 (address + (64 - offset)) - newOffset))
             block2 (lines m) →
  ∃ m',
    cache_get memget address m
    = Some (0,
            Some (reverse_endian
                    (bytes_from block1 (Z.to_nat offset) (Z.to_nat (64 - offset))
                     ++ bytes_from block2 0 (Z.to_nat (8 - (64 - offset))))),
            m').
Proof.
  intros Hok Hdec Hcross Hdec2 Hob1 Hob2.
  pose proof (crossing_offset _ _ _ Hdec Hcross) as Hrange.
  destruct (cache_ok_times_ok m Hok) as (Hinit & _ & _).
  assert (Hn2 : Z.to_nat (8 - (64 - offset)) = (8 - Z.to_nat (64 - offset))%nat)
    by lia.
  assert (Hn1 : (Z.to_nat (64 - offset) ≤ 8)%nat) by lia.
  rewrite !bytes_from_drop, Hn2. change (drop 0 block2) with block2.
  unfold cache_get. rewrite (cache_get_initialized m Hinit), Hdec.
  destruct (Z.leb_spec (offset + 8) sizeOfBlock) as [Hle|_];
    [unfold sizeOfBlock in Hle; lia|].
  unfold sizeOfBlock. rewrite Hdec2, Hn2.
  unfold obtainable in Hob1, Hob2.
  remember (replicate 8 x00) as vt0 eqn:Hvt0.
  destruct (probe t _ _ _ (lines m) _) as [[s1 vt1]|] eqn:Hp1.
  - pose proof (probe_keeps_shape _ _ _ _ _ _ _ _ Hp1) as Hshape1.
    apply probe_Some in Hp1 as (i & l1 & Hf1 & _ & -> & ->).
    rewrite Hf1 in Hob1. subst block1.
    pose proof (keeps_shape_cache_ok _ _ Hok Hshape1) as Hok1.
    assert (Hc : content <$> lines m
                 = content <$> lines (with_lines (setLRU (lines m) i) m)).
    { symmetry. apply setLRU_content. }
    destruct (probe newTag _ _ _ _ _) as [[s2 vt2]|] eqn:Hp2.
    + apply probe_Some in Hp2 as (j & l2 & Hf2 & _ & -> & ->).
      destruct (list_find_hits_content _ _ _ _ _ (eq_sym Hc) Hf2)
        as (l2' & Hf2' & Hc2).
      rewrite Hf2' in Hob2. injection Hc2 as _ _ Hb. subst block2.
      simpl. rewrite Hb. subst vt0.
      rewrite cache_get_byElem_halves by exact Hn1.
      eexists. reflexivity.
    + apply probe_None in Hp2.
      rewrite (list_find_hits_content_None _ _ _ (eq_sym Hc) Hp2) in Hob2.
      simpl.
      destruct (fetch_success newTag
                  (wrap64 (wrap64 (address + (64 - offset)) - newOffset)) 0
                  (8 - Z.to_nat (64 - offset)) (Z.to_nat (64 - offset))
                  (cache_get_byElem vt0
                     (drop (Z.to_nat offset) (cacheBlock l1))
                     (Z.to_nat (64 - offset)) 0)
                  _ block2 Hok1 Hob2) as (m' & Hf & _).
      rewrite Hf. simpl. subst vt0.
      rewrite cache_get_byElem_halves by exact Hn1.
      eexists. reflexivity.
  - apply probe_None in Hp1. rewrite Hp1 in Hob1.
    destruct (probe newTag _ _ _ _ _) as [[s2 vt2]|] eqn:Hp2.
    + pose proof (probe_keeps_shape _ _ _ _ _ _ _ _ Hp2) as Hshape2.
      apply probe_Some in Hp2 as (j & l2 & Hf2 & _ & -> & ->).
      rewrite Hf2 in Hob2. subst block2.
      pose proof (keeps_shape_cache_ok _ _ Hok Hshape2) as Hok2.
      simpl.
      destruct (fetch_success t (wrap64 (address - offset)) (Z.to_nat offset)
                  (Z.to_nat (64 - offset)) 0
                  (cache_get_byElem vt0 (drop 0 (cacheBlock l2))
                     (8 - Z.to_nat (64 - offset)) (Z.to_nat (64 - offset)))
                  _ block1 Hok2 Hob1) as (m' & Hf & _).
      rewrite Hf. simpl. subst vt0.
      rewrite cache_get_byElem_halves_swapped by exact Hn1.
      eexists. reflexivity.
    + apply probe_None in Hp2. rewrite Hp2 in Hob2. simpl.
      destruct (fetch_success t (wrap64 (address - offset)) (Z.to_nat offset)
                  (Z.to_nat (64 - offset)) 0 vt0
                  m block1 Hok Hob1) as (m1 & Hf1 & Hshape1 & _).
      rewrite Hf1. simpl.
      pose proof (keeps_shape_cache_ok _ _ Hok Hshape1) as Hok1.
      destruct (fetch_success newTag
                  (wrap64 (wrap64 (address + (64 - offset)) - newOffset)) 0
                  (8 - Z.to_nat (64 - offset)) (Z.to_nat (64 - offset))
                  (cache_get_byElem vt0
                     (drop (Z.to_nat offset) block1)
                     (Z.to_nat (64 - offset)) 0)
                  m1 block2 Hok1 Hob2) as (m2 & Hf2 & _).
      rewrite Hf2. simpl. subst vt0.
      rewrite cache_get_byElem_halves by exact Hn1.
      eexists. reflexivity.
Qed.
Lemma second_eviction_spares (set1 : list cache_line) i1 l1 newTag e2 set2 le2
    buffer2 :
  times_ok set1 → 2 ≤ numOfLines set1 ≤ 2 ^ 32 →
  set1 !! i1 = Some l1 → time l1 = 0 →
  findEvict set1 newTag = Some (e2, set2) → set1 !! e2 = Some le2 →
  ∃ l1', refilled set2 e2 newTag le2 buffer2 !! i1 = Some l1'
         ∧ content l1' = content l1 ∧ time l1' = 1.
Proof.
  intros Hok Hn Hl1 Ht1 Hev Hle2.
  destruct (findEvict_Some _ _ _ _ Hev) as (_ & le & Hle & Ht & _).
  assert (le = le2) by congruence. subst le.
  assert (Hte2 : time le2 = numOfLines set1 - 1).
  { rewrite Ht. unfold wrap32. apply Z.mod_small. lia. }
  assert (Hne : i1 ≠ e2).
  { intros ->. assert (l1 = le2) by congruence. subst l1. lia. }
  rewrite (refilled_lookup _ _ _ _ _ _ _ Hev Hle2).
  destruct (decide (i1 = e2)); [congruence|]. rewrite Hl1. simpl.
  eexists. split; [reflexivity|]. split; [apply content_aged|].
  rewrite time_aged, Ht1, Hte2.
  destruct (Z.ltb_spec 0 (numOfLines set1 - 1)); [reflexivity | lia].
Qed.

Lemma first_half_lines_spec (m : machine World) t blockAddress block1 :
  cache_ok m →
  obtainable memget t blockAddress block1 (lines m) →
  ∃ i1 set1 l1,
    first_half_lines t block1 (lines m) = Some (i1, set1)
    ∧ set1 !! i1 = Some l1
    ∧ holds t l1 ∧ cacheBlock l1 = block1 ∧ time l1 = 0.
Proof.
  intros Hok Hob. unfold first_half_lines, obtainable in *.
  destruct (list_find (hits t) (lines m)) as [[i l]|] eqn:Hf.
  - apply list_find_Some in Hf as (Hl & [Hv Hg] & _).
    exists i, (setLRU (lines m) i), (with_time 0 l).
    split; [reflexivity|].
    split; [rewrite (setLRU_lookup _ _ _ _ Hl), Hl;
            destruct (decide (i = i)); [reflexivity | congruence]|].
    split; [|split; [exact Hob | reflexivity]].
    split; [exact Hv|]. simpl. rewrite <- Hg. symmetry.
    unfold wrap32. apply Z.mod_small.
    destruct Hok as (_ & _ & _ & Htags). apply (Htags i l Hl).
  - destruct (cache_ok_victim m t Hok) as (e & set1 & le & Hev & Hle & _).
    rewrite Hev. simpl. rewrite Hle. simpl.
    exists e, (refilled set1 e t le block1),
           (with_cacheBlock block1 (install t le)).
    split; [reflexivity|].
    split; [rewrite (refilled_lookup _ _ _ _ _ _ _ Hev Hle);
            destruct (decide (e = e)); [reflexivity | congruence]|].
    split; [split; [simpl; lia | reflexivity]|].
    split; reflexivity.
Qed.

(** C6: a crossing request whose first block is obtained (by a hit, or by an
    eviction and a successful [memget]) and whose second block misses and
    cannot be read returns 0 without writing [*value]. The line array it
    leaves is the one the first half produced, [set1], with the eviction for
    the second half applied on top: nothing is rolled back. With two lines or
    more the line of the first half is not the second victim, so it keeps
    its valid flag, the tag of the first half and the block obtained, its
    time now 1. *)
Theorem crossing_second_read_fails address (m : machine World) offset t
    newOffset newTag block1 :
  cache_ok m →
  address_decomposer address = (offset, t) →
  64 < offset + 8 →
  address_decomposer (wrap64 (address + (64 - offset))) = (newOffset, newTag) →
  obtainable memget t (wrap64 (address - offset)) block1 (lines m) →
  list_find (hits newTag) (lines m) = None →
  (∀ old w,
     (memget (wrap64 (wrap64 (address + (64 - offset)) - newOffset)) old
             sizeOfBlock w).1.1 = false) →
  ∃ i1 set1 m',
    cache_get memget address m = Some (0, None, m')
    ∧ first_half_lines t block1 (lines m) = Some (i1, set1)
    ∧ (∃ l1, set1 !! i1 = Some l1
             ∧ holds t l1 ∧ cacheBlock l1 = block1 ∧ time l1 = 0)
    ∧ (∃ e2 set2 le2 buffer2,
         findEvict set1 newTag = Some (e2, set2)
         ∧ set1 !! e2 = Some le2
         ∧ lines m' = refilled set2 e2 newTag le2 buffer2)
    ∧ (2 ≤ numOfLines (lines m) →
       ∃ l1, lines m' !! i1 = Some l1
             ∧ holds t l1 ∧ cacheBlock l1 = block1 ∧ time l1 = 1).
Proof.
  intros Hok Hdec Hcross Hdec2 Hob1 Hmiss2 Hfail.
  pose proof (crossing_offset _ _ _ Hdec Hcross) as Hrange.
  destruct (cache_ok_times_ok m Hok) as (Hinit & _ & _).
  destruct (first_half_lines_spec m t _ block1 Hok Hob1)
    as (i1 & set1 & l1 & Hfh & Hl1 & Hholds1 & Hb1 & Ht1).
  (* the machine once the first half is resolved *)
  assert (Hfirst : ∃ m1 : machine World,
            lines m1 = set1 ∧ cache_ok m1
            ∧ numOfLines (lines m1) = numOfLines (lines m)
            ∧ cache_get memget address m
              = fetch memget newTag
                  (wrap64 (wrap64 (address + (64 - offset)) - newOffset)) 0
                  (Z.to_nat (8 - (64 - offset))) (Z.to_nat (64 - offset))
                  (cache_get_byElem (replicate 8 x00)
                     (drop (Z.to_nat offset) block1)
                     (Z.to_nat (64 - offset)) 0) m1
                ≫= (λ '(ok2, valueTemp, m0),
                      if negb ok2 then Some (0, None, m0)
                      else Some (0, Some (reverse_endian valueTemp), m0))).
  { unfold cache_get. rewrite (cache_get_initialized m Hinit), Hdec.
    destruct (Z.leb_spec (offset + 8) sizeOfBlock) as [Hle|_];
      [unfold sizeOfBlock in Hle; lia|].
    unfold sizeOfBlock. rewrite Hdec2.
    unfold obtainable in Hob1. unfold first_half_lines in Hfh.
    remember (replicate 8 x00) as vt0 eqn:Hvt0.
    destruct (list_find (hits t) (lines m)) as [[i l]|] eqn:Hf1.
    - injection Hfh as <- <-. subst block1.
      unfold probe at 1. rewrite Hf1. simpl.
      assert (Hshape : keeps_shape m (with_lines (setLRU (lines m) i) m)).
      { apply (probe_keeps_shape t 0 0 0 m [] _ []).
        unfold probe. rewrite Hf1. reflexivity. }
      assert (Hnone : probe newTag 0 (Z.to_nat (8 - (64 - offset)))
                        (Z.to_nat (64 - offset))
                        (lines (with_lines (setLRU (lines m) i) m))
                        (cache_get_byElem vt0 (drop (Z.to_nat offset) (cacheBlock l))
                           (Z.to_nat (64 - offset)) 0) = None).
      { apply probe_None.
        apply (list_find_hits_content_None newTag (lines m)); [|exact Hmiss2].
        symmetry. apply setLRU_content. }
      rewrite Hnone. simpl.
      exists (with_lines (setLRU (lines m) i) m).
      split; [reflexivity|].
      split; [eapply keeps_shape_cache_ok; eauto|].
      split; [unfold numOfLines; rewrite (proj1 Hshape); reflexivity|].
      reflexivity.
    - unfold probe at 1. rewrite Hf1. simpl.
      unfold probe at 1. rewrite Hmiss2. simpl.
      destruct (fetch_eq t (wrap64 (address - offset)) (Z.to_nat offset)
                  (Z.to_nat (64 - offset)) 0 vt0 m Hok)
        as (e & s1 & le & Hev & Hle & _ & Hfetch).
      rewrite Hev in Hfh. simpl in Hfh. rewrite Hle in Hfh. simpl in Hfh.
      injection Hfh as <- <-.
      destruct (memget (wrap64 (address - offset)) (cacheBlock le) sizeOfBlock
                  (backing m)) as [[ok buffer] w] eqn:Hmem.
      pose proof (Hob1 (cacheBlock le) (backing m)) as Hgood.
      rewrite Hmem in Hgood. simpl in Hgood. injection Hgood as -> ->.
      pose proof (Hfetch true block1 w eq_refl) as Hf'.
      set (m1 := {| F_memory := {| initialized := initialized (F_memory m);
                                   cacheSetArray := refilled s1 e t le block1 |};
                    backing := w;
                    memget_calls := memget_calls m ++ [wrap64 (address - offset)] |})
        in Hf'.
      rewrite Hf'. simpl.
      exists m1. split; [reflexivity|].
      pose proof (fetch_keeps_shape memget _ _ _ _ _ _ _ _ _ _ Hf') as Hshape.
      split; [eapply keeps_shape_cache_ok; eauto|].
      split; [unfold numOfLines; rewrite (proj1 Hshape); reflexivity|].
      reflexivity. }
  destruct Hfirst as (m1 & Hlines1 & Hok1 & Hnum1 & Hget).
  rewrite Hget. clear Hget.
  destruct (fetch_eq newTag
              (wrap64 (wrap64 (address + (64 - offset)) - newOffset)) 0
              (Z.to_nat (8 - (64 - offset))) (Z.to_nat (64 - offset))
              (cache_get_byElem (replicate 8 x00) (drop (Z.to_nat offset) block1)
                 (Z.to_nat (64 - offset)) 0) m1 Hok1)
    as (e2 & set2 & le2 & Hev2 & Hle2 & _ & Hfetch2).
  destruct (memget (wrap64 (wrap64 (address + (64 - offset)) - newOffset))
              (cacheBlock le2) sizeOfBlock (backing m1))
    as [[ok2 buffer2] w2] eqn:Hmem2.
  pose proof (Hfail (cacheBlock le2) (backing m1)) as Hbad.
  rewrite Hmem2 in Hbad. simpl in Hbad. subst ok2.
  rewrite (Hfetch2 false buffer2 w2 eq_refl). simpl.
  rewrite Hlines1 in Hev2, Hle2.
  exists i1, set1. eexists. split; [reflexivity|].
  split; [exact Hfh|]. split; [eauto|].
  split; [exists e2, set2, le2, buffer2; auto|].
  intros Hn.
  destruct (cache_ok_times_ok m1 Hok1) as (_ & Htimes1 & Hn1).
  rewrite Hlines1 in Htimes1. rewrite Hnum1 in Hn1.
  assert (Hnset : numOfLines set1 = numOfLines (lines m))
    by (rewrite <- Hlines1; exact Hnum1).
  destruct (second_eviction_spares set1 i1 l1 newTag e2 set2 le2 buffer2
              Htimes1 ltac:(lia) Hl1 Ht1 Hev2 Hle2)
    as (l1' & Hl1' & Hc & Ht1').
  exists l1'. unfold lines at 1. simpl. split; [exact Hl1'|].
  injection Hc as Hv Hg Hb. destruct Hholds1 as [Hv1 Hg1].
  split; [split; congruence|]. split; congruence.
Qed.

End Crossing.

(** * Worked instances on the fake memory *)

(** [setLRU] on three lines with times 0, 1, 2: touching the last one. *)
Lemma setLRU_touch_witness :
  (time <$> setLRU (lines (boot (blank_machine 3))) 2) !! 2%nat = Some 0.
Proof.
  assert (H : Forall (λ l, 0 ≤ time l < 2 ^ 32) (lines (boot (blank_machine 3)))).
  { unfold lines, boot, blank_machine. simpl.
    repeat (constructor; [vm_compute; split; [discriminate | reflexivity]|]).
    constructor. }
  exact (proj1 (setLRU_touch (lines (boot (blank_machine 3))) 2
                  {| time := 2; valid := 0; tag := 0;
                     cacheBlock := replicate 64 x00 |} eq_refl H)).
Defined.

(** A hit on the line a first request installed. *)
Lemma cache_get_hit_frame_witness :
  ∃ m,
    run_gets (fake_memget []) [8] (blank_machine 2) = Some m
    ∧ ∃ v m',
        cache_get (fake_memget []) 16 m = Some (1, Some v, m')
        ∧ content <$> lines m' = content <$> lines m
        ∧ memget_calls m' = memget_calls m
        ∧ backing m' = backing m
        ∧ initialized (F_memory m') = initialized (F_memory m).
Proof.
  eexists. split; [vm_compute; reflexivity|].
  eapply (cache_get_hit_frame (fake_memget []) 16 _ 16 0 1).
  - vm_compute. discriminate.
  - vm_compute. reflexivity.
  - lia.
  - vm_compute. reflexivity.
  - reflexivity.
  - reflexivity.
Defined.

Lemma boot_blank_cache_ok (n : nat) :
  (0 < n)%nat → Z.of_nat n < 2 ^ 32 → cache_ok (boot (blank_machine n)).
Proof.
  intros Hpos Hlt. apply boot_cache_ok.
  unfold numOfLines, lines, blank_machine. simpl. rewrite length_replicate. lia.
Defined.

(** A run with a crossing request, a tag of 2^32 and a failing read. *)
Lemma lru_permutation_invariant_witness :
  ∃ m,
    run_gets (fake_memget [64]) [8; 60; 2 ^ 38; 8] (boot (blank_machine 3))
    = Some m
    ∧ Permutation (time <$> lines m)
                  (Z.of_nat <$> seq 0 (Z.to_nat (numOfLines (lines m)))).
Proof.
  eexists. split; [vm_compute; reflexivity|].
  apply (proj2 (proj2 (proj2 (lru_permutation_invariant (fake_memget [64]))))).
  apply (run_gets_reachable (fake_memget [64]) [8; 60; 2 ^ 38; 8]
           (boot (blank_machine 3))).
  - apply reachable_boot. vm_compute. reflexivity.
  - vm_compute. reflexivity.
Defined.


(** A failed read of block 0, then a request for the same tag. *)
Lemma failed_fill_keeps_line_witness :
  ∃ e l' m' m'',
    cache_get (fake_memget [0]) 0 (boot (blank_machine 2)) = Some (0, None, m')
    ∧ lines m' !! e = Some l'
    ∧ tag l' = 0 ∧ valid l' = 1 ∧ time l' = 0
    ∧ cache_get (fake_memget [0]) 8 m'
      = Some (1, Some (reverse_endian (bytes_from (cacheBlock l') 8 8)), m'')
    ∧ memget_calls m'' = memget_calls m'.
Proof.
  destruct (failed_fill_keeps_line (fake_memget [0]) 0 (boot (blank_machine 2))
              0 0 (boot_blank_cache_ok 2 ltac:(lia) ltac:(lia)) eq_refl
              ltac:(lia) eq_refl (λ old, eq_refl))
    as (e & l' & m' & Hget & _ & Hl' & Htag & Hvalid & Htime & _ & _ & Hhit).
  destruct (Hhit ltac:(lia) 8 8 eq_refl ltac:(lia)) as (m'' & Hget2 & Hcalls & _).
  exists e, l', m', m''. auto 10.
Defined.

(** The first two requests for address 8 on a blank fast memory. *)
Lemma round_trip_witness :
  ∃ m1 m2,
    cache_get (fake_memget []) 8 (blank_machine 2)
    = Some (1, Some (reverse_endian (bytes_from (fake_block 0) 8 8)), m1)
    ∧ memget_calls m1 = [0]
    ∧ cache_get (fake_memget []) 8 m1
      = Some (1, Some (reverse_endian (bytes_from (fake_block 0) 8 8)), m2)
    ∧ memget_calls m2 = memget_calls m1.
Proof.
  apply (round_trip (fake_memget []) 8 (blank_machine 2) (blank_machine 2) 8 0
           (fake_block 0)).
  - left. split; reflexivity.
  - vm_compute. split; reflexivity.
  - reflexivity.
  - lia.
  - lia.
  - intros old. reflexivity.
Defined.

(** A request for tag 2^32 on a cold cache. *)
Lemma truncated_tag_witness :
  ∃ e r v m1 l1 r' v' m2,
    cache_get (fake_memget []) (2 ^ 38) (boot (blank_machine 2)) = Some (r, v, m1)
    ∧ lines m1 !! e = Some l1 ∧ valid l1 = 1 ∧ tag l1 = 0
    ∧ cache_get (fake_memget []) (2 ^ 38) m1 = Some (r', v', m2)
    ∧ memget_calls m2 = memget_calls m1 ++ [2 ^ 38].
Proof.
  destruct (truncated_tag (fake_memget []) (2 ^ 38) (boot (blank_machine 2))
              0 (2 ^ 32) (boot_blank_cache_ok 2 ltac:(lia) ltac:(lia)) eq_refl
              ltac:(lia) ltac:(lia))
    as (_ & e & r & v & m1 & l1 & Hget & _ & Hl1 & Hvalid & Htag & _
        & (r' & v' & m2 & Hget2 & Hcalls) & _).
  exists e, r, v, m1, l1, r', v', m2. auto 10.
Defined.

(** Address 60 with both blocks readable, and with block 64 unreadable. *)
Lemma crossing_word_witness :
  ∃ m',
    cache_get (fake_memget []) 60 (boot (blank_machine 2))
    = Some (0,
            Some (reverse_endian
                    (bytes_from (fake_block 0) 60 4 ++ bytes_from (fake_block 64) 0 4)),
            m').
Proof.
  apply (crossing_word (fake_memget []) 60 (boot (blank_machine 2)) 60 0 0 1
           (fake_block 0) (fake_block 64)
           (boot_blank_cache_ok 2 ltac:(lia) ltac:(lia)) eq_refl ltac:(lia)
           eq_refl).
  - unfold obtainable. rewrite boot_no_hit. intros old w. reflexivity.
  - unfold obtainable. rewrite boot_no_hit. intros old w. reflexivity.
Defined.

Lemma crossing_second_read_fails_witness :
  ∃ i1 m' l1,
    cache_get (fake_memget [64]) 60 (boot (blank_machine 2)) = Some (0, None, m')
    ∧ lines m' !! i1 = Some l1
    ∧ holds 0 l1 ∧ cacheBlock l1 = fake_block 0 ∧ time l1 = 1.
Proof.
  assert (Hob : obtainable (fake_memget [64]) 0 (wrap64 (60 - 60)) (fake_block 0)
                  (lines (boot (blank_machine 2)))).
  { unfold obtainable. rewrite boot_no_hit. intros old w. reflexivity. }
  destruct (crossing_second_read_fails (fake_memget [64]) 60
              (boot (blank_machine 2)) 60 0 0 1 (fake_block 0)
              (boot_blank_cache_ok 2 ltac:(lia) ltac:(lia)) eq_refl ltac:(lia)
              eq_refl Hob (boot_no_hit _ _) (λ old w, eq_refl))
    as (i1 & set1 & m' & Hget & _ & _ & _ & Hkept).
  destruct (Hkept ltac:(vm_compute; discriminate)) as (l1 & Hl1 & Hh & Hb & Ht).
  exists i1, m', l1. auto.
Defined.

(** ** Where the 32-bit tag field shows *)

(** Address 2^38 (tag 2^32) on a blank fast memory whose backing memory holds
    the block: both calls return 1 with the same word, but the repeated call
    does not hit; it goes through [memget] again. *)
Lemma round_trip_high_tag_trace :
  ∃ v m1 m2,
    cache_get (fake_memget []) (2 ^ 38) (blank_machine 2) = Some (1, Some v, m1)
    ∧ cache_get (fake_memget []) (2 ^ 38) m1 = Some (1, Some v, m2)
    ∧ list_find (hits (2 ^ 38 / 64)) (lines m1) = None
    ∧ memget_calls m1 = [2 ^ 38]
    ∧ memget_calls m2 = [2 ^ 38; 2 ^ 38].
Proof.
  eexists _, _, _.
  split; [vm_compute; reflexivity|]. split; [vm_compute; reflexivity|].
  split; [vm_compute; reflexivity|]. split; vm_compute; reflexivity.
Qed.

(** C2 as stated, for every non-crossing address, fails: without the bound
    on the tag the repeated call is not served by a hit. *)
Lemma round_trip_high_tag_counterexample :
  ¬ (∀ address (arena m0 : machine nat) offset t buffer,
       (m0 = arena ∧ initialized (F_memory arena) = 0) ∨ m0 = boot arena →
       0 < numOfLines (lines arena) < 2 ^ 32 →
       address_decomposer address = (offset, t) →
       offset + 8 ≤ 64 →
       (∀ old, (fake_memget [] (wrap64 (address - offset)) old sizeOfBlock
                  (backing m0)).1 = (true, buffer)) →
       ∃ m1 m2,
         cache_get (fake_memget []) address m0
         = Some (1, Some (reverse_endian (bytes_from buffer (Z.to_nat offset) 8)),
                 m1)
         ∧ memget_calls m1 = memget_calls m0 ++ [wrap64 (address - offset)]
         ∧ cache_get (fake_memget []) address m1
           = Some (1, Some (reverse_endian (bytes_from buffer (Z.to_nat offset) 8)),
                   m2)
         ∧ memget_calls m2 = memget_calls m1).
Proof.
  intros Hclaim.
  destruct (Hclaim (2 ^ 38) (blank_machine 2) (blank_machine 2) 0 (2 ^ 32)
              (fake_block (2 ^ 38)) (or_introl (conj eq_refl eq_refl))
              ltac:(vm_compute; split; reflexivity) eq_refl ltac:(lia)
              (λ old, eq_refl))
    as (m1 & m2 & H1 & _ & H2 & Hcalls).
  destruct round_trip_high_tag_trace as (v & m1' & m2' & E1 & E2 & _ & C1 & C2).
  rewrite E1 in H1. assert (m1' = m1) by congruence. subst m1'.
  rewrite E2 in H2. assert (m2' = m2) by congruence. subst m2'.
  rewrite C1, C2 in Hcalls. discriminate Hcalls.
Qed.

(** Address 2^38 with a failing read: the evicted line ends with tag 0, not
    the requested tag 2^32, and the next request for the address misses and
    calls [memget] again. *)
Lemma failed_fill_high_tag_trace :
  ∃ l1 m1 m2,
    list_find (hits (2 ^ 38 / 64)) (lines (boot (blank_machine 2))) = None
    ∧ cache_get (fake_memget [2 ^ 38]) (2 ^ 38) (boot (blank_machine 2))
      = Some (0, None, m1)
    ∧ find_evicted (lines (boot (blank_machine 2))) = Some 1%nat
    ∧ lines m1 !! 1%nat = Some l1
    ∧ tag l1 = 0
    ∧ list_find (hits (2 ^ 38 / 64)) (lines m1) = None
    ∧ cache_get (fake_memget [2 ^ 38]) (2 ^ 38) m1 = Some (0, None, m2)
    ∧ memget_calls m2 = memget_calls m1 ++ [2 ^ 38].
Proof.
  eexists _, _, _.
  split; [vm_compute; reflexivity|]. split; [vm_compute; reflexivity|].
  split; [vm_compute; reflexivity|]. split; [vm_compute; reflexivity|].
  split; [reflexivity|].
  split; [vm_compute; reflexivity|]. split; vm_compute; reflexivity.
Qed.

(** C5 as stated fails: the tag of the evicted line is not always the
    requested tag. *)
Lemma failed_fill_high_tag_counterexample :
  ¬ (∀ address (m : machine nat) offset t,
       cache_ok m →
       address_decomposer address = (offset, t) →
       offset + 8 ≤ 64 →
       list_find (hits t) (lines m) = None →
       (∀ old, (fake_memget [2 ^ 38] (wrap64 (address - offset)) old sizeOfBlock
                  (backing m)).1.1 = false) →
       ∃ e l' m',
         cache_get (fake_memget [2 ^ 38]) address m = Some (0, None, m')
         ∧ find_evicted (lines m) = Some e
         ∧ lines m' !! e = Some l'
         ∧ tag l' = t ∧ valid l' = 1 ∧ time l' = 0).
Proof.
  intros Hclaim.
  destruct failed_fill_high_tag_trace
    as (l1 & m1 & m2 & Hnone & E1 & Ev & Hl1 & Htag & _).
  destruct (Hclaim (2 ^ 38) (boot (blank_machine 2)) 0 (2 ^ 32)
              (boot_blank_cache_ok 2 ltac:(lia) ltac:(lia)) eq_refl ltac:(lia)
              Hnone (λ old, eq_refl))
    as (e & l' & m' & H1 & He & Hl' & Ht & _).
  rewrite E1 in H1. assert (m1 = m') by congruence. subst m'.
  rewrite Ev in He. assert (e = 1%nat) by congruence. subst e.
  rewrite Hl1 in Hl'. assert (l1 = l') by congruence. subst l'.
  rewrite Htag in Ht. discriminate Ht.
Qed.

(** Two lines, requests for addresses 64, 0 and then 2^38 (tag 2^32): the
    last one installs line 1 with stored tag 0, while line 0 already stores
    tag 0 for address 0. A request for address 0, whose tag is
    [2^32 mod 2^32], hits line 0, not the installed line, and is served the
    bytes of block 0, not those the installed line holds. *)
Lemma truncated_tag_alias_trace :
  ∃ m2 r v m3 l0 l1 m4,
    run_gets (fake_memget []) [64; 0] (boot (blank_machine 2)) = Some m2
    ∧ numOfLines (lines m2) = 2
    ∧ cache_get (fake_memget []) (2 ^ 38) m2 = Some (r, v, m3)
    ∧ find_evicted (lines m2) = Some 1%nat
    ∧ lines m3 !! 1%nat = Some l1
    ∧ list_find (hits 0) (lines m3) = Some (0%nat, l0)
    ∧ cache_get (fake_memget []) 0 m3
      = Some (1, Some (reverse_endian (bytes_from (cacheBlock l0) 0 8)), m4)
    ∧ reverse_endian (bytes_from (cacheBlock l0) 0 8)
      ≠ reverse_endian (bytes_from (cacheBlock l1) 0 8).
Proof.
  eexists _, _, _, _, _, _, _.
  split; [vm_compute; reflexivity|]. split; [vm_compute; reflexivity|].
  split; [vm_compute; reflexivity|]. split; [vm_compute; reflexivity|].
  split; [vm_compute; reflexivity|]. split; [vm_compute; reflexivity|].
  split; [vm_compute; reflexivity|]. vm_compute. discriminate.
Qed.

(** C10 as stated fails: the request for the tag [t mod 2^32] need not hit
    the line the first request installed, nor be served its bytes. *)
Lemma truncated_tag_alias_counterexample :
  ¬ (∀ address (m : machine nat) offset t,
       cache_ok m →
       address_decomposer address = (offset, t) →
       offset + 8 ≤ 64 →
       2 ^ 32 ≤ t →
       ∃ e r v m1 l1,
         cache_get (fake_memget []) address m = Some (r, v, m1)
         ∧ find_evicted (lines m) = Some e
         ∧ lines m1 !! e = Some l1
         ∧ ∀ address2 offset2,
             address_decomposer address2 = (offset2, t mod 2 ^ 32) →
             offset2 + 8 ≤ 64 →
             ∃ m2,
               cache_get (fake_memget []) address2 m1
               = Some (1,
                       Some (reverse_endian
                               (bytes_from (cacheBlock l1) (Z.to_nat offset2) 8)),
                       m2)).
Proof.
  intros Hclaim.
  destruct truncated_tag_alias_trace
    as (m2 & r & v & m3 & l0 & l1 & m4 & Hrun & Hn & E1 & Ev & Hl1 & _ & E2
        & Hneq).
  assert (Hok : cache_ok m2).
  { apply (reachable_cache_ok (fake_memget [])).
    - apply (run_gets_reachable (fake_memget []) [64; 0] (boot (blank_machine 2)));
        [|exact Hrun].
      apply reachable_boot. vm_compute. reflexivity.
    - lia. }
  destruct (Hclaim (2 ^ 38) m2 0 (2 ^ 32) Hok eq_refl ltac:(lia) ltac:(lia))
    as (e & r' & v' & m1 & l1' & H1 & He & Hl1' & Hserved).
  rewrite E1 in H1. assert (m3 = m1) by congruence. subst m1.
  rewrite Ev in He. assert (e = 1%nat) by congruence. subst e.
  rewrite Hl1 in Hl1'. assert (l1 = l1') by congruence. subst l1'.
  destruct (Hserved 0 0 eq_refl ltac:(lia)) as (m2' & H2).
  rewrite E2 in H2. change (Z.to_nat 0) with 0%nat in H2.
  apply Hneq. congruence.
Qed.



(** * Further properties of the code *)

(** ** Bytes and words *)

Lemma byte_to_Z_range b : 0 ≤ byte_to_Z b < 256.
Proof. unfold byte_to_Z. pose proof (Byte.to_N_bounded b). lia. Qed.

Lemma byte_to_Z_inj b1 b2 : byte_to_Z b1 = byte_to_Z b2 → b1 = b2.
Proof.
  unfold byte_to_Z. intros H. apply N2Z.inj in H.
  pose proof (Byte.of_to_N b1) as H1. pose proof (Byte.of_to_N b2) as H2.
  rewrite H in H1. congruence.
Qed.

Lemma shift_in_byte v b :
  0 ≤ v < 2 ^ 56 → 0 ≤ b < 256 →
  Z.lor (wrap64 (Z.shiftl v 8)) b = b + 256 * v.
Proof.
  intros Hv Hb. unfold wrap64.
  rewrite Z.shiftl_mul_pow2 by lia. rewrite Z.mod_small by lia.
  rewrite <- Z.add_nocarry_lor; [lia|].
  apply Z.bits_inj'. intros n Hn. rewrite Z.land_spec, Z.bits_0.
  destruct (Z.lt_ge_cases n 8).
  - change 256 with (2 ^ 8). rewrite Z.mul_pow2_bits_low by lia. reflexivity.
  - replace (Z.testbit b n) with false; [apply andb_false_r|].
    symmetry. apply (Z.bits_above_log2 b n); [lia|].
    destruct (Z.eq_dec b 0) as [->|]; [simpl; lia|].
    apply Z.log2_lt_pow2; [lia|].
    apply Z.lt_le_trans with (2 ^ 8); [lia|].
    apply Z.pow_le_mono_r; lia.
Qed.

Lemma little_endian_range (bs : list byte) :
  0 ≤ little_endian bs < 256 ^ Z.of_nat (length bs).
Proof.
  induction bs as [|b bs IH]; [simpl; lia|].
  cbn [length]. rewrite Nat2Z.inj_succ, Z.pow_succ_r by lia.
  change (little_endian (b :: bs)) with (byte_to_Z b + 256 * little_endian bs).
  pose proof (byte_to_Z_range b). lia.
Qed.

Lemma reverse_endian_horner (valueTemp : list byte) :
  reverse_endian valueTemp = little_endian (bytes_of valueTemp 8).
Proof.
  unfold reverse_endian, bytes_of. simpl.
  set (b0 := default x00 (valueTemp !! 0%nat)).
  set (b1 := default x00 (valueTemp !! 1%nat)).
  set (b2 := default x00 (valueTemp !! 2%nat)).
  set (b3 := default x00 (valueTemp !! 3%nat)).
  set (b4 := default x00 (valueTemp !! 4%nat)).
  set (b5 := default x00 (valueTemp !! 5%nat)).
  set (b6 := default x00 (valueTemp !! 6%nat)).
  set (b7 := default x00 (valueTemp !! 7%nat)).
  pose proof (byte_to_Z_range b0). pose proof (byte_to_Z_range b1).
  pose proof (byte_to_Z_range b2). pose proof (byte_to_Z_range b3).
  pose proof (byte_to_Z_range b4). pose proof (byte_to_Z_range b5).
  pose proof (byte_to_Z_range b6). pose proof (byte_to_Z_range b7).
  change (wrap64 (Z.shiftl 0 8)) with 0. rewrite Z.lor_0_l.
  repeat match goal with
         | |- context [Z.lor (wrap64 (Z.shiftl ?v 8)) ?b] =>
             rewrite (shift_in_byte v b) by lia
         end.
  lia.
Qed.

Lemma reverse_endian_range vt : 0 ≤ reverse_endian vt < 2 ^ 64.
Proof.
  rewrite reverse_endian_horner.
  pose proof (little_endian_range (bytes_of vt 8)) as H.
  change (length (bytes_of vt 8)) with 8%nat in H. exact H.
Qed.

(** X1: [reverse_endian] decodes the first eight bytes of its buffer as a
    little-endian number (a byte the buffer lacks counts as 0): byte 0 is
    the least significant. None of the eight shifts loses a bit, so the
    result is below 2^64. *)
Theorem reverse_endian_little_endian (valueTemp : list byte) :
  reverse_endian valueTemp = little_endian (bytes_of valueTemp 8)
  ∧ 0 ≤ reverse_endian valueTemp < 2 ^ 64.
Proof.
  split; [apply reverse_endian_horner|].
  rewrite reverse_endian_horner.
  pose proof (little_endian_range (bytes_of valueTemp 8)) as H.
  change (length (bytes_of valueTemp 8)) with 8%nat in H. exact H.
Qed.

Lemma bytes_of_whole (l : list byte) (n : nat) : length l = n → bytes_of l n = l.
Proof.
  intros <-. apply list_eq. intros i. unfold bytes_of.
  rewrite list_lookup_fmap.
  destruct (decide (i < length l)%nat) as [Hi|Hi].
  - rewrite lookup_seq_lt by lia. simpl.
    destruct (lookup_lt_is_Some_2 l i Hi) as [b ->]. reflexivity.
  - rewrite lookup_seq_ge by lia. rewrite lookup_ge_None_2 by lia. reflexivity.
Qed.

Lemma little_endian_inj (l1 l2 : list byte) :
  length l1 = length l2 → little_endian l1 = little_endian l2 → l1 = l2.
Proof.
  revert l2. induction l1 as [|a l1 IH]; intros [|b l2] Hlen Heq;
    try discriminate; [reflexivity|].
  simpl in Heq. pose proof (byte_to_Z_range a). pose proof (byte_to_Z_range b).
  assert (byte_to_Z a = byte_to_Z b ∧ little_endian l1 = little_endian l2)
    as [Hab Hrest] by (unfold little_endian in *; lia).
  f_equal; [apply byte_to_Z_inj; exact Hab|].
  apply IH; [simpl in Hlen; lia | exact Hrest].
Qed.

(** X2: [reverse_endian] loses nothing: two buffers of eight bytes with the
    same word are the same buffer. *)
Theorem reverse_endian_inj (vt1 vt2 : list byte) :
  length vt1 = 8%nat → length vt2 = 8%nat →
  reverse_endian vt1 = reverse_endian vt2 → vt1 = vt2.
Proof.
  intros H1 H2 Heq.
  rewrite (reverse_endian_horner vt1) in Heq.
  rewrite (reverse_endian_horner vt2) in Heq.
  rewrite (bytes_of_whole vt1 8 H1), (bytes_of_whole vt2 8 H2) in Heq.
  apply little_endian_inj; congruence.
Qed.

Lemma cache_get_byElem_length vt block n start :
  length (cache_get_byElem vt block n start) = length vt.
Proof.
  unfold cache_get_byElem. induction n as [|n IH]; [reflexivity|].
  rewrite seq_S, foldl_snoc. simpl. rewrite length_insert. exact IH.
Qed.

Lemma cache_get_byElem_lookup vt block n start k :
  cache_get_byElem vt block n start !! k
  = if decide (start ≤ k < start + n ∧ k < length vt)%nat
    then Some (default x00 (block !! (k - start)%nat))
    else vt !! k.
Proof.
  unfold cache_get_byElem. induction n as [|n IH].
  - simpl. case_decide; [lia | reflexivity].
  - rewrite seq_S, foldl_snoc. simpl.
    pose proof (cache_get_byElem_length vt block n start) as Hlen.
    unfold cache_get_byElem in Hlen.
    destruct (decide (k = n + start)%nat) as [->|Hne].
    + destruct (decide (n + start < length vt)%nat) as [Hin|Hout].
      * rewrite list_lookup_insert_eq by (rewrite Hlen; lia).
        clear IH. case_decide; [|lia].
        replace (n + start - start)%nat with n by lia. reflexivity.
      * rewrite list_insert_ge by (rewrite Hlen; lia). rewrite IH. clear IH.
        repeat case_decide; try lia; reflexivity.
    + rewrite list_lookup_insert_ne by lia. rewrite IH. clear IH.
      repeat case_decide; try lia; reflexivity.
Qed.

(** X3: [cache_get_byElem] with [n] elements and start location [start],
    when the [n] bytes fit in the buffer, overwrites exactly the bytes
    [start .. start+n-1] of the buffer with the first [n] bytes of the block
    (a byte the block lacks counts as 0) and leaves every other byte. *)
Theorem cache_get_byElem_splice vt block n start :
  (start + n ≤ length vt)%nat →
  cache_get_byElem vt block n start
  = take start vt ++ bytes_of block n ++ drop (start + n) vt.
Proof.
  intros Hb. apply list_eq. intros k. rewrite cache_get_byElem_lookup.
  destruct (decide (k < start)%nat) as [H1|H1].
  - rewrite lookup_app_l by (rewrite length_take; lia).
    rewrite lookup_take_lt by lia.
    case_decide; [lia | reflexivity].
  - rewrite lookup_app_r by (rewrite length_take; lia).
    rewrite length_take. replace (start `min` length vt)%nat with start by lia.
    assert (Hlen : length (bytes_of block n) = n)
      by (unfold bytes_of; rewrite length_fmap, length_seq; reflexivity).
    destruct (decide (k < start + n)%nat) as [H2|H2].
    + rewrite lookup_app_l by lia.
      case_decide; [|lia].
      unfold bytes_of. rewrite list_lookup_fmap, lookup_seq_lt by lia.
      reflexivity.
    + rewrite lookup_app_r by lia. rewrite Hlen, lookup_drop.
      case_decide; [lia|].
      f_equal. lia.
Qed.

(** ** A call as a sequence of hits and fills *)

Section Trace.
Context {World : Type}.
Variable memget : Z → list byte → Z → World → bool * list byte * World.

Lemma probe_touches t from n start (m : machine World) vt set' vt' :
  probe t from n start (lines m) vt = Some (set', vt') →
  touches t m (with_lines set' m).
Proof.
  intros Hp. apply probe_Some in Hp as (i & line & Hf & _ & -> & _).
  exists i, line. auto.
Qed.

Lemma fetch_fills t blockAddress from n start vt (m : machine World) ok vt' m' :
  fetch memget t blockAddress from n start vt m = Some (ok, vt', m') →
  fills memget t blockAddress ok m m'.
Proof.
  intros Hf.
  apply fetch_Some in Hf as (e & set1 & l1 & buffer & w & Hev & Hl1 & Hmem & _ & ->).
  destruct (findEvict_Some _ _ _ _ Hev) as (_ & le & Hle & _ & _ & Hlk).
  rewrite Hlk, Hle in Hl1. destruct (decide (e = e)); [|congruence].
  simpl in Hl1. injection Hl1 as <-.
  exists e, set1, le, buffer, w. auto.
Qed.

Lemma cache_get_plain address (m : machine World) offset t r v m' :
  initialized (F_memory m) ≠ 0 →
  address_decomposer address = (offset, t) →
  offset + 8 ≤ 64 →
  cache_get memget address m = Some (r, v, m') →
  plain_trace memget t (wrap64 (address - offset)) m r v m'.
Proof.
  intros Hinit Hdec Hoff. unfold cache_get.
  rewrite (cache_get_initialized m Hinit), Hdec.
  destruct (Z.leb_spec (offset + 8) sizeOfBlock) as [_|Hgt];
    [|unfold sizeOfBlock in Hgt; lia].
  destruct (probe _ _ _ _ _ _) as [[set vt]|] eqn:Hp.
  - intros [= <- <- <-]. left. split; [eapply probe_touches; eauto|].
    split; [reflexivity | discriminate].
  - apply probe_None in Hp.
    destruct (fetch _ _ _ _ _ _ _ _) as [[[ok vt] m1]|] eqn:Hf; [|discriminate].
    apply fetch_fills in Hf. simpl.
    destruct ok; intros [= <- <- <-]; right; (split; [exact Hp|]);
      eexists; (split; [exact Hf|]); (split; [reflexivity|]); split; congruence.
Qed.

Lemma cache_get_crossing address (m : machine World) offset t newOffset newTag
    r v m' :
  initialized (F_memory m) ≠ 0 →
  address_decomposer address = (offset, t) →
  64 < offset + 8 →
  address_decomposer (wrap64 (address + (64 - offset))) = (newOffset, newTag) →
  cache_get memget address m = Some (r, v, m') →
  r = 0
  ∧ crossing_trace memget t newTag (wrap64 (address - offset))
      (wrap64 (wrap64 (address + (64 - offset)) - newOffset)) m v m'.
Proof.
  intros Hinit Hdec Hcross Hdec2. unfold cache_get, crossing_trace.
  rewrite (cache_get_initialized m Hinit), Hdec.
  destruct (Z.leb_spec (offset + 8) sizeOfBlock) as [Hle|_];
    [unfold sizeOfBlock in Hle; lia|].
  unfold sizeOfBlock. rewrite Hdec2.
  destruct (probe t _ _ _ _ _) as [[set1 vt1]|] eqn:Hp1.
  - apply probe_touches in Hp1.
    destruct (probe newTag _ _ _ _ _) as [[set2 vt2]|] eqn:Hp2.
    + apply probe_touches in Hp2. simpl. intros [= <- <- <-].
      split; [reflexivity|].
      eexists true, true, true, true, _, _, _.
      split; [exact Hp1|]. split; [exact Hp2|]. split; [auto|].
      split; [auto|]. split; congruence.
    + apply probe_None in Hp2. simpl.
      destruct (fetch _ newTag _ _ _ _ _ _) as [[[ok vt] m2]|] eqn:Hf2;
        [|discriminate].
      apply fetch_fills in Hf2. simpl.
      destruct ok; intros [= <- <- <-]; (split; [reflexivity|]).
      * eexists true, false, true, true, _, _, _.
        split; [exact Hp1|]. split; [auto|]. split; [auto|].
        split; [exact Hf2|]. split; congruence.
      * eexists true, false, true, false, _, _, _.
        split; [exact Hp1|]. split; [auto|]. split; [auto|].
        split; [exact Hf2|]. split; congruence.
  - apply probe_None in Hp1.
    destruct (probe newTag _ _ _ _ _) as [[set2 vt2]|] eqn:Hp2.
    + apply probe_touches in Hp2. simpl.
      destruct (fetch _ t _ _ _ _ _ _) as [[[ok vt] m2]|] eqn:Hf1;
        [|discriminate].
      apply fetch_fills in Hf1. simpl.
      destruct ok; intros [= <- <- <-]; (split; [reflexivity|]).
      * eexists false, true, true, true, _, _, _.
        split; [auto|]. split; [exact Hp2|]. split; [exact Hf1|].
        split; [auto|]. split; congruence.
      * eexists false, true, false, true, _, _, _.
        split; [auto|]. split; [exact Hp2|]. split; [exact Hf1|]. auto.
    + apply probe_None in Hp2. simpl.
      destruct (fetch _ t _ _ _ _ _ _) as [[[ok vt] m1]|] eqn:Hf1;
        [|discriminate].
      apply fetch_fills in Hf1. simpl.
      destruct ok; simpl.
      * destruct (fetch _ newTag _ _ _ _ _ _) as [[[ok2 vt2] m2]|] eqn:Hf2;
          [|discriminate].
        apply fetch_fills in Hf2. simpl.
        destruct ok2; intros [= <- <- <-]; (split; [reflexivity|]).
        -- eexists false, false, true, true, _, _, _.
           split; [auto|]. split; [auto|]. split; [exact Hf1|].
           split; [exact Hf2|]. split; congruence.
        -- eexists false, false, true, false, _, _, _.
           split; [auto|]. split; [auto|]. split; [exact Hf1|].
           split; [exact Hf2|]. split; congruence.
      * intros [= <- <- <-]. split; [reflexivity|].
        eexists false, false, false, true, _, _, _.
        split; [auto|]. split; [auto|]. split; [exact Hf1|]. auto.
Qed.
End Trace.

(** ** Edge cases *)

(** X4: [findEvict] has a defined result exactly when some line has time
    [numOfLines - 1] (as an [unsigned int]); on an empty array it has none;
    and the line it takes is the last one with that time. *)
Theorem findEvict_defined (set : list cache_line) (newTag : Z) :
  (findEvict set newTag = None
   ↔ ∀ j l, set !! j = Some l → time l ≠ wrap32 (numOfLines set - 1))
  ∧ (set = [] → findEvict set newTag = None)
  ∧ (∀ e set', findEvict set newTag = Some (e, set') →
       (∃ l, set !! e = Some l ∧ time l = wrap32 (numOfLines set - 1))
       ∧ ∀ j l, (e < j)%nat → set !! j = Some l →
                time l ≠ wrap32 (numOfLines set - 1)).
Proof.
  split; [|split].
  - unfold findEvict. destruct (find_evicted set) as [e|] eqn:He.
    + split; [discriminate|]. intros Hnone. exfalso.
      destruct (find_evicted_Some _ _ He) as [(l & Hl & Ht) _].
      exact (Hnone e l Hl Ht).
    + split; [|reflexivity]. intros _. apply find_evicted_None. exact He.
  - intros ->. reflexivity.
  - intros e set' Hev.
    destruct (findEvict_Some _ _ _ _ Hev) as (He & _).
    apply find_evicted_Some. exact He.
Qed.

(** X5: [init] sets the flag to 1, gives line [j] the time [j] (as an
    [unsigned int]), the valid flag 0 and the tag 0, and keeps every block;
    running it again changes nothing more. *)
Theorem init_idempotent (cacheBase : cache_base) :
  init (init cacheBase) = init cacheBase
  ∧ initialized (init cacheBase) = 1
  ∧ cacheBlock <$> cacheSetArray (init cacheBase)
    = cacheBlock <$> cacheSetArray cacheBase
  ∧ (time <$> cacheSetArray (init cacheBase))
    = (λ j, wrap32 (Z.of_nat j)) <$> seq 0 (length (cacheSetArray cacheBase))
  ∧ Forall (λ l, valid l = 0 ∧ tag l = 0) (cacheSetArray (init cacheBase)).
Proof.
  split; [|split; [|split; [|split]]].
  - unfold init. simpl. f_equal. apply list_eq. intros i.
    rewrite !list_lookup_imap.
    destruct (cacheSetArray cacheBase !! i); reflexivity.
  - reflexivity.
  - simpl. apply list_eq. intros i.
    rewrite !list_lookup_fmap, list_lookup_imap.
    destruct (cacheSetArray cacheBase !! i); reflexivity.
  - simpl. apply list_eq. intros i.
    rewrite !list_lookup_fmap, list_lookup_imap.
    destruct (cacheSetArray cacheBase !! i) as [l|] eqn:Hl; simpl.
    + rewrite lookup_seq_lt by (eapply lookup_lt_Some; eauto). reflexivity.
    + rewrite lookup_seq_ge by (apply lookup_ge_None; exact Hl). reflexivity.
  - apply Forall_lookup. intros i l Hi. simpl in Hi.
    rewrite list_lookup_imap in Hi.
    destruct (cacheSetArray cacheBase !! i); [|discriminate].
    injection Hi as <-. split; reflexivity.
Qed.

Section Edge.
Context {World : Type}.
Variable memget : Z → list byte → Z → World → bool * list byte * World.

(** X6: on a fast memory that holds no line at all [cache_get] has no
    defined result, whatever the address and the flag: no lookup hits and
    [findEvict] finds no line to take. *)
Theorem cache_get_no_lines address (m : machine World) :
  lines m = [] → cache_get memget address m = None.
Proof.
  intros Hempty.
  assert (Hlines : lines (if initialized (F_memory m) =? 0 then boot m else m) = []).
  { destruct (_ =? _); [|exact Hempty].
    unfold lines, boot in *. simpl. rewrite Hempty. reflexivity. }
  unfold cache_get.
  generalize dependent (if initialized (F_memory m) =? 0 then boot m else m).
  intros m0 Hlines.
  assert (Hp : ∀ u from n st vt, probe u from n st (lines m0) vt = None).
  { intros. apply probe_None. rewrite Hlines. reflexivity. }
  assert (Hf : ∀ u A from n st vt, fetch memget u A from n st vt m0 = None).
  { intros. unfold fetch. rewrite Hlines. reflexivity. }
  destruct (address_decomposer address) as [offset t].
  destruct (offset + 8 <=? sizeOfBlock).
  - rewrite Hp, Hf. reflexivity.
  - destruct (address_decomposer _) as [newOffset newTag].
    rewrite !Hp. simpl. rewrite Hf. reflexivity.
Qed.
End Edge.

Lemma block_address address offset t :
  0 ≤ address < 2 ^ 64 →
  address_decomposer address = (offset, t) →
  0 ≤ offset < 64 ∧ 0 ≤ t < 2 ^ 58 ∧ wrap64 (address - offset) = 64 * t.
Proof.
  intros Ha Hdec. rewrite address_decomposer_eq in Hdec.
  injection Hdec as <- <-.
  pose proof (Z.div_mod address 64 ltac:(lia)) as Hdm.
  pose proof (Z.mod_pos_bound address 64 ltac:(lia)) as Hmod.
  split; [lia|]. split; [lia|].
  unfold wrap64. rewrite Z.mod_small by lia. lia.
Qed.

(** The address the second half of a crossing request is decomposed from,
    and what it decomposes into. *)
Lemma next_block address offset t :
  0 ≤ address < 2 ^ 64 →
  address_decomposer address = (offset, t) →
  64 < offset + 8 →
  address_decomposer (wrap64 (address + (64 - offset)))
  = (0, (t + 1) mod 2 ^ 58)
  ∧ wrap64 (wrap64 (address + (64 - offset)) - 0) = 64 * ((t + 1) mod 2 ^ 58)
  ∧ (address + 8 ≤ 2 ^ 64 → (t + 1) mod 2 ^ 58 = t + 1).
Proof.
  intros Ha Hdec Hcross. rewrite address_decomposer_eq in Hdec.
  injection Hdec as <- <-.
  pose proof (Z.div_mod address 64 ltac:(lia)) as Hdm.
  pose proof (Z.mod_pos_bound address 64 ltac:(lia)) as Hmod.
  set (t := address / 64) in *. set (offset := address mod 64) in *.
  assert (Ht : 0 ≤ t < 2 ^ 58) by lia.
  assert (Hnext : wrap64 (address + (64 - offset)) = 64 * ((t + 1) mod 2 ^ 58)).
  { unfold wrap64. replace (address + (64 - offset)) with (64 * (t + 1)) by lia.
    change (2 ^ 64) with (64 * 2 ^ 58).
    rewrite Z.mul_mod_distr_l by lia. reflexivity. }
  pose proof (Z.mod_pos_bound (t + 1) (2 ^ 58) ltac:(lia)) as Hm1.
  split.
  { rewrite Hnext, address_decomposer_eq. f_equal.
    - rewrite Z.mul_comm. apply Z.mod_mul. lia.
    - rewrite Z.mul_comm. apply Z.div_mul. lia. }
  split.
  { rewrite Hnext, Z.sub_0_r. unfold wrap64. apply Z.mod_small. lia. }
  intros Hlow. apply Z.mod_small. lia.
Qed.

(** X7: the second half of a crossing request. For an address below 2^64
    whose eight bytes cross a block boundary, the block address passed to
    [memget] for the first half is [64 * tag]; [address + (sizeOfBlock -
    offset)] decomposes into offset 0 and the tag [(tag + 1) mod 2^58], and
    the block address of the second half is 64 times that tag: the next
    block, or block 0 when the request crosses the end of the address
    space. *)
Theorem crossing_next_block address offset t :
  0 ≤ address < 2 ^ 64 →
  address_decomposer address = (offset, t) →
  64 < offset + 8 →
  0 ≤ t < 2 ^ 58
  ∧ wrap64 (address - offset) = 64 * t
  ∧ address_decomposer (wrap64 (address + (64 - offset)))
    = (0, (t + 1) mod 2 ^ 58)
  ∧ wrap64 (wrap64 (address + (64 - offset)) - 0) = 64 * ((t + 1) mod 2 ^ 58)
  ∧ (address + 8 ≤ 2 ^ 64 → (t + 1) mod 2 ^ 58 = t + 1)
  ∧ (2 ^ 64 < address + 8 → (t + 1) mod 2 ^ 58 = 0).
Proof.
  intros Ha Hdec Hcross.
  destruct (block_address address offset t Ha Hdec) as (Ho & Ht & HA).
  destruct (next_block address offset t Ha Hdec Hcross) as (Hdec2 & HA2 & Hlow).
  split; [exact Ht|]. split; [exact HA|]. split; [exact Hdec2|].
  split; [exact HA2|]. split; [exact Hlow|].
  intros Hhigh. rewrite address_decomposer_eq in Hdec.
  injection Hdec as Hoff Htag.
  pose proof (Z.div_mod address 64 ltac:(lia)) as Hdm.
  assert (t + 1 = 2 ^ 58) as -> by lia. reflexivity.
Qed.

Section TraceFacts.
Context {World : Type}.
Variable memget : Z → list byte → Z → World → bool * list byte * World.

Lemma touches_frame t (m m' : machine World) :
  touches t m m' →
  memget_calls m' = memget_calls m
  ∧ backing m' = backing m
  ∧ initialized (F_memory m') = initialized (F_memory m)
  ∧ content <$> lines m' = content <$> lines m.
Proof.
  intros (i & line & _ & ->). unfold with_lines, lines. simpl.
  split; [reflexivity|]. split; [reflexivity|]. split; [reflexivity|].
  apply setLRU_content.
Qed.

Lemma fills_lookup t blockAddress ok (m m' : machine World) :
  fills memget t blockAddress ok m m' →
  memget_calls m' = memget_calls m ++ [blockAddress]
  ∧ initialized (F_memory m') = initialized (F_memory m)
  ∧ ∃ e le buffer,
      find_evicted (lines m) = Some e
      ∧ lines m !! e = Some le
      ∧ time le = wrap32 (numOfLines (lines m) - 1)
      ∧ (∃ w, memget blockAddress (cacheBlock le) sizeOfBlock (backing m)
              = (ok, buffer, w))
      ∧ ∀ i, lines m' !! i
             = if decide (i = e)
               then Some (with_cacheBlock buffer (install t le))
               else aged (time le) <$> lines m !! i.
Proof.
  intros (e & set1 & le & buffer & w & Hev & Hle & Hmem & ->).
  split; [reflexivity|]. split; [reflexivity|].
  destruct (findEvict_Some _ _ _ _ Hev) as (He & le' & Hle' & Ht & _).
  assert (le' = le) by congruence. subst le'.
  exists e, le, buffer. split; [exact He|]. split; [exact Hle|].
  split; [exact Ht|]. split; [eauto|].
  intros i. unfold lines at 1. simpl.
  apply (refilled_lookup _ _ _ _ _ _ _ Hev Hle).
Qed.

Lemma cache_get_total address (m : machine World) :
  cache_ok m → ∃ r v m', cache_get memget address m = Some (r, v, m').
Proof.
  intros Hok. destruct (cache_ok_times_ok m Hok) as (Hinit & _ & _).
  assert (Hfetch : ∀ u A from n st vt (m0 : machine World), cache_ok m0 →
            ∃ ok vt' m1, fetch memget u A from n st vt m0 = Some (ok, vt', m1)
                         ∧ cache_ok m1).
  { intros u A from n st vt m0 Hok0.
    destruct (cache_ok_times_ok m0 Hok0) as (_ & Ht0 & Hn0).
    destruct (fetch_total memget u A from n st vt m0 Ht0 Hn0)
      as (ok & vt' & m1 & Hf).
    exists ok, vt', m1. split; [exact Hf|].
    eapply keeps_shape_cache_ok; [exact Hok0|].
    eapply fetch_keeps_shape; eauto. }
  unfold cache_get. rewrite (cache_get_initialized m Hinit).
  generalize (replicate 8 x00). intros vt0.
  destruct (address_decomposer address) as [offset t].
  destruct (offset + 8 <=? sizeOfBlock).
  - destruct (probe _ _ _ _ _ _) as [[set vt]|] eqn:Hp; [eauto|].
    destruct (Hfetch t (wrap64 (address - offset)) (Z.to_nat offset) 8%nat 0%nat
                vt0 m Hok) as (ok & vt' & m1 & Hf & _).
    rewrite Hf. simpl. destruct ok; eauto.
  - destruct (address_decomposer _) as [newOffset newTag].
    set (n1 := Z.to_nat (sizeOfBlock - offset)).
    set (n2 := Z.to_nat (8 - (sizeOfBlock - offset))).
    destruct (probe t _ _ _ _ _) as [[set1 vt1]|] eqn:Hp1.
    + pose proof (keeps_shape_cache_ok _ _ Hok
                    (probe_keeps_shape _ _ _ _ _ _ _ _ Hp1)) as Hok1.
      destruct (probe newTag _ _ _ _ _) as [[set2 vt2]|] eqn:Hp2;
        [simpl; eauto|].
      simpl.
      destruct (Hfetch newTag (wrap64 (wrap64 (address + (sizeOfBlock - offset))
                                        - newOffset)) 0%nat n2 n1 vt1 _ Hok1)
        as (ok & vt' & m1 & Hf & _).
      rewrite Hf. simpl. destruct ok; eauto.
    + destruct (probe newTag _ _ _ _ _) as [[set2 vt2]|] eqn:Hp2.
      * pose proof (keeps_shape_cache_ok _ _ Hok
                      (probe_keeps_shape _ _ _ _ _ _ _ _ Hp2)) as Hok2.
        simpl.
        destruct (Hfetch t (wrap64 (address - offset)) (Z.to_nat offset) n1 0%nat
                    vt2 _ Hok2) as (ok & vt' & m1 & Hf & _).
        rewrite Hf. simpl. destruct ok; simpl; eauto.
      * simpl.
        destruct (Hfetch t (wrap64 (address - offset)) (Z.to_nat offset) n1 0%nat
                    vt0 m Hok) as (ok & vt' & m1 & Hf & Hok1).
        rewrite Hf. simpl. destruct ok; simpl; [|eauto].
        destruct (Hfetch newTag (wrap64 (wrap64 (address + (sizeOfBlock - offset))
                                          - newOffset)) 0%nat n2 n1 vt' m1 Hok1)
          as (ok2 & vt'' & m2 & Hf2 & _).
        rewrite Hf2. simpl. destruct ok2; eauto.
Qed.

Lemma cache_get_value address (m : machine World) r x m' :
  cache_get memget address m = Some (r, Some x, m') →
  ∃ vt, x = reverse_endian vt.
Proof.
  unfold cache_get.
  generalize (if initialized (F_memory m) =? 0 then boot m else m). intros m0.
  destruct (address_decomposer address) as [offset t].
  destruct (offset + 8 <=? sizeOfBlock).
  - destruct (probe _ _ _ _ _ _) as [[set vt]|].
    + intros [= _ <- _]. eauto.
    + destruct (fetch _ _ _ _ _ _ _ _) as [[[ok vt] m1]|]; [|discriminate].
      simpl. destruct ok; [|discriminate]. intros [= _ <- _]. eauto.
  - destruct (address_decomposer _) as [newOffset newTag].
    destruct (probe t _ _ _ _ _) as [[set1 vt1]|];
      destruct (probe newTag _ _ _ _ _) as [[set2 vt2]|]; simpl;
      repeat match goal with
             | |- context [fetch ?a ?b ?c ?d ?e ?f ?g ?h] =>
                 destruct (fetch a b c d e f g h) as [[[? ?] ?]|]; simpl;
                 [|discriminate]
             | |- context [negb ?b] => destruct b; simpl
             end;
      try discriminate; intros [= _ <- _]; eauto.
Qed.
End TraceFacts.

(** ** Results and memory traffic *)

Section Calls.
Context {World : Type}.
Variable memget : Z → list byte → Z → World → bool * list byte * World.

(** X8: on a sound machine every call returns, and leaves a sound machine.
    The result is 0 or 1; it is 1 exactly when the request does not cross a
    block boundary and a value was written; a value written is below
    2^64. *)
Theorem cache_get_defined address (m : machine World) offset t :
  cache_ok m →
  address_decomposer address = (offset, t) →
  ∃ r v m',
    cache_get memget address m = Some (r, v, m')
    ∧ cache_ok m'
    ∧ (r = 0 ∨ r = 1)
    ∧ (r = 1 ↔ offset + 8 ≤ 64 ∧ v ≠ None)
    ∧ (∀ x, v = Some x → 0 ≤ x < 2 ^ 64).
Proof.
  intros Hok Hdec.
  destruct (cache_get_total memget address m Hok) as (r & v & m' & Hget).
  destruct (cache_ok_times_ok m Hok) as (Hinit & _ & _).
  exists r, v, m'. split; [exact Hget|].
  split; [eapply cache_get_cache_ok; eauto|].
  assert (Hrange : ∀ x, v = Some x → 0 ≤ x < 2 ^ 64).
  { intros x ->. destruct (cache_get_value memget _ _ _ _ _ Hget) as [vt ->].
    apply reverse_endian_range. }
  destruct (Z.le_gt_cases (offset + 8) 64) as [Hoff|Hoff].
  - destruct (cache_get_plain memget _ _ _ _ _ _ _ Hinit Hdec Hoff Hget)
      as [(_ & -> & Hv) | (_ & ok & _ & -> & Hv)].
    + split; [auto|]. split; [|exact Hrange]. split; auto.
    + destruct ok.
      * split; [auto|]. split; [|exact Hrange].
        split; [|reflexivity]. intros _. split; [exact Hoff|].
        intros Hn. apply Hv in Hn. discriminate.
      * split; [auto|]. split; [|exact Hrange].
        split; [discriminate|]. intros [_ Hn]. exfalso. apply Hn, Hv. reflexivity.
  - destruct (address_decomposer (wrap64 (address + (64 - offset))))
      as [newOffset newTag] eqn:Hdec2.
    destruct (cache_get_crossing memget _ _ _ _ _ _ _ _ _ Hinit Hdec
                ltac:(lia) Hdec2 Hget) as [-> _].
    split; [auto|]. split; [|exact Hrange]. split; [discriminate | lia].
Qed.

Lemma memget_discipline_initialized address (m : machine World) offset t r v m' :
  initialized (F_memory m) ≠ 0 →
  0 ≤ address < 2 ^ 64 →
  address_decomposer address = (offset, t) →
  cache_get memget address m = Some (r, v, m') →
  ∃ new,
    memget_calls m' = memget_calls m ++ new
    ∧ (offset + 8 ≤ 64 → new = [] ∨ new = [64 * t])
    ∧ (64 < offset + 8 →
       new = [] ∨ new = [64 * t] ∨ new = [64 * ((t + 1) mod 2 ^ 58)]
       ∨ new = [64 * t; 64 * ((t + 1) mod 2 ^ 58)]).
Proof.
  intros Hinit Ha Hdec Hget.
  destruct (block_address address offset t Ha Hdec) as (_ & _ & HA1).
  destruct (Z.le_gt_cases (offset + 8) 64) as [Hoff|Hoff].
  - destruct (cache_get_plain memget _ _ _ _ _ _ _ Hinit Hdec Hoff Hget)
      as [(Ht & _) | (_ & ok & Hf & _)].
    + exists []. destruct (touches_frame _ _ _ Ht) as (-> & _).
      rewrite app_nil_r. split; [reflexivity|]. split; [auto | lia].
    + exists [64 * t]. destruct (fills_lookup memget _ _ _ _ _ Hf) as (-> & _).
      rewrite HA1. split; [reflexivity|]. split; [auto | lia].
  - destruct (next_block address offset t Ha Hdec ltac:(lia))
      as (Hdec2 & HA2 & _).
    destruct (cache_get_crossing memget _ _ _ _ _ _ _ _ _ Hinit Hdec
                ltac:(lia) Hdec2 Hget)
      as [_ (h1 & h2 & ok1 & ok2 & ma & mb & mc & H1 & H2 & H3 & H4)].
    rewrite HA1, HA2 in *.
    assert (Ea : memget_calls ma = memget_calls m).
    { destruct h1; [apply (touches_frame _ _ _ H1) | destruct H1 as [_ ->]; reflexivity]. }
    assert (Eb : memget_calls mb = memget_calls m).
    { rewrite <- Ea.
      destruct h2; [apply (touches_frame _ _ _ H2) | destruct H2 as [_ ->]; reflexivity]. }
    assert (Ec : memget_calls mc
                 = memget_calls m ++ (if h1 then [] else [64 * t])).
    { rewrite <- Eb. destruct h1.
      - destruct H3 as [_ ->]. rewrite app_nil_r. reflexivity.
      - apply (fills_lookup memget _ _ _ _ _ H3). }
    assert (Ed : ∃ tail, memget_calls m' = memget_calls mc ++ tail
                         ∧ (tail = [] ∨ tail = [64 * ((t + 1) mod 2 ^ 58)])).
    { destruct ok1.
      - destruct H4 as [H4 _]. destruct h2.
        + destruct H4 as [_ ->]. exists []. rewrite app_nil_r. auto.
        + exists [64 * ((t + 1) mod 2 ^ 58)].
          split; [apply (fills_lookup memget _ _ _ _ _ H4) | auto].
      - destruct H4 as [-> _]. exists []. rewrite app_nil_r. auto. }
    destruct Ed as (tail & Ed & Htail). rewrite Ec in Ed.
    exists ((if h1 then [] else [64 * t]) ++ tail).
    rewrite Ed, app_assoc. split; [reflexivity|]. split; [lia|]. intros _.
    destruct h1, Htail as [-> | ->]; simpl; auto.
Qed.

(** X9: what a call asks of the backing memory. A call with an address
    below 2^64 appends to the [memget] calls made so far: nothing or the
    block address [64 * tag] when the request does not cross; when it
    crosses, nothing, the block of the tag, the next block (modulo 2^58), or
    the block of the tag followed by the next block. *)
Theorem memget_discipline address (m : machine World) offset t r v m' :
  0 ≤ address < 2 ^ 64 →
  address_decomposer address = (offset, t) →
  cache_get memget address m = Some (r, v, m') →
  ∃ new,
    memget_calls m' = memget_calls m ++ new
    ∧ (offset + 8 ≤ 64 → new = [] ∨ new = [64 * t])
    ∧ (64 < offset + 8 →
       new = [] ∨ new = [64 * t] ∨ new = [64 * ((t + 1) mod 2 ^ 58)]
       ∨ new = [64 * t; 64 * ((t + 1) mod 2 ^ 58)]).
Proof.
  intros Ha Hdec Hget.
  destruct (Z.eq_dec (initialized (F_memory m)) 0) as [Hz|Hnz].
  - rewrite (cache_get_boot memget address m Hz) in Hget.
    apply (memget_discipline_initialized address (boot m) offset t r v m');
      [simpl; lia | exact Ha | exact Hdec | exact Hget].
  - apply (memget_discipline_initialized address m offset t r v m'); assumption.
Qed.
End Calls.

Section Chain.
Context {World : Type}.
Variable memget : Z → list byte → Z → World → bool * list byte * World.

(** A relation that holds across every lookup and every fill holds across
    every call. *)
Lemma cache_get_chain (R : machine World → machine World → Prop) :
  (∀ m, R m m) →
  (∀ m1 m2 m3, R m1 m2 → R m2 m3 → R m1 m3) →
  (∀ t m m', touches t m m' → R m m') →
  (∀ t A ok m m', fills memget t A ok m m' → R m m') →
  ∀ address (m : machine World) r v m',
    initialized (F_memory m) ≠ 0 →
    cache_get memget address m = Some (r, v, m') →
    R m m'.
Proof.
  intros Hrefl Htrans Htouch Hfill address m r v m' Hinit Hget.
  destruct (address_decomposer address) as [offset t] eqn:Hdec.
  destruct (Z.le_gt_cases (offset + 8) 64) as [Hoff|Hoff].
  - destruct (cache_get_plain memget _ _ _ _ _ _ _ Hinit Hdec Hoff Hget)
      as [(Ht & _) | (_ & ok & Hf & _)]; eauto.
  - destruct (address_decomposer (wrap64 (address + (64 - offset))))
      as [newOffset newTag] eqn:Hdec2.
    destruct (cache_get_crossing memget _ _ _ _ _ _ _ _ _ Hinit Hdec
                ltac:(lia) Hdec2 Hget)
      as [_ (h1 & h2 & ok1 & ok2 & ma & mb & mc & H1 & H2 & H3 & H4)].
    assert (Ra : R m ma) by (destruct h1; [eauto | destruct H1 as [_ ->]; auto]).
    assert (Rb : R ma mb) by (destruct h2; [eauto | destruct H2 as [_ ->]; auto]).
    assert (Rc : R mb mc) by (destruct h1; [destruct H3 as [_ ->]; auto | eauto]).
    assert (Rd : R mc m').
    { destruct ok1.
      - destruct H4 as [H4 _]. destruct h2; [destruct H4 as [_ ->]; auto | eauto].
      - destruct H4 as [-> _]. auto. }
    eauto.
Qed.

(** X10: a call on an initialised cache keeps the number of lines and the
    flag, and never clears a valid flag: a line that was valid stays
    valid. *)
Theorem cache_get_never_invalidates address (m : machine World) r v m' :
  initialized (F_memory m) ≠ 0 →
  cache_get memget address m = Some (r, v, m') →
  length (lines m') = length (lines m)
  ∧ initialized (F_memory m') = initialized (F_memory m)
  ∧ ∀ i l, lines m !! i = Some l →
           ∃ l', lines m' !! i = Some l' ∧ (valid l ≠ 0 → valid l' ≠ 0).
Proof.
  intros Hinit Hget.
  destruct (cache_get_keeps_shape memget _ _ _ _ _ Hinit Hget) as (Hlen & Hi & _).
  split; [exact Hlen|]. split; [exact Hi|].
  clear Hlen Hi. revert address m r v m' Hinit Hget.
  apply (cache_get_chain
           (λ m m', ∀ i l, lines m !! i = Some l →
                       ∃ l', lines m' !! i = Some l' ∧ (valid l ≠ 0 → valid l' ≠ 0))).
  - intros m i l Hl. eauto.
  - intros m1 m2 m3 H12 H23 i l Hl.
    destruct (H12 i l Hl) as (l2 & Hl2 & Hv2).
    destruct (H23 i l2 Hl2) as (l3 & Hl3 & Hv3). eauto.
  - intros t m m' Ht i l Hl.
    destruct (touches_frame _ _ _ Ht) as (_ & _ & _ & Hc).
    assert (Hci : (content <$> lines m') !! i = Some (content l))
      by (rewrite Hc, list_lookup_fmap, Hl; reflexivity).
    rewrite list_lookup_fmap in Hci.
    destruct (lines m' !! i) as [l'|]; [|discriminate].
    exists l'. split; [reflexivity|]. simpl in Hci. injection Hci as Hv _ _.
    congruence.
  - intros t A ok m m' Hf i l Hl.
    destruct (fills_lookup memget _ _ _ _ _ Hf)
      as (_ & _ & e & le & buffer & _ & _ & _ & _ & Hlk).
    rewrite Hlk. destruct (decide (i = e)).
    + eexists. split; [reflexivity|]. simpl. lia.
    + rewrite Hl. eexists. split; [reflexivity|]. unfold aged.
      destruct (_ <? _); auto.
Qed.

(** X11: a crossing request whose first tag misses and whose [memget] for
    the first block fails returns 0 and writes no value; it has called
    [memget] once, for that block only, and a line is left holding the first
    tag, valid, with time 0. *)
Theorem crossing_first_read_fails address (m : machine World) offset t
    newOffset newTag :
  cache_ok m →
  address_decomposer address = (offset, t) →
  64 < offset + 8 →
  address_decomposer (wrap64 (address + (64 - offset))) = (newOffset, newTag) →
  list_find (hits t) (lines m) = None →
  (∀ old w, (memget (wrap64 (address - offset)) old sizeOfBlock w).1.1 = false) →
  ∃ m' e l',
    cache_get memget address m = Some (0, None, m')
    ∧ memget_calls m' = memget_calls m ++ [wrap64 (address - offset)]
    ∧ lines m' !! e = Some l'
    ∧ holds t l' ∧ time l' = 0.
Proof.
  intros Hok Hdec Hcross Hdec2 Hnone Hfail.
  destruct (cache_get_total memget address m Hok) as (r & v & m' & Hget).
  destruct (cache_ok_times_ok m Hok) as (Hinit & _ & _).
  destruct (cache_get_crossing memget _ _ _ _ _ _ _ _ _ Hinit Hdec Hcross Hdec2
              Hget)
    as [-> (h1 & h2 & ok1 & ok2 & ma & mb & mc & H1 & H2 & H3 & H4)].
  destruct h1.
  { destruct H1 as (i & line & Hf & _). congruence. }
  destruct H1 as [_ ->].
  assert (Eb : memget_calls mb = memget_calls m).
  { destruct h2; [apply (touches_frame _ _ _ H2) | destruct H2 as [_ ->]; reflexivity]. }
  destruct (fills_lookup memget _ _ _ _ _ H3)
    as (Ec & _ & e & le & buffer & _ & _ & _ & (w & Hmem) & Hlk).
  assert (ok1 = false) as ->.
  { specialize (Hfail (cacheBlock le) (backing mb)). rewrite Hmem in Hfail.
    exact Hfail. }
  destruct H4 as [-> ->].
  exists mc, e, (with_cacheBlock buffer (install t le)).
  split; [exact Hget|]. split; [rewrite Ec, Eb; reflexivity|].
  split; [rewrite Hlk; destruct (decide (e = e)); [reflexivity | congruence]|].
  split; [|reflexivity]. split; [simpl; lia | reflexivity].
Qed.

(** What a call that starts with the flag at 0 has done when it returns. *)
Lemma first_call_trace address (m : machine World) offset t r v m' :
  initialized (F_memory m) = 0 →
  address_decomposer address = (offset, t) →
  cache_get memget address m = Some (r, v, m') →
  initialized (F_memory m') = 1
  ∧ ∃ rest, memget_calls m' = memget_calls m ++ wrap64 (address - offset) :: rest.
Proof.
  intros Hz Hdec Hget.
  rewrite (cache_get_boot memget address m Hz) in Hget.
  assert (Hinit : initialized (F_memory (boot m)) ≠ 0) by (simpl; lia).
  destruct (cache_get_keeps_shape memget _ _ _ _ _ Hinit Hget) as (_ & Hi & _).
  split; [rewrite Hi; reflexivity|].
  change (memget_calls m) with (memget_calls (boot m)).
  destruct (Z.le_gt_cases (offset + 8) 64) as [Hoff|Hoff].
  - destruct (cache_get_plain memget _ _ _ _ _ _ _ Hinit Hdec Hoff Hget)
      as [((i & line & Hf & _) & _) | (_ & ok & Hf & _)].
    + rewrite boot_no_hit in Hf. discriminate.
    + exists []. apply (fills_lookup memget _ _ _ _ _ Hf).
  - destruct (address_decomposer (wrap64 (address + (64 - offset))))
      as [newOffset newTag] eqn:Hdec2.
    destruct (cache_get_crossing memget _ _ _ _ _ _ _ _ _ Hinit Hdec
                ltac:(lia) Hdec2 Hget)
      as [_ (h1 & h2 & ok1 & ok2 & ma & mb & mc & H1 & H2 & H3 & H4)].
    destruct h1.
    { destruct H1 as (i & line & Hf & _). rewrite boot_no_hit in Hf. discriminate. }
    destruct H1 as [_ ->].
    destruct h2.
    { destruct H2 as (i & line & Hf & _). rewrite boot_no_hit in Hf. discriminate. }
    destruct H2 as [_ ->].
    destruct (fills_lookup memget _ _ _ _ _ H3) as (Ec & _).
    destruct ok1.
    + destruct H4 as [H4 _].
      destruct (fills_lookup memget _ _ _ _ _ H4) as (Ed & _).
      eexists. rewrite Ed, Ec, <- app_assoc. reflexivity.
    + destruct H4 as [-> _]. exists []. exact Ec.
Qed.

(** X12: the first call on a fast memory whose flag is 0 and which holds at
    least one line (and fewer than 2^32) returns; it sets the flag to 1 and,
    whatever the memory held before, does not hit: its first [memget] call
    is for the block of the address. *)
Theorem first_call_reads_memory address (m : machine World) offset t :
  initialized (F_memory m) = 0 →
  0 < numOfLines (lines m) < 2 ^ 32 →
  address_decomposer address = (offset, t) →
  ∃ r v m',
    cache_get memget address m = Some (r, v, m')
    ∧ initialized (F_memory m') = 1
    ∧ ∃ rest, memget_calls m'
              = memget_calls m ++ wrap64 (address - offset) :: rest.
Proof.
  intros Hz Hn Hdec.
  destruct (cache_get_total memget address (boot m) (boot_cache_ok m Hn))
    as (r & v & m' & Hget).
  rewrite <- (cache_get_boot memget address m Hz) in Hget.
  exists r, v, m'. split; [exact Hget|].
  exact (first_call_trace address m offset t r v m' Hz Hdec Hget).
Qed.
End Chain.

(** ** Ageing *)

Section Ageing.
Context {World : Type}.
Variable memget : Z → list byte → Z → World → bool * list byte * World.

Lemma touches_cache_ok t (m m' : machine World) :
  cache_ok m → touches t m m' → cache_ok m'.
Proof.
  intros Hok (i & line & Hf & ->).
  destruct (cache_ok_times_ok m Hok) as (Hinit & Ht & Hn).
  destruct Hok as (_ & Hn' & _ & Htags).
  apply list_find_Some in Hf as (Hi & _).
  split; [exact Hinit|].
  assert (Hl : lines (with_lines (setLRU (lines m) i) m) = setLRU (lines m) i)
    by reflexivity.
  rewrite Hl. unfold numOfLines. rewrite setLRU_length.
  split; [exact Hn'|].
  split; [apply times_ok_permutation;
          exact (setLRU_times_ok _ _ _ Ht (proj2 Hn) Hi)|].
  apply setLRU_tags_ok; exact Htags.
Qed.

Lemma fills_cache_ok t A ok (m m' : machine World) :
  cache_ok m → fills memget t A ok m m' → cache_ok m'.
Proof.
  intros Hok (e & set1 & le & buffer & w & Hev & Hle & Hmem & ->).
  destruct (cache_ok_times_ok m Hok) as (Hinit & Ht & Hn).
  destruct Hok as (_ & Hn' & _ & Htags).
  destruct (findEvict_Some _ _ _ _ Hev) as (_ & le' & Hle' & _ & Hlen & Hlk).
  assert (H1 : set1 !! e = Some (install t le)).
  { rewrite Hlk, Hle. destruct (decide (e = e)); [reflexivity | congruence]. }
  split; [exact Hinit|].
  change (lines _) with (refilled set1 e t le buffer).
  unfold numOfLines, refilled. rewrite length_insert, Hlen.
  split; [exact Hn'|].
  split; [apply times_ok_permutation;
          apply (refilled_times_ok _ _ _ _ _ _ Ht (proj2 Hn) Hev Hle)|].
  apply fill_tags_ok; [|exact H1]. eapply findEvict_tags_ok; eauto.
Qed.

(** A lookup that hits leaves the content of every line and adds at most 1
    to its time. *)
Lemma touches_ages t (m m' : machine World) j l :
  cache_ok m → touches t m m' → lines m !! j = Some l →
  ∃ l', lines m' !! j = Some l' ∧ content l' = content l
        ∧ 0 ≤ time l' ≤ time l + 1.
Proof.
  intros Hok (i & line & Hf & ->) Hl.
  destruct (cache_ok_times_ok m Hok) as (_ & (_ & Hb) & Hn).
  apply list_find_Some in Hf as (Hi & _).
  pose proof (Hb _ _ Hl) as Hbl. pose proof (Hb _ _ Hi) as Hbi.
  unfold lines, with_lines in *. simpl.
  rewrite (setLRU_lookup _ _ _ j Hi), Hl. simpl.
  destruct (decide (j = i)).
  - eexists. split; [reflexivity|]. split; [reflexivity|]. simpl. lia.
  - eexists. split; [reflexivity|]. split; [apply content_aged|].
    rewrite time_aged. destruct (Z.ltb_spec (time l) (time line)); [|lia].
    unfold wrap32. rewrite Z.mod_small by lia. lia.
Qed.

(** A fill does the same to every line but the one whose time was
    [numOfLines - 1]. *)
Lemma fills_ages t A ok (m m' : machine World) j l :
  cache_ok m → fills memget t A ok m m' → lines m !! j = Some l →
  time l < numOfLines (lines m) - 1 →
  ∃ l', lines m' !! j = Some l' ∧ content l' = content l
        ∧ 0 ≤ time l' ≤ time l + 1.
Proof.
  intros Hok Hf Hl Hlt.
  destruct (cache_ok_times_ok m Hok) as (_ & (_ & Hb) & Hn).
  destruct (fills_lookup memget _ _ _ _ _ Hf)
    as (_ & _ & e & le & buffer & _ & Hle & Hte & _ & Hlk).
  pose proof (Hb _ _ Hl) as Hbl. pose proof (Hb _ _ Hle) as Hbe.
  unfold wrap32 in Hte. rewrite Z.mod_small in Hte by lia.
  rewrite Hlk. destruct (decide (j = e)) as [->|Hne].
  - assert (l = le) by congruence. subst. lia.
  - rewrite Hl. simpl. eexists. split; [reflexivity|].
    split; [apply content_aged|]. rewrite time_aged.
    destruct (Z.ltb_spec (time l) (time le)); [|lia].
    unfold wrap32. rewrite Z.mod_small by lia. lia.
Qed.

(** One call ages a line by at most the number of blocks it works on, and
    keeps the content of every line young enough. *)
Lemma cache_get_ages_bound address (m : machine World) r v m' j l :
  cache_ok m →
  cache_get memget address m = Some (r, v, m') →
  lines m !! j = Some l →
  time l + block_accesses address < numOfLines (lines m) →
  ∃ l', lines m' !! j = Some l' ∧ content l' = content l
        ∧ 0 ≤ time l' ≤ time l + block_accesses address.
Proof.
  intros Hok Hget Hl Hroom.
  destruct (cache_ok_times_ok m Hok) as (Hinit & (_ & Hb) & Hn).
  pose proof (Hb _ _ Hl) as Hbl.
  unfold block_accesses in *.
  destruct (address_decomposer address) as [offset t] eqn:Hdec. simpl in *.
  unfold sizeOfBlock in *.
  destruct (Z.leb_spec (offset + 8) 64) as [Hoff|Hoff].
  - destruct (cache_get_plain memget _ _ _ _ _ _ _ Hinit Hdec Hoff Hget)
      as [(Ht & _) | (_ & ok & Hf & _)].
    + apply (touches_ages _ _ _ _ _ Hok Ht Hl).
    + apply (fills_ages _ _ _ _ _ _ _ Hok Hf Hl). lia.
  - destruct (address_decomposer (wrap64 (address + (64 - offset))))
      as [newOffset newTag] eqn:Hdec2.
    destruct (cache_get_crossing memget _ _ _ _ _ _ _ _ _ Hinit Hdec
                ltac:(lia) Hdec2 Hget)
      as [_ (h1 & h2 & ok1 & ok2 & ma & mb & mc & H1 & H2 & H3 & H4)].
    (* the first half: a hit or a fill, whichever happened *)
    assert (Hn_a : numOfLines (lines ma) = numOfLines (lines m)
                   ∧ cache_ok ma
                   ∧ ∃ la, lines ma !! j = Some la ∧ content la = content l
                           ∧ 0 ≤ time la ≤ time l + (if h1 then 1 else 0)).
    { destruct h1.
      - split; [|split; [eapply touches_cache_ok; eauto
                        | apply (touches_ages _ _ _ _ _ Hok H1 Hl)]].
        destruct H1 as (i & line & _ & ->). unfold numOfLines, lines. simpl.
        rewrite setLRU_length. reflexivity.
      - destruct H1 as [_ ->]. split; [reflexivity|]. split; [exact Hok|].
        exists l. split; [exact Hl|]. split; [reflexivity | lia]. }
    destruct Hn_a as (Hna & Hoka & la & Hla & Hca & Hta).
    assert (Hn_b : numOfLines (lines mb) = numOfLines (lines m)
                   ∧ cache_ok mb
                   ∧ ∃ lb, lines mb !! j = Some lb ∧ content lb = content l
                           ∧ 0 ≤ time lb
                               ≤ time l + (if h1 then 1 else 0)
                                 + (if h2 then 1 else 0)).
    { destruct h2.
      - destruct (touches_ages _ _ _ _ _ Hoka H2 Hla) as (lb & Hlb & Hcb & Htb).
        split; [|split; [eapply touches_cache_ok; eauto|]].
        + destruct H2 as (i & line & _ & ->). unfold numOfLines, lines. simpl.
          rewrite setLRU_length. exact Hna.
        + exists lb. split; [exact Hlb|]. split; [congruence | lia].
      - destruct H2 as [_ ->]. split; [exact Hna|]. split; [exact Hoka|].
        exists la. split; [exact Hla|]. split; [exact Hca | lia]. }
    destruct Hn_b as (Hnb & Hokb & lb & Hlb & Hcb & Htb).
    assert (Hn_c : numOfLines (lines mc) = numOfLines (lines m)
                   ∧ cache_ok mc
                   ∧ ∃ lc, lines mc !! j = Some lc ∧ content lc = content l
                           ∧ 0 ≤ time lc ≤ time l + 1 + (if h2 then 1 else 0)).
    { destruct h1.
      - destruct H3 as [_ ->]. split; [exact Hnb|]. split; [exact Hokb|].
        exists lb. split; [exact Hlb|]. split; [exact Hcb | lia].
      - assert (Hlt : time lb < numOfLines (lines mb) - 1)
          by (destruct h2; lia).
        destruct (fills_ages _ _ _ _ _ _ _ Hokb H3 Hlb Hlt)
          as (lc & Hlc & Hcc & Htc).
        pose proof (fills_cache_ok _ _ _ _ _ Hokb H3) as Hokc.
        split; [|split; [exact Hokc|]].
        + destruct H3 as (e & set1 & le & buffer & w & Hev & _ & _ & ->).
          destruct (findEvict_Some _ _ _ _ Hev) as (_ & _ & _ & _ & Hlen & _).
          unfold numOfLines, lines, refilled in *. simpl.
          rewrite length_insert, Hlen. exact Hnb.
        + exists lc. split; [exact Hlc|]. split; [congruence | lia]. }
    destruct Hn_c as (Hnc & Hokc & lc & Hlc & Hcc & Htc).
    destruct ok1.
    + destruct H4 as [H4 _]. destruct h2.
      * destruct H4 as [_ ->]. exists lc. split; [exact Hlc|].
        split; [exact Hcc | lia].
      * assert (Hlt : time lc < numOfLines (lines mc) - 1) by lia.
        destruct (fills_ages _ _ _ _ _ _ _ Hokc H4 Hlc Hlt)
          as (ld & Hld & Hcd & Htd).
        exists ld. split; [exact Hld|]. split; [congruence | lia].
    + destruct H4 as [-> _]. exists lc. split; [exact Hlc|].
      split; [exact Hcc | destruct h2; lia].
Qed.

(** X13: on a sound machine a call adds at most 1 to the time of a line,
    or at most 2 when the request crosses a block boundary; a line whose
    time stays below [numOfLines] under that bound is not evicted: it keeps
    its valid flag, its tag and its block. *)
Theorem cache_get_ages address (m : machine World) r v m' j l :
  cache_ok m →
  cache_get memget address m = Some (r, v, m') →
  lines m !! j = Some l →
  time l + block_accesses address < numOfLines (lines m) →
  ∃ l', lines m' !! j = Some l'
        ∧ valid l' = valid l ∧ tag l' = tag l ∧ cacheBlock l' = cacheBlock l
        ∧ time l' ≤ time l + block_accesses address
        ∧ time l' < numOfLines (lines m').
Proof.
  intros Hok Hget Hl Hroom.
  destruct (cache_get_ages_bound address m r v m' j l Hok Hget Hl Hroom)
    as (l' & Hl' & Hc & Ht).
  rewrite (cache_get_numOfLines memget _ _ _ _ _ Hok Hget).
  unfold content in Hc. injection Hc as Hv Htag Hb.
  exists l'. split; [exact Hl'|]. split; [exact Hv|]. split; [exact Htag|].
  split; [exact Hb|]. split; lia.
Qed.

Lemma block_accesses_pos address : 1 ≤ block_accesses address ≤ 2.
Proof. unfold block_accesses. destruct (_ <=? _); lia. Qed.

(** A line survives a run of calls that work on fewer blocks than its time
    leaves room for. *)
Lemma run_gets_ages addresses : ∀ (m m' : machine World) j l,
  cache_ok m →
  run_gets memget addresses m = Some m' →
  lines m !! j = Some l →
  time l + foldr (λ a s, block_accesses a + s) 0 addresses
    < numOfLines (lines m) →
  cache_ok m' ∧
  ∃ l', lines m' !! j = Some l' ∧ content l' = content l.
Proof.
  induction addresses as [|a rest IH]; intros m m' j l Hok Hrun Hl Hroom.
  - simpl in Hrun. injection Hrun as <-. split; [exact Hok|]. eauto.
  - simpl in Hrun, Hroom.
    destruct (cache_get memget a m) as [[[r v] m1]|] eqn:Hget; [|discriminate].
    simpl in Hrun.
    assert (Hs : 0 ≤ foldr (λ a s, block_accesses a + s) 0 rest).
    { clear. induction rest as [|b rest IH]; simpl; [lia|].
      pose proof (block_accesses_pos b). lia. }
    destruct (cache_get_ages_bound a m r v m1 j l Hok Hget Hl ltac:(lia))
      as (l1 & Hl1 & Hc1 & Ht1).
    pose proof (cache_get_cache_ok memget _ _ _ _ _ Hok Hget) as Hok1.
    pose proof (cache_get_numOfLines memget _ _ _ _ _ Hok Hget) as Hn1.
    destruct (IH m1 m' j l1 Hok1 Hrun Hl1 ltac:(lia)) as (Hok' & l' & Hl' & Hc').
    split; [exact Hok'|]. exists l'. split; [exact Hl' | congruence].
Qed.

(** X14: a block just requested stays cached while the requests that
    follow work on fewer than [numOfLines] blocks in all (a crossing request
    counts for two). After a request for a tag below 2^32 that does not
    cross, and any such run of requests, the same request returns 1 with a
    value and calls [memget] no more. *)
Theorem recently_used_survives address addresses (m m1 m2 : machine World)
    offset t r v :
  cache_ok m →
  address_decomposer address = (offset, t) →
  offset + 8 ≤ 64 →
  0 ≤ t < 2 ^ 32 →
  cache_get memget address m = Some (r, v, m1) →
  foldr (λ a s, block_accesses a + s) 0 addresses < numOfLines (lines m) →
  run_gets memget addresses m1 = Some m2 →
  ∃ x m3,
    cache_get memget address m2 = Some (1, Some x, m3)
    ∧ memget_calls m3 = memget_calls m2.
Proof.
  intros Hok Hdec Hoff Ht Hget Hroom Hrun.
  destruct (noncrossing_step memget address m offset t Hok Hdec Hoff)
    as (i & le & r' & v' & m1' & _ & _ & Hget' & _ & l1 & Hl1 & Hh1 & Ht1).
  rewrite Hget in Hget'. injection Hget' as <- <- <-.
  pose proof (cache_get_cache_ok memget _ _ _ _ _ Hok Hget) as Hok1.
  pose proof (cache_get_numOfLines memget _ _ _ _ _ Hok Hget) as Hn1.
  destruct (run_gets_ages addresses m1 m2 i l1 Hok1 Hrun Hl1 ltac:(lia))
    as (Hok2 & l2 & Hl2 & Hc2).
  assert (Hhit : hits t l2).
  { destruct Hh1 as [Hv Htag]. unfold content in Hc2.
    injection Hc2 as Hv2 Ht2 _. unfold hits. split; [lia|].
    rewrite Ht2, Htag. unfold wrap32. apply Z.mod_small. lia. }
  destruct (list_find (hits t) (lines m2)) as [[k lk]|] eqn:Hfind.
  - destruct (cache_ok_times_ok m2 Hok2) as (Hinit2 & _).
    rewrite (cache_get_hit memget address m2 offset t k lk Hinit2 Hdec Hoff Hfind).
    eexists _, _. split; reflexivity.
  - exfalso. apply list_find_None in Hfind.
    exact (proj1 (Forall_lookup _ _) Hfind i l2 Hl2 Hhit).
Qed.
End Ageing.

(** ** Requests below 2^38 *)

Section Small.
Context {World : Type}.
Variable memget : Z → list byte → Z → World → bool * list byte * World.

Lemma content_lookup (set set' : list cache_line) i l' :
  content <$> set' = content <$> set → set' !! i = Some l' →
  ∃ l, set !! i = Some l ∧ content l = content l'.
Proof.
  intros Hc Hl.
  assert (H : (content <$> set) !! i = Some (content l'))
    by (rewrite <- Hc, list_lookup_fmap, Hl; reflexivity).
  rewrite list_lookup_fmap in H. destruct (set !! i) as [l|]; [|discriminate].
  exists l. split; [reflexivity|]. simpl in H. congruence.
Qed.

Lemma tags_distinct_content set set' :
  content <$> set' = content <$> set → tags_distinct set → tags_distinct set'.
Proof.
  intros Hc Hd i j li lj Hi Hj Hvi Hvj Ht.
  destruct (content_lookup _ _ _ _ Hc Hi) as (li0 & Hi0 & Hci).
  destruct (content_lookup _ _ _ _ Hc Hj) as (lj0 & Hj0 & Hcj).
  unfold content in Hci, Hcj.
  injection Hci as Hv1 Ht1 _. injection Hcj as Hv2 Ht2 _.
  apply (Hd i j li0 lj0 Hi0 Hj0); congruence.
Qed.

Lemma coherent_content mem set set' :
  content <$> set' = content <$> set → coherent mem set → coherent mem set'.
Proof.
  intros Hc Hd i l Hi Hv.
  destruct (content_lookup _ _ _ _ Hc Hi) as (l0 & Hi0 & Hc0).
  unfold content in Hc0. injection Hc0 as Hv1 Ht1 Hb1.
  rewrite <- Hb1, <- Ht1. apply (Hd i l0 Hi0). congruence.
Qed.

(** The lines after a fill, as the two invariants need them. *)
Lemma fills_lines t A ok (m m' : machine World) :
  fills memget t A ok m m' →
  ∃ e le buffer,
    (∃ w, memget A (cacheBlock le) sizeOfBlock (backing m) = (ok, buffer, w))
    ∧ lines m' !! e
      = Some {| time := 0; valid := 1; tag := wrap32 t; cacheBlock := buffer |}
    ∧ ∀ i l', i ≠ e → lines m' !! i = Some l' →
              ∃ l, lines m !! i = Some l ∧ content l = content l'.
Proof.
  intros Hf.
  destruct (fills_lookup memget _ _ _ _ _ Hf)
    as (_ & _ & e & le & buffer & _ & _ & _ & Hmem & Hlk).
  exists e, le, buffer. split; [exact Hmem|]. split.
  - rewrite Hlk. destruct (decide (e = e)); [reflexivity | congruence].
  - intros i l' Hne Hl'. rewrite Hlk in Hl'.
    destruct (decide (i = e)); [congruence|].
    destruct (lines m !! i) as [l|]; [|discriminate].
    simpl in Hl'. injection Hl' as <-. exists l. split; [reflexivity|].
    symmetry. apply content_aged.
Qed.

Lemma fills_tags_distinct t A ok (m m' : machine World) :
  0 ≤ t < 2 ^ 32 →
  list_find (hits t) (lines m) = None →
  fills memget t A ok m m' →
  tags_distinct (lines m) → tags_distinct (lines m').
Proof.
  intros Ht Hnone Hf Hd.
  destruct (fills_lines _ _ _ _ _ Hf) as (e & le & buffer & _ & He & Hother).
  assert (Hw : wrap32 t = t) by (unfold wrap32; apply Z.mod_small; lia).
  assert (Hfresh : ∀ i l', i ≠ e → lines m' !! i = Some l' → valid l' ≠ 0 →
                           tag l' ≠ t).
  { intros i l' Hne Hl' Hv Htag.
    destruct (Hother i l' Hne Hl') as (l & Hl & Hc).
    unfold content in Hc. injection Hc as Hv1 Ht1 _.
    apply list_find_None in Hnone.
    apply (proj1 (Forall_lookup _ _) Hnone i l Hl).
    unfold hits. split; congruence. }
  intros i j li lj Hi Hj Hvi Hvj Htag.
  destruct (decide (i = e)) as [->|Hie], (decide (j = e)) as [->|Hje].
  - reflexivity.
  - exfalso. rewrite He in Hi. injection Hi as <-. simpl in Htag.
    apply (Hfresh j lj Hje Hj Hvj). congruence.
  - exfalso. rewrite He in Hj. injection Hj as <-. simpl in Htag.
    apply (Hfresh i li Hie Hi Hvi). congruence.
  - destruct (Hother i li Hie Hi) as (li0 & Hi0 & Hci).
    destruct (Hother j lj Hje Hj) as (lj0 & Hj0 & Hcj).
    unfold content in Hci, Hcj.
    injection Hci as Hv1 Ht1 _. injection Hcj as Hv2 Ht2 _.
    apply (Hd i j li0 lj0 Hi0 Hj0); congruence.
Qed.

Lemma fills_coherent mem t ok (m m' : machine World) :
  reliable memget mem →
  0 ≤ t < 2 ^ 32 →
  fills memget t (64 * t) ok m m' →
  coherent mem (lines m) → coherent mem (lines m').
Proof.
  intros Hrel Ht Hf Hd.
  destruct (fills_lines _ _ _ _ _ Hf)
    as (e & le & buffer & (w & Hmem) & He & Hother).
  assert (Hw : wrap32 t = t) by (unfold wrap32; apply Z.mod_small; lia).
  pose proof (Hrel (64 * t) (cacheBlock le) (backing m)) as Hr.
  rewrite Hmem in Hr. simpl in Hr. injection Hr as _ Hb.
  intros i l Hi Hv. destruct (decide (i = e)) as [->|Hie].
  - rewrite He in Hi. injection Hi as <-. simpl. rewrite Hw. exact Hb.
  - destruct (Hother i l Hie Hi) as (l0 & Hi0 & Hc).
    unfold content in Hc. injection Hc as Hv1 Ht1 Hb1.
    rewrite <- Hb1, <- Ht1. apply (Hd i l0 Hi0). congruence.
Qed.

(** A fill of another tag does not make a tag hit. *)
Lemma fills_no_hit t u A ok (m m' : machine World) :
  wrap32 t ≠ u →
  list_find (hits u) (lines m) = None →
  fills memget t A ok m m' →
  list_find (hits u) (lines m') = None.
Proof.
  intros Hne Hnone Hf.
  destruct (fills_lines _ _ _ _ _ Hf) as (e & le & buffer & _ & He & Hother).
  apply list_find_None, Forall_lookup. intros i l' Hl' [Hv Htag].
  destruct (decide (i = e)) as [->|Hie].
  - rewrite He in Hl'. injection Hl' as <-. simpl in Htag. congruence.
  - destruct (Hother i l' Hie Hl') as (l & Hl & Hc).
    unfold content in Hc. injection Hc as Hv1 Ht1 _.
    apply list_find_None in Hnone.
    apply (proj1 (Forall_lookup _ _) Hnone i l Hl).
    unfold hits. split; congruence.
Qed.

(** An invariant of the line contents that every fill of a missing 32-bit
    tag from the address of that tag keeps is kept by every call whose
    eight bytes lie below [2^38]. *)
Lemma cache_get_small (I : list cache_line → Prop) :
  (∀ set set', content <$> set' = content <$> set → I set → I set') →
  (∀ u ok (m m' : machine World), 0 ≤ u < 2 ^ 32 →
     list_find (hits u) (lines m) = None →
     fills memget u (64 * u) ok m m' → I (lines m) → I (lines m')) →
  ∀ address (m : machine World) r v m',
    initialized (F_memory m) ≠ 0 →
    0 ≤ address → address + 8 ≤ 2 ^ 38 →
    cache_get memget address m = Some (r, v, m') →
    I (lines m) → I (lines m').
Proof.
  intros Hcontent Hfill address m r v m' Hinit Hlo Hhi Hget HI.
  assert (Htouch : ∀ u (m0 m1 : machine World),
            touches u m0 m1 → I (lines m0) → I (lines m1)).
  { intros u m0 m1 Ht. apply Hcontent. apply (touches_frame _ _ _ Ht). }
  destruct (address_decomposer address) as [offset t] eqn:Hdec.
  destruct (block_address address offset t ltac:(lia) Hdec) as (Ho & Ht & HA).
  assert (Ht32 : t * 64 + offset = address).
  { rewrite address_decomposer_eq in Hdec. injection Hdec as <- <-.
    pose proof (Z.div_mod address 64). lia. }
  destruct (Z.le_gt_cases (offset + 8) 64) as [Hoff|Hoff].
  - destruct (cache_get_plain memget _ _ _ _ _ _ _ Hinit Hdec Hoff Hget)
      as [(Hto & _) | (Hnone & ok & Hf & _)].
    + eauto.
    + rewrite HA in Hf. apply (Hfill t ok m m'); auto. lia.
  - destruct (next_block address offset t ltac:(lia) Hdec ltac:(lia))
      as (Hdec2 & HA2 & Hnext).
    specialize (Hnext ltac:(lia)).
    destruct (cache_get_crossing memget _ _ _ _ _ _ _ _ _ Hinit Hdec
                ltac:(lia) Hdec2 Hget)
      as [_ (h1 & h2 & ok1 & ok2 & ma & mb & mc & H1 & H2 & H3 & H4)].
    rewrite HA in H3. rewrite HA2, Hnext in H4. rewrite Hnext in H2.
    assert (Ia : I (lines ma) ∧ (h1 = false →
                list_find (hits t) (lines ma) = None)).
    { destruct h1; [split; [eauto | discriminate]|].
      destruct H1 as [Hn ->]. auto. }
    destruct Ia as [Ia Hna].
    assert (Ib : I (lines mb)
                 ∧ (h1 = false → list_find (hits t) (lines mb) = None)
                 ∧ (h2 = false → list_find (hits (t + 1)) (lines mb) = None)).
    { destruct h2.
      - split; [eauto|]. split; [|discriminate]. intros ->.
        eapply list_find_hits_content_None; [|apply Hna; reflexivity].
        symmetry. apply (touches_frame _ _ _ H2).
      - destruct H2 as [Hn ->]. auto. }
    destruct Ib as (Ib & Hnb & Hnb2).
    assert (Ic : I (lines mc)
                 ∧ (h2 = false → list_find (hits (t + 1)) (lines mc) = None)).
    { destruct h1.
      - destruct H3 as [_ ->]. auto.
      - split; [apply (Hfill t ok1 mb mc); auto; lia|].
        intros ->.
        assert (Hne : wrap32 t ≠ t + 1)
          by (unfold wrap32; rewrite Z.mod_small; lia).
        apply (fills_no_hit _ _ _ _ _ _ Hne (Hnb2 eq_refl) H3). }
    destruct Ic as (Ic & Hnc).
    destruct ok1.
    + destruct H4 as [H4 _]. destruct h2.
      * destruct H4 as [_ ->]. exact Ic.
      * apply (Hfill (t + 1) ok2 mc m'); auto. lia.
    + destruct H4 as [-> _]. exact Ic.
Qed.

(** X15: a call whose eight bytes lie below 2^38 never caches a block
    twice: if no two valid lines had the same tag before, none have
    after. *)
Theorem cache_get_tags_distinct address (m : machine World) r v m' :
  initialized (F_memory m) ≠ 0 →
  0 ≤ address → address + 8 ≤ 2 ^ 38 →
  tags_distinct (lines m) →
  cache_get memget address m = Some (r, v, m') →
  tags_distinct (lines m').
Proof.
  intros Hinit Hlo Hhi Hd Hget.
  apply (cache_get_small tags_distinct tags_distinct_content
           (λ u ok m0 m1 Hu Hn Hf, fills_tags_distinct u _ ok m0 m1 Hu Hn Hf)
           address m r v m' Hinit Hlo Hhi Hget Hd).
Qed.

Lemma boot_invalid (m : machine World) i l :
  lines (boot m) !! i = Some l → valid l = 0.
Proof.
  intros Hl. pose proof (boot_no_hit m (tag l)) as Hn.
  apply list_find_None in Hn.
  pose proof (proj1 (Forall_lookup _ _) Hn i l Hl) as Hh.
  unfold hits in Hh. destruct (decide (valid l = 0)); [assumption|].
  exfalso. apply Hh. auto.
Qed.

Lemma cache_get_coherent mem address (m : machine World) r v m' :
  reliable memget mem →
  initialized (F_memory m) ≠ 0 →
  0 ≤ address → address + 8 ≤ 2 ^ 38 →
  coherent mem (lines m) →
  cache_get memget address m = Some (r, v, m') →
  coherent mem (lines m').
Proof.
  intros Hrel Hinit Hlo Hhi Hd Hget.
  apply (cache_get_small (coherent mem) (coherent_content mem)
           (λ u ok m0 m1 Hu _ Hf, fills_coherent mem u ok m0 m1 Hrel Hu Hf)
           address m r v m' Hinit Hlo Hhi Hget Hd).
Qed.

(** Over a reliable memory a coherent cache answers a request that does not
    cross with the word of the memory. *)
Lemma cache_get_coherent_word mem address (m : machine World) offset t :
  reliable memget mem →
  cache_ok m →
  0 ≤ address < 2 ^ 64 →
  address_decomposer address = (offset, t) →
  offset + 8 ≤ 64 →
  coherent mem (lines m) →
  ∃ m', cache_get memget address m
        = Some (1, Some (reverse_endian
                           (bytes_from (mem (64 * t)) (Z.to_nat offset) 8)), m').
Proof.
  intros Hrel Hok Hlo Hdec Hoff Hd.
  destruct (cache_ok_times_ok m Hok) as (Hinit & _ & _).
  destruct (list_find (hits t) (lines m)) as [[i line]|] eqn:Hfind.
  - rewrite (cache_get_hit memget address m offset t i line Hinit Hdec Hoff Hfind).
    apply list_find_Some in Hfind as (Hi & [Hv Htag] & _).
    rewrite (Hd i line Hi Hv), Htag. eexists. reflexivity.
  - destruct (cache_ok_victim m t Hok) as (e & set1 & le & Hev & Hle & _).
    destruct (memget (wrap64 (address - offset)) (cacheBlock le) sizeOfBlock
                (backing m)) as [[ok buffer] w] eqn:Hmem.
    rewrite (cache_get_miss memget address m offset t e set1 le ok buffer w
               Hinit Hdec Hoff Hfind Hev Hle Hmem).
    pose proof (Hrel (wrap64 (address - offset)) (cacheBlock le) (backing m)) as Hr.
    rewrite Hmem in Hr. simpl in Hr. injection Hr as -> ->.
    destruct (block_address address offset t Hlo Hdec) as (_ & _ & HA).
    rewrite HA. eexists. reflexivity.
Qed.
End Small.

Section Transparent.
Context {World : Type}.
Variable memget : Z → list byte → Z → World → bool * list byte * World.

Lemma boot_tags_distinct (m : machine World) : tags_distinct (lines (boot m)).
Proof.
  intros i j li lj Hi _ Hv _ _. rewrite (boot_invalid m i li Hi) in Hv.
  congruence.
Qed.

Lemma boot_coherent mem (m : machine World) : coherent mem (lines (boot m)).
Proof.
  intros i l Hi Hv. rewrite (boot_invalid m i l Hi) in Hv. congruence.
Qed.

(** A run of requests below [2^38] over a reliable memory returns and keeps
    the cache coherent. *)
Lemma run_gets_coherent mem addresses : ∀ (m : machine World),
  reliable memget mem →
  cache_ok m →
  coherent mem (lines m) →
  Forall (λ a, 0 ≤ a ∧ a + 8 ≤ 2 ^ 38) addresses →
  ∃ m', run_gets memget addresses m = Some m'
        ∧ cache_ok m' ∧ coherent mem (lines m').
Proof.
  induction addresses as [|a rest IH]; intros m Hrel Hok Hco Hall.
  - exists m. simpl. auto.
  - apply Forall_cons_1 in Hall as [[Hlo Hhi] Hall].
    destruct (cache_get_total memget a m Hok) as (r & v & m1 & Hget).
    destruct (cache_ok_times_ok m Hok) as (Hinit & _).
    pose proof (cache_get_cache_ok memget _ _ _ _ _ Hok Hget) as Hok1.
    pose proof (cache_get_coherent memget mem _ _ _ _ _ Hrel Hinit Hlo Hhi Hco Hget)
      as Hco1.
    destruct (IH m1 Hrel Hok1 Hco1 Hall) as (m' & Hrun & Hok' & Hco').
    exists m'. simpl. rewrite Hget. simpl. auto.
Qed.

(** X16: the cache is transparent. Over a backing memory whose reads
    always succeed and deliver the block the memory has at the address,
    after [init] and any run of requests whose bytes lie below 2^38, every
    request that does not cross a block boundary returns 1 and the word the
    memory holds at its address. *)
Theorem transparent_cache mem (arena : machine World) addresses address
    offset t :
  reliable memget mem →
  0 < numOfLines (lines arena) < 2 ^ 32 →
  Forall (λ a, 0 ≤ a ∧ a + 8 ≤ 2 ^ 38) addresses →
  0 ≤ address < 2 ^ 64 →
  address_decomposer address = (offset, t) →
  offset + 8 ≤ 64 →
  ∃ m m',
    run_gets memget addresses (boot arena) = Some m
    ∧ cache_get memget address m
      = Some (1,
              Some (reverse_endian
                      (bytes_from (mem (64 * t)) (Z.to_nat offset) 8)),
              m').
Proof.
  intros Hrel Hn Hall Haddr Hdec Hoff.
  destruct (run_gets_coherent mem addresses (boot arena) Hrel
              (boot_cache_ok arena Hn) (boot_coherent mem arena) Hall)
    as (m & Hrun & Hok & Hco).
  destruct (cache_get_coherent_word memget mem address m offset t Hrel Hok Haddr
              Hdec Hoff Hco) as (m' & Hget).
  exists m, m'. auto.
Qed.
End Transparent.

(** * Worked instances of the further properties *)

(** Two buffers with the same word: the one [cache_get_byElem] fills from
    block 0 of the fake memory and the first eight bytes of that block. *)
Lemma reverse_endian_inj_witness :
  cache_get_byElem (replicate 8 x00) (fake_block 0) 8 0
  = bytes_of (fake_block 0) 8.
Proof.
  apply (reverse_endian_inj
           (cache_get_byElem (replicate 8 x00) (fake_block 0) 8 0)
           (bytes_of (fake_block 0) 8));
    vm_compute; reflexivity.
Defined.

(** The second half of a crossing request: four bytes copied to index 4. *)
Lemma cache_get_byElem_splice_witness :
  cache_get_byElem (replicate 8 x00) (fake_block 64) 4 4
  = take 4 (replicate 8 x00) ++ bytes_of (fake_block 64) 4
    ++ drop (4 + 4) (replicate 8 x00).
Proof.
  apply (cache_get_byElem_splice (replicate 8 x00) (fake_block 64) 4 4).
  simpl. lia.
Defined.

(** The victim of a fresh cache of two lines is line 1. *)
Lemma findEvict_defined_witness :
  ∃ l, lines (boot (blank_machine 2)) !! 1%nat = Some l
       ∧ time l = wrap32 (numOfLines (lines (boot (blank_machine 2))) - 1).
Proof.
  assert (H : ∃ set', findEvict (lines (boot (blank_machine 2))) 7
                      = Some (1%nat, set'))
    by (eexists; vm_compute; reflexivity).
  destruct H as [set' H].
  exact (proj1 (proj2 (proj2 (findEvict_defined
                                (lines (boot (blank_machine 2))) 7))
                  1%nat set' H)).
Defined.

(** A fast memory too small for a single line. *)
Lemma cache_get_no_lines_witness :
  cache_get (fake_memget []) 8 (blank_machine 0) = None.
Proof. apply (cache_get_no_lines (fake_memget []) 8 (blank_machine 0)). reflexivity. Defined.

(** Address 60: the second half is block 1, at address 64. *)
Lemma crossing_next_block_witness :
  0 ≤ 0 < 2 ^ 58
  ∧ wrap64 (60 - 60) = 64 * 0
  ∧ address_decomposer (wrap64 (60 + (64 - 60))) = (0, (0 + 1) mod 2 ^ 58)
  ∧ wrap64 (wrap64 (60 + (64 - 60)) - 0) = 64 * ((0 + 1) mod 2 ^ 58)
  ∧ (60 + 8 ≤ 2 ^ 64 → (0 + 1) mod 2 ^ 58 = 0 + 1)
  ∧ (2 ^ 64 < 60 + 8 → (0 + 1) mod 2 ^ 58 = 0).
Proof. apply (crossing_next_block 60 60 0); [lia | reflexivity | lia]. Defined.

(** A first request on a fresh cache of two lines. *)
Lemma cache_get_defined_witness :
  ∃ r v m',
    cache_get (fake_memget []) 8 (boot (blank_machine 2)) = Some (r, v, m')
    ∧ cache_ok m'
    ∧ (r = 0 ∨ r = 1)
    ∧ (r = 1 ↔ 8 + 8 ≤ 64 ∧ v ≠ None)
    ∧ (∀ x, v = Some x → 0 ≤ x < 2 ^ 64).
Proof.
  apply (cache_get_defined (fake_memget []) 8 (boot (blank_machine 2)) 8 0
           (boot_blank_cache_ok 2 ltac:(lia) ltac:(lia)) eq_refl).
Defined.

(** A crossing request on a cold cache reads block 0, then block 1. *)
Lemma memget_discipline_witness :
  ∃ m',
    run_gets (fake_memget []) [60] (blank_machine 2) = Some m'
    ∧ ∃ new,
        memget_calls m' = memget_calls (blank_machine 2) ++ new
        ∧ (60 + 8 ≤ 64 → new = [] ∨ new = [64 * 0])
        ∧ (64 < 60 + 8 →
           new = [] ∨ new = [64 * 0] ∨ new = [64 * ((0 + 1) mod 2 ^ 58)]
           ∨ new = [64 * 0; 64 * ((0 + 1) mod 2 ^ 58)]).
Proof.
  eexists. split; [vm_compute; reflexivity|].
  eapply (memget_discipline (fake_memget []) 60 (blank_machine 2) 60 0).
  - lia.
  - reflexivity.
  - vm_compute. reflexivity.
Defined.

(** Two lines, one of them made valid by a first request: a request for
    another block evicts the other line and the valid one stays valid. *)
Lemma cache_get_never_invalidates_witness :
  ∃ m r v m',
    run_gets (fake_memget []) [8] (boot (blank_machine 2)) = Some m
    ∧ valid <$> lines m = [0; 1]
    ∧ cache_get (fake_memget []) 64 m = Some (r, v, m')
    ∧ length (lines m') = length (lines m)
    ∧ initialized (F_memory m') = initialized (F_memory m)
    ∧ ∀ i l, lines m !! i = Some l →
             ∃ l', lines m' !! i = Some l' ∧ (valid l ≠ 0 → valid l' ≠ 0).
Proof.
  eexists _, _, _, _. split; [vm_compute; reflexivity|].
  split; [vm_compute; reflexivity|].
  split; [vm_compute; reflexivity|].
  eapply (cache_get_never_invalidates (fake_memget []) 64).
  - vm_compute. discriminate.
  - vm_compute. reflexivity.
Defined.

(** Address 60 on a fresh cache whose memory fails to read block 0. *)
Lemma crossing_first_read_fails_witness :
  ∃ m' e l',
    cache_get (fake_memget [0]) 60 (boot (blank_machine 2)) = Some (0, None, m')
    ∧ memget_calls m'
      = memget_calls (boot (blank_machine 2)) ++ [wrap64 (60 - 60)]
    ∧ lines m' !! e = Some l'
    ∧ holds 0 l' ∧ time l' = 0.
Proof.
  apply (crossing_first_read_fails (fake_memget [0]) 60
           (boot (blank_machine 2)) 60 0 0 1
           (boot_blank_cache_ok 2 ltac:(lia) ltac:(lia))).
  - reflexivity.
  - lia.
  - vm_compute. reflexivity.
  - vm_compute. reflexivity.
  - intros old w. reflexivity.
Defined.

(** The first request ever made on an arena of two lines. *)
Lemma first_call_reads_memory_witness :
  ∃ r v m',
    cache_get (fake_memget []) 8 (blank_machine 2) = Some (r, v, m')
    ∧ initialized (F_memory m') = 1
    ∧ ∃ rest, memget_calls m'
              = memget_calls (blank_machine 2) ++ wrap64 (8 - 8) :: rest.
Proof.
  apply (first_call_reads_memory (fake_memget []) 8 (blank_machine 2) 8 0).
  - reflexivity.
  - vm_compute. split; reflexivity.
  - reflexivity.
Defined.

(** Three lines and a crossing request: line 0, whose time is 0, keeps its
    content. *)
Lemma cache_get_ages_witness :
  ∃ m',
    run_gets (fake_memget []) [60] (boot (blank_machine 3)) = Some m'
    ∧ ∃ l', lines m' !! 0%nat = Some l'
            ∧ valid l' = valid blank_line ∧ tag l' = tag blank_line
            ∧ cacheBlock l' = cacheBlock blank_line
            ∧ time l' ≤ time blank_line + block_accesses 60
            ∧ time l' < numOfLines (lines m').
Proof.
  eexists. split; [vm_compute; reflexivity|].
  eapply (cache_get_ages (fake_memget []) 60 (boot (blank_machine 3)) _ _ _
            0%nat blank_line).
  - apply (boot_blank_cache_ok 3); lia.
  - vm_compute. reflexivity.
  - reflexivity.
  - vm_compute. reflexivity.
Defined.

(** Three lines: block 0 is still cached after blocks 1 and 2 have been
    requested. *)
Lemma recently_used_survives_witness :
  ∃ m2,
    run_gets (fake_memget []) [8; 64; 128] (boot (blank_machine 3)) = Some m2
    ∧ ∃ x m3,
        cache_get (fake_memget []) 8 m2 = Some (1, Some x, m3)
        ∧ memget_calls m3 = memget_calls m2.
Proof.
  eexists. split; [vm_compute; reflexivity|].
  eapply (recently_used_survives (fake_memget []) 8 [64; 128]
            (boot (blank_machine 3)) _ _ 8 0).
  - apply (boot_blank_cache_ok 3); lia.
  - reflexivity.
  - lia.
  - lia.
  - vm_compute. reflexivity.
  - vm_compute. reflexivity.
  - vm_compute. reflexivity.
Defined.

(** A crossing request on a fresh cache of two lines. *)
Lemma cache_get_tags_distinct_witness :
  ∃ m',
    run_gets (fake_memget []) [60] (boot (blank_machine 2)) = Some m'
    ∧ tags_distinct (lines m').
Proof.
  eexists. split; [vm_compute; reflexivity|].
  eapply (cache_get_tags_distinct (fake_memget []) 60 (boot (blank_machine 2))).
  - vm_compute. discriminate.
  - lia.
  - lia.
  - apply boot_tags_distinct.
  - vm_compute. reflexivity.
Defined.

(** The fake memory without failing addresses is reliable. *)
Lemma fake_memget_reliable : reliable (fake_memget []) fake_block.
Proof. intros A old w. reflexivity. Defined.

(** Requests for blocks 0, 1 (a crossing one), 2 and 0 on two lines, then
    the word at address 72. *)
Lemma transparent_cache_witness :
  ∃ m m',
    run_gets (fake_memget []) [0; 60; 128; 8] (boot (blank_machine 2)) = Some m
    ∧ cache_get (fake_memget []) 72 m
      = Some (1, Some (reverse_endian (bytes_from (fake_block (64 * 1)) (Z.to_nat 8) 8)),
              m').
Proof.
  apply (transparent_cache (fake_memget []) fake_block (blank_machine 2)
           [0; 60; 128; 8] 72 8 1 fake_memget_reliable).
  - vm_compute. split; reflexivity.
  - repeat (constructor; [lia|]). constructor.
  - lia.
  - reflexivity.
  - lia.
Defined.
